(** * edges.py: helpers around the edges of a GerryChain dual graph

    A shallow embedding of [edges.py] and of the small part of Python,
    networkx, pandas and geopandas it calls into, followed by the
    properties of the specification that were checked against it.

    - Python values are an inductive type [pyval] (integers, strings and
      geometries); [==] is structural equality.
    - Exceptions are an explicit error type; every fallible subscription
      ([d[k]], [graph.nodes[n]], [df[col]]) returns a [result].
    - The graph and the tables are mutated in place by the source and
      returned; here each function returns the new state.
    - Python dictionaries whose iteration order is observed (networkx's
      [_node] and [_adj]) are association lists kept in insertion order;
      dictionaries that are only looked up (attribute dictionaries, rows,
      [key_dict]) are [gmap]s.
    - Tables are lists of rows on the default index; cells are untyped.
    - shapely is opaque: [centroid], [LineString] and [intersection] are
      parameters of the development.
    - [to_file] and [nx.connected_components] are opaque as well; printing
      and rendering are left out. *)

From stdpp Require Import base option list list_monad strings countable gmap fin_maps.

Open Scope Z_scope.

(** ** Exceptions and the error monad *)

Inductive exn := KeyError | ValueError | AttributeError | NetworkXError.

Inductive result (A : Type) := Ok (a : A) | Err (e : exn).
Arguments Ok {A} a.
Arguments Err {A} e.

#[global] Instance result_ret : MRet result := fun A a => Ok a.
#[global] Instance result_bind : MBind result :=
  fun A B f m => match m with Ok a => f a | Err e => Err e end.

(** [d[k]] on a dictionary that is only looked up. *)
Definition subscript `{Lookup K V M} (d : M) (k : K) : result V :=
  match d !! k with Some v => Ok v | None => Err KeyError end.

(** ** Insertion-ordered dictionaries (Python [dict], keys unique) *)

Module PyDict.
Section ops.
Context {K V : Type} `{EqDecision K}.

Fixpoint get (k : K) (d : list (K * V)) : option V :=
  match d with
  | [] => None
  | (k', v) :: d' => if decide (k' = k) then Some v else get k d'
  end.

Definition keys (d : list (K * V)) : list K := d.*1.

(** [d[k] = v]: overwrite in place, or append a new entry. *)
Fixpoint set (k : K) (v : V) (d : list (K * V)) : list (K * V) :=
  match d with
  | [] => [(k, v)]
  | (k', v') :: d' =>
      if decide (k' = k) then (k', v) :: d' else (k', v') :: set k v d'
  end.
End ops.
End PyDict.

Section Model.

(** shapely geometries, opaque; [centroid] stands for [poly.centroid],
    [LineString] for the constructor applied to a list of points, and
    [intersection] for [p1.intersection(p2)]. *)
Context {geom : Type} `{Countable geom}.
Variable centroid : geom -> geom.
Variable LineString : list geom -> geom.
Variable intersection : geom -> geom -> geom.

(** ** Python values *)

Inductive pyval :=
  | VInt (z : Z)
  | VStr (s : string)
  | VGeom (g : geom).

#[global] Instance pyval_eq_dec : EqDecision pyval.
Proof. solve_decision. Defined.

Definition pyval_to_sum (v : pyval) : Z + string + geom :=
  match v with
  | VInt z => inl (inl z)
  | VStr s => inl (inr s)
  | VGeom g => inr g
  end.

Definition pyval_of_sum (s : Z + string + geom) : pyval :=
  match s with
  | inl (inl z) => VInt z
  | inl (inr s) => VStr s
  | inr g => VGeom g
  end.

#[global] Instance pyval_countable : Countable pyval.
Proof.
  apply (inj_countable' pyval_to_sum pyval_of_sum).
  intros []; reflexivity.
Defined.

(** Attribute dictionaries and table rows: column or attribute name to value. *)
Abbreviation attrs := (gmap string pyval).

(** ** networkx.Graph

    [_node] maps a node to its attribute dictionary and [_adj] a node to its
    neighbours, both in insertion order.  Edge data dictionaries are left
    out: nothing in [edges.py] reads them. *)

Record Graph := mkGraph {
  _node : list (pyval * attrs);
  _adj : list (pyval * list pyval)
}.

(** [for node in graph] *)
Definition nodes (g : Graph) : list pyval := PyDict.keys (_node g).

(** [graph.nodes[n]] *)
Definition node_attrs (g : Graph) (n : pyval) : result attrs :=
  match PyDict.get n (_node g) with Some a => Ok a | None => Err KeyError end.

Definition neighbors (g : Graph) (n : pyval) : list pyval :=
  default [] (PyDict.get n (_adj g)).

(** [graph.has_edge(u, v)]: [v in self._adj[u]] *)
Definition has_edge (g : Graph) (u v : pyval) : bool :=
  bool_decide (v ∈ neighbors g u).

(** The node-creating part of [Graph.add_edge]. *)
Definition add_node_if_missing (n : pyval) (g : Graph) : Graph :=
  if decide (n ∈ nodes g) then g
  else {| _node := _node g ++ [(n, ∅)]; _adj := _adj g ++ [(n, [])] |}.

(** [self._adj[u][v] = datadict] *)
Definition adj_insert (u v : pyval) (adj : list (pyval * list pyval))
  : list (pyval * list pyval) :=
  let nb := default [] (PyDict.get u adj) in
  PyDict.set u (if decide (v ∈ nb) then nb else nb ++ [v]) adj.

(** [Graph.add_edge(u, v)]: both endpoints are created when absent, then
    the edge is recorded in both adjacency dictionaries.  It never raises
    on the values modelled here ([None] is not one of them). *)
Definition add_edge (u v : pyval) (g : Graph) : Graph :=
  let g2 := add_node_if_missing v (add_node_if_missing u g) in
  {| _node := _node g2; _adj := adj_insert v u (adj_insert u v (_adj g2)) |}.

(** [del self._adj[u][v]], [None] standing for the [KeyError]. *)
Definition adj_delete (u v : pyval) (adj : list (pyval * list pyval))
  : option (list (pyval * list pyval)) :=
  match PyDict.get u adj with
  | Some nb =>
      if decide (v ∈ nb) then Some (PyDict.set u (filter (λ x, x ≠ v) nb) adj)
      else None
  | None => None
  end.

(** [Graph.remove_edge(u, v)]: a [KeyError] in either deletion is turned
    into [NetworkXError]; a self-loop has one entry only. *)
Definition remove_edge (u v : pyval) (g : Graph) : result Graph :=
  match adj_delete u v (_adj g) with
  | None => Err NetworkXError
  | Some adj1 =>
      if decide (u = v) then Ok {| _node := _node g; _adj := adj1 |}
      else match adj_delete v u adj1 with
           | None => Err NetworkXError
           | Some adj2 => Ok {| _node := _node g; _adj := adj2 |}
           end
  end.

(** [list(graph.edges)]: every node in insertion order, every neighbour
    not yet seen as a source. *)
Fixpoint edges_from (seen : list pyval) (adj : list (pyval * list pyval))
  : list (pyval * pyval) :=
  match adj with
  | [] => []
  | (n, nbrs) :: adj' =>
      ((λ nbr, (n, nbr)) <$> filter (λ nbr, nbr ∉ seen) nbrs)
        ++ edges_from (n :: seen) adj'
  end.

Definition edges (g : Graph) : list (pyval * pyval) := edges_from [] (_adj g).

(** ** NodeLookup *)

(** The value [-1] returned when the scan finds nothing. *)
Definition NotFound : pyval := VInt (-1).

Fixpoint scan_nodes (keyval : pyval) (g : Graph) (key : string) (ns : list pyval)
  : result pyval :=
  match ns with
  | [] => Ok NotFound
  | node :: ns' =>
      a ← node_attrs g node;
      x ← subscript a key;
      if decide (x = keyval) then Ok node else scan_nodes keyval g key ns'
  end.

(** [find_node_by_key(keyval, graph, key)]: the first node, in iteration
    order, whose [key] attribute equals [keyval]; [-1] when the scan ends.
    [graph.nodes[node][key]] raises [KeyError] on a node without [key]. *)
Definition find_node_by_key (keyval : pyval) (g : Graph) (key : string)
  : result pyval :=
  scan_nodes keyval g key (nodes g).

(** ** EdgeFeatureEditor *)

Definition remove_edge_by_feature (g : Graph) (u_key v_key : pyval) (key : string)
  : result Graph :=
  u ← find_node_by_key u_key g key;
  v ← find_node_by_key v_key g key;
  remove_edge u v g.

Definition add_edge_by_feature (g : Graph) (u_key v_key : pyval) (key : string)
  : result Graph :=
  u ← find_node_by_key u_key g key;
  v ← find_node_by_key v_key g key;
  Ok (add_edge u v g).

(** ** pandas / geopandas tables

    A table has its column labels, its rows in index order (the default
    [RangeIndex], as every table built here has) and the coordinate
    reference system of a [GeoDataFrame].  In pandas every row has a cell
    under every column label; a row of the model that lacks one makes the
    subscription raise. *)

Record DataFrame := mkDataFrame {
  df_columns : list string;
  df_rows : list attrs;
  df_crs : option pyval
}.

(** [row[c]] inside [iterrows] *)
Definition row_get (r : attrs) (c : string) : result pyval := subscript r c.

(** [df[c]]: the column as a list of cells; [KeyError] without that label. *)
Definition column (df : DataFrame) (c : string) : result (list pyval) :=
  if decide (c ∈ df_columns df) then mapM (λ r, row_get r c) (df_rows df)
  else Err KeyError.

(** [df[c] = v]: a constant column, appended when [c] is a new label. *)
Definition set_column_const (c : string) (v : pyval) (df : DataFrame) : DataFrame :=
  {| df_columns := if decide (c ∈ df_columns df) then df_columns df
                   else df_columns df ++ [c];
     df_rows := (λ r, <[c := v]> r) <$> df_rows df;
     df_crs := df_crs df |}.

(** [df[c] = series], both on the default index: cell by cell. *)
Definition set_column (c : string) (vs : list pyval) (df : DataFrame) : DataFrame :=
  {| df_columns := if decide (c ∈ df_columns df) then df_columns df
                   else df_columns df ++ [c];
     df_rows := zip_with (λ r v, <[c := v]> r) (df_rows df) vs;
     df_crs := df_crs df |}.

(** [df.loc[mask, c] = v] for an existing column [c]. *)
Definition loc_set (mask : list bool) (c : string) (v : pyval) (df : DataFrame)
  : DataFrame :=
  {| df_columns := df_columns df;
     df_rows := zip_with (λ (b : bool) r, if b then <[c := v]> r else r)
                  mask (df_rows df);
     df_crs := df_crs df |}.

(** [df.set_crs(crs)] on a freshly built table, which has none yet: the
    reference system is copied, no coordinate is transformed. *)
Definition set_crs (crs : option pyval) (df : DataFrame) : DataFrame :=
  {| df_columns := df_columns df; df_rows := df_rows df; df_crs := crs |}.

(** [(s1 == u) & (s2 == v)] on two columns *)
Definition eq_and_eq (s1 : list pyval) (u : pyval) (s2 : list pyval) (v : pyval)
  : list bool :=
  zip_with andb ((λ x, bool_decide (x = u)) <$> s1)
                ((λ x, bool_decide (x = v)) <$> s2).

(** ** KeyedGeometryIndex *)

(** The loop [for _idx, row in shp.iterrows(): d[row[key]] = row[c]]. *)
Fixpoint index_rows (key c : string) (d : gmap pyval pyval) (rows : list attrs)
  : result (gmap pyval pyval) :=
  match rows with
  | [] => Ok d
  | row :: rows' =>
      x ← row_get row c;
      k ← row_get row key;
      index_rows key c (<[k := x]> d) rows'
  end.

(** [key_dict], as [edges_geoms] and [shared_boundaries_gdf] build it. *)
Definition key_dict_of (shp : DataFrame) (key : string) : result (gmap pyval pyval) :=
  index_rows key "geometry" ∅ (df_rows shp).

(** The loop of [edges_geoms_endpoints], which fills two dictionaries. *)
Fixpoint index_rows2 (key endpoints : string) (kd ed : gmap pyval pyval)
    (rows : list attrs) : result (gmap pyval pyval * gmap pyval pyval) :=
  match rows with
  | [] => Ok (kd, ed)
  | row :: rows' =>
      x ← row_get row "geometry";
      k ← row_get row key;
      e ← row_get row endpoints;
      k' ← row_get row key;
      index_rows2 key endpoints (<[k := x]> kd) (<[k' := e]> ed) rows'
  end.

(** ** EdgeGeometryBuilder *)

Definition pair_mapM {A B} (f : A -> result B) (l : list (A * A))
  : result (list (B * B)) :=
  mapM (λ p, x ← f p.1; y ← f p.2; Ok (x, y)) l.

(** The comprehensions [nodes] and [keys], which [edges_geoms] and
    [edges_geoms_endpoints] both have: the attribute dictionaries of the
    endpoints of every edge of [list(graph.edges)], then their key values. *)
Definition edge_keys (g : Graph) (key : string) : result (list (pyval * pyval)) :=
  ns ← pair_mapM (node_attrs g) (edges g);
  pair_mapM (λ a : attrs, subscript a key) ns.

Definition edges_geoms (g : Graph) (shp : DataFrame) (key : string)
  : result (list (pyval * pyval)) :=
  key_dict ← key_dict_of shp key;
  keys ← edge_keys g key;
  pair_mapM (subscript key_dict) keys.

Definition edges_geoms_endpoints (g : Graph) (shp : DataFrame)
    (endpoints key : string)
  : result (list (pyval * pyval) * list (pyval * pyval)) :=
  '(key_dict, endpoint_dict) ← index_rows2 key endpoints ∅ ∅ (df_rows shp);
  keys ← edge_keys g key;
  geoms ← pair_mapM (subscript key_dict) keys;
  ends ← pair_mapM (subscript endpoint_dict) keys;
  Ok (geoms, ends).

(** [poly.centroid]: an attribute of geometries only. *)
Definition centroid_of (v : pyval) : result geom :=
  match v with VGeom p => Ok (centroid p) | _ => Err AttributeError end.

(** [[LineString([poly1.centroid, poly2.centroid]) for poly1, poly2 in geoms]] *)
Definition centerlines (geoms : list (pyval * pyval)) : result (list pyval) :=
  mapM (λ p, c1 ← centroid_of p.1; c2 ← centroid_of p.2;
             Ok (VGeom (LineString [c1; c2]))) geoms.

(** ** EdgeTableExporter *)

Definition edges_to_gdf (g : Graph) (shp : DataFrame) (key : string)
  : result DataFrame :=
  geoms ← edges_geoms g shp key;
  lines ← centerlines geoms;
  let dual := {| df_columns := ["geometry"];
                 df_rows := (λ l, {["geometry" := l]}) <$> lines;
                 df_crs := None |} in
  Ok (set_crs (df_crs shp) dual).

(** [ends_u, ends_v = zip(...)] on the unpacked [endpoints]: the
    transposition of a list of pairs has two members when the list is not
    empty and none when it is, and unpacking none into two names raises
    [ValueError]. *)
Definition unzip_pairs (l : list (pyval * pyval))
  : result (list pyval * list pyval) :=
  match l with
  | [] => Err ValueError
  | _ => Ok (l.*1, l.*2)
  end.

Definition endpoint_row (u v l : pyval) : attrs :=
  <["geometry" := l]> (<["endpoint_v" := v]> {["endpoint_u" := u]}).

(** The rows made from [zip(ends_u, ends_v, lines)]. *)
Fixpoint zip3_rows (us vs ls : list pyval) : list attrs :=
  match us, vs, ls with
  | u :: us', v :: vs', l :: ls' => endpoint_row u v l :: zip3_rows us' vs' ls'
  | _, _, _ => []
  end.

Definition edges_to_gdf_endpoints (g : Graph) (shp : DataFrame)
    (endpoints key : string) : result DataFrame :=
  '(geos, ends) ← edges_geoms_endpoints g shp endpoints key;
  '(ends_u, ends_v) ← unzip_pairs ends;
  lines ← centerlines geos;
  let dual := {| df_columns := ["endpoint_u"; "endpoint_v"; "geometry"];
                 df_rows := zip3_rows ends_u ends_v lines;
                 df_crs := None |} in
  Ok (set_crs (df_crs shp) dual).

(** ** SharedBoundaryResolver *)

(** [p1.intersection(p2)] *)
Definition intersection_of (p1 p2 : pyval) : result pyval :=
  match p1, p2 with
  | VGeom a, VGeom b => Ok (VGeom (intersection a b))
  | _, _ => Err AttributeError
  end.

Definition shared_boundaries_gdf (g : Graph) (g_shp shp : DataFrame) (key : string)
  : result DataFrame :=
  key_dict ← key_dict_of shp key;
  eu ← column g_shp "endpoint_u";
  ev ← column g_shp "endpoint_v";
  let es := zip eu ev in
  ns ← pair_mapM (λ u, find_node_by_key u g key) es;
  keys ← pair_mapM (λ n, a ← node_attrs g n; subscript a key) ns;
  geoms ← pair_mapM (subscript key_dict) keys;
  inter ← mapM (λ p, intersection_of p.1 p.2) geoms;
  let overlaps := {| df_columns := ["geometry"];
                     df_rows := (λ l, {["geometry" := l]}) <$> inter;
                     df_crs := None |} in
  let overlaps := set_crs (df_crs shp) overlaps in
  eu' ← column g_shp "endpoint_u";
  let overlaps := set_column "endpoint_u" eu' overlaps in
  ev' ← column g_shp "endpoint_v";
  Ok (set_column "endpoint_v" ev' overlaps).

(** ** EdgeAnnotator *)

(** One turn of the loop of [mark_edges] and of [mark_edges_dict]; the
    second mask compares both endpoint columns with [u], as the source
    does. *)
Definition mark_pair (col : string) (val : pyval) (df : DataFrame)
    (uv : pyval * pyval) : result DataFrame :=
  let '(u, v) := uv in
  (* try u,v *)
  eu ← column df "endpoint_u";
  ev ← column df "endpoint_v";
  let df := loc_set (eq_and_eq eu u ev v) col val df in
  (* try v,u *)
  ev ← column df "endpoint_v";
  eu ← column df "endpoint_u";
  Ok (loc_set (eq_and_eq ev u eu u) col val df).

Fixpoint mark_loop (col : string) (df : DataFrame)
    (marks : list ((pyval * pyval) * pyval)) : result DataFrame :=
  match marks with
  | [] => Ok df
  | (uv, val) :: marks' =>
      df' ← mark_pair col val df uv;
      mark_loop col df' marks'
  end.

(** [if col not in list(g_shp): g_shp[col] = 0] *)
Definition init_column (col : string) (df : DataFrame) : DataFrame :=
  if decide (col ∈ df_columns df) then df
  else set_column_const col (VInt 0) df.

(** [mark_edges(g_shp, marks, col, val)], one value for every pair *)
Definition mark_edges (g_shp : DataFrame) (marks : list (pyval * pyval))
    (col : string) (val : pyval) : result DataFrame :=
  mark_loop col (init_column col g_shp) ((λ uv, (uv, val)) <$> marks).

(** [mark_edges_dict(g_shp, marks, col)], [marks.items()] in insertion order *)
Definition mark_edges_dict (g_shp : DataFrame)
    (marks : list ((pyval * pyval) * pyval)) (col : string) : result DataFrame :=
  mark_loop col (init_column col g_shp) marks.

(** ** Vocabulary of the statements *)

(** The value of attribute [key] at node [n], when [n] is a node that
    has one. *)
Definition key_of (g : Graph) (key : string) (n : pyval) : option pyval :=
  match node_attrs g n with Ok a => a !! key | Err _ => None end.

(** The nodes whose [key] attribute equals [keyval], in iteration order. *)
Definition matching (g : Graph) (key : string) (keyval : pyval) : list pyval :=
  filter (λ n, key_of g key n = Some keyval) (nodes g).

(** Every node carries the attribute [key]. *)
Definition keyed (g : Graph) (key : string) : Prop :=
  Forall (λ n, is_Some (key_of g key n)) (nodes g).

(** The geometry that the index [kd] holds for the key value of node [n]. *)
Definition endpoint_geom (g : Graph) (key : string) (kd : gmap pyval pyval)
    (n : pyval) : option geom :=
  match key_of g key n with
  | Some k => match kd !! k with Some (VGeom p) => Some p | _ => None end
  | None => None
  end.

(** The geometry that the index [kd] holds for the label [lbl], when [lbl]
    is the key value of some node. *)
Definition label_geom (g : Graph) (key : string) (kd : gmap pyval pyval)
    (lbl : pyval) : option geom :=
  match matching g key lbl with
  | [] => None
  | _ :: _ => match kd !! lbl with Some (VGeom p) => Some p | _ => None end
  end.

(** The label that the dictionary [ed] holds for the key value of node [n]. *)
Definition endpoint_label (g : Graph) (key : string) (ed : gmap pyval pyval)
    (n : pyval) : option pyval :=
  match key_of g key n with Some k => ed !! k | None => None end.

(** Every row of the table has a cell in column [c]. *)
Definition has_column (df : DataFrame) (c : string) : Prop :=
  Forall (λ r : attrs, is_Some (r !! c)) (df_rows df).

(** A feature table for [key]: every row has a key value and a geometry. *)
Definition feature_table (shp : DataFrame) (key : string) : Prop :=
  Forall (λ r : attrs, is_Some (r !! key)
                       /\ exists p, r !! "geometry" = Some (VGeom p)) (df_rows shp).

(** The key column of the feature table covers the key values of the
    nodes: every node has a key value, and some row has it too. *)
Definition covers (g : Graph) (shp : DataFrame) (key : string) : Prop :=
  Forall (λ n, exists k, key_of g key n = Some k
                         /\ Exists (λ r : attrs, r !! key = Some k) (df_rows shp))
    (nodes g).

(** The row holds the pair [(u, v)] in this order. *)
Definition stored_as (r : attrs) (u v : pyval) : Prop :=
  r !! "endpoint_u" = Some u /\ r !! "endpoint_v" = Some v.

(** Matching of the specification: the pair in either order. *)
Definition matches_pair (r : attrs) (u v : pyval) : Prop :=
  stored_as r u v \/ stored_as r v u.

#[global] Instance matches_pair_dec r u v : Decision (matches_pair r u v).
Proof. unfold matches_pair, stored_as. apply _. Defined.

(** What the two masks of [mark_edges] select for the pair [(u, v)]: the
    rows that hold [(u, v)] and the rows that hold [(u, u)]. *)
Definition marked_by (r : attrs) (uv : pyval * pyval) : Prop :=
  stored_as r uv.1 uv.2 \/ stored_as r uv.1 uv.1.

#[global] Instance stored_as_dec r u v : Decision (stored_as r u v).
Proof. unfold stored_as. apply _. Defined.

#[global] Instance marked_by_dec r uv : Decision (marked_by r uv).
Proof. unfold marked_by. apply _. Defined.

(** What one turn of the loop of [mark_edges] does to a single row. *)
Definition mark_row (col : string) (val : pyval) (r : attrs) (uv : pyval * pyval)
  : attrs :=
  let r1 := if decide (stored_as r uv.1 uv.2) then <[col := val]> r else r in
  if decide (r1 !! "endpoint_v" = Some uv.1 /\ r1 !! "endpoint_u" = Some uv.1)
  then <[col := val]> r1 else r1.

(** The row after [init_column]. *)
Definition init_row (df : DataFrame) (col : string) (r : attrs) : attrs :=
  if decide (col ∈ df_columns df) then r else <[col := VInt 0]> r.

(** The representation invariant of [networkx.Graph]: [_node] and [_adj]
    hold the same nodes in the same order, once each, and adjacency is
    symmetric. *)
Definition wf_graph (g : Graph) : Prop :=
  NoDup (nodes g)
  /\ PyDict.keys (_adj g) = nodes g
  /\ Forall (λ p, NoDup p.2 /\ Forall (λ v, p.1 ∈ neighbors g v) p.2) (_adj g).

#[global] Instance wf_graph_dec g : Decision (wf_graph g).
Proof. unfold wf_graph. apply _. Defined.

End Model.

Arguments pyval geom : clear implicits.
Arguments Graph geom : clear implicits.
Arguments DataFrame geom : clear implicits.

(** ** A concrete geometry for the examples

    Planar shapes given by their vertices, in half units so that the
    centre of a unit square has integer coordinates. *)

Definition shape : Type := list (Z * Z).

Definition shape_centroid (s : shape) : shape :=
  let n := Z.of_nat (length s) in
  [(foldr Z.add 0 s.*1 / n, foldr Z.add 0 s.*2 / n)].

Definition shape_line (pts : list shape) : shape := concat pts.

Definition shape_inter (a b : shape) : shape :=
  filter (λ p, p ∈ b) a.

(** The unit square whose lower left corner is [(x, y)]. *)
Definition unit_square (x y : Z) : shape :=
  [(2 * x, 2 * y); (2 * x + 2, 2 * y); (2 * x + 2, 2 * y + 2); (2 * x, 2 * y + 2)].

Definition int (z : Z) : pyval shape := VInt z.
Definition str (s : string) : pyval shape := VStr s.

(** Nodes 0, 1, 2 keyed "1", "2", "3" and the edges 0-1 and 1-2. *)
Definition path_graph : Graph shape :=
  {| _node := [(int 0, {["GEOID10" := str "1"]});
               (int 1, {["GEOID10" := str "2"]});
               (int 2, {["GEOID10" := str "3"]})];
     _adj := [(int 0, [int 1]); (int 1, [int 0; int 2]); (int 2, [int 1])] |}.

(** Three unit squares in a row, keyed like the nodes of [path_graph]. *)
Definition squares : DataFrame shape :=
  {| df_columns := ["GEOID10"; "geometry"];
     df_rows := [ <["geometry" := VGeom (unit_square 0 0)]> {["GEOID10" := str "1"]};
                  <["geometry" := VGeom (unit_square 1 0)]> {["GEOID10" := str "2"]};
                  <["geometry" := VGeom (unit_square 2 0)]> {["GEOID10" := str "3"]} ];
     df_crs := Some (str "EPSG:4326") |}.

(** [path_graph] after [add_edge_by_feature(path_graph, "nope", "1", "GEOID10")]:
    the lookup of "nope" gave [-1], which [add_edge] made a node. *)
Definition orphaned : Graph shape := add_edge (int (-1)) (int 0) path_graph.

(** The index built from [squares]. *)
Definition squares_index : gmap (pyval shape) (pyval shape) :=
  <[str "3" := VGeom (unit_square 2 0)]>
    (<[str "2" := VGeom (unit_square 1 0)]>
       {[str "1" := VGeom (unit_square 0 0)]}).

(** The centre line between two points given in half units. *)
Definition segment (x1 y1 x2 y2 : Z) : pyval shape := VGeom [(x1, y1); (x2, y2)].

(** The edge table of [path_graph] over [squares], labelled by "GEOID10". *)
Definition path_edges : DataFrame shape :=
  {| df_columns := ["endpoint_u"; "endpoint_v"; "geometry"];
     df_rows := [ endpoint_row (str "1") (str "2") (segment 1 1 3 1);
                  endpoint_row (str "2") (str "3") (segment 3 1 5 1) ];
     df_crs := Some (str "EPSG:4326") |}.

(** Precincts of two counties; nodes 0 and 1 lie in the same county. *)
Definition counties : Graph shape :=
  {| _node := [(int 0, <["COUNTY" := str "X"]> {["GEOID10" := str "1"]});
               (int 1, <["COUNTY" := str "X"]> {["GEOID10" := str "2"]});
               (int 2, <["COUNTY" := str "Y"]> {["GEOID10" := str "3"]})];
     _adj := [(int 0, [int 1]); (int 1, [int 0; int 2]); (int 2, [int 1])] |}.

Definition county_squares : DataFrame shape :=
  {| df_columns := ["GEOID10"; "COUNTY"; "geometry"];
     df_rows := [ <["geometry" := VGeom (unit_square 0 0)]>
                    (<["COUNTY" := str "X"]> {["GEOID10" := str "1"]});
                  <["geometry" := VGeom (unit_square 1 0)]>
                    (<["COUNTY" := str "X"]> {["GEOID10" := str "2"]});
                  <["geometry" := VGeom (unit_square 2 0)]>
                    (<["COUNTY" := str "Y"]> {["GEOID10" := str "3"]}) ];
     df_crs := Some (str "EPSG:4326") |}.

(** The edge table of [counties], labelled by county and already carrying
    the column "marked", every cell of which is [m0] or [m1]. *)
Definition county_edges (m0 m1 : Z) : DataFrame shape :=
  {| df_columns := ["endpoint_u"; "endpoint_v"; "geometry"; "marked"];
     df_rows := [ <["marked" := int m0]>
                    (endpoint_row (str "X") (str "X") (segment 1 1 3 1));
                  <["marked" := int m1]>
                    (endpoint_row (str "X") (str "Y") (segment 3 1 5 1)) ];
     df_crs := Some (str "EPSG:4326") |}.

(** [path_edges] with the column "marked". *)
Definition path_edges_marked (m0 m1 : Z) : DataFrame shape :=
  {| df_columns := ["endpoint_u"; "endpoint_v"; "geometry"; "marked"];
     df_rows := [ <["marked" := int m0]>
                    (endpoint_row (str "1") (str "2") (segment 1 1 3 1));
                  <["marked" := int m1]>
                    (endpoint_row (str "2") (str "3") (segment 3 1 5 1)) ];
     df_crs := Some (str "EPSG:4326") |}.

(** One keyed node and no edge. *)
Definition lonely : Graph shape :=
  {| _node := [(int 0, {["GEOID10" := str "1"]})];
     _adj := [(int 0, [])] |}.

(** A feature table in which the key "1" occurs twice. *)
Definition doubled : DataFrame shape :=
  {| df_columns := ["GEOID10"; "NAME"; "geometry"];
     df_rows := [ <["geometry" := VGeom (unit_square 0 0)]>
                    (<["NAME" := str "first"]> {["GEOID10" := str "1"]});
                  <["geometry" := VGeom (unit_square 1 0)]>
                    (<["NAME" := str "other"]> {["GEOID10" := str "2"]});
                  <["geometry" := VGeom (unit_square 5 5)]>
                    (<["NAME" := str "second"]> {["GEOID10" := str "1"]}) ];
     df_crs := Some (str "EPSG:4326") |}.

(** Node [-1] is a keyed node of this graph, joined to node 0. *)
Definition minus_one : Graph shape :=
  {| _node := [(int (-1), {["GEOID10" := str "x"]});
               (int 0, {["GEOID10" := str "1"]})];
     _adj := [(int (-1), [int 0]); (int 0, [int (-1)])] |}.

(** A graph in which node 0 has no attribute at all. *)
Definition bare_first : Graph shape :=
  {| _node := [(int 0, ∅);
               (int 1, {["GEOID10" := str "a"]});
               (int 2, {["GEOID10" := str "a"]})];
     _adj := [(int 0, []); (int 1, []); (int 2, [])] |}.

(** Two nodes with the same key value. *)
Definition twins : Graph shape :=
  {| _node := [(int 0, {["GEOID10" := str "b"]});
               (int 1, {["GEOID10" := str "a"]});
               (int 2, {["GEOID10" := str "a"]})];
     _adj := [(int 0, [int 1]); (int 1, [int 0]); (int 2, [])] |}.

(** ** The functions that write a shapefile

    [edges_to_shapefile] and [edges_to_shapefile_endpoints] build the same
    table as [edges_to_gdf] and [edges_to_gdf_endpoints], by the same
    statements written out again, and hand it to [to_file].  The file
    system is a state threaded through the call; [to_file] is opaque, and
    returns the new state with [None] or an exception.  An exception raised
    while the table is built leaves the state as it was. *)

Section Writers.
Context {geom : Type} `{Countable geom}.
Variable centroid : geom -> geom.
Variable LineString : list geom -> geom.
Variable FS : Type.
Variable to_file : DataFrame geom -> string -> FS -> FS * result unit.

Definition edges_to_shapefile (g : Graph geom) (shp : DataFrame geom)
    (key outfile : string) (fs : FS) : FS * result unit :=
  match
    geoms ← edges_geoms g shp key;
    lines ← centerlines centroid LineString geoms;
    Ok {| df_columns := ["geometry"];
          df_rows := (λ l, {["geometry" := l]}) <$> lines;
          df_crs := None |}
  with
  | Ok dual =>
      let dual := set_crs (df_crs shp) dual in
      to_file dual outfile fs
  | Err e => (fs, Err e)
  end.

Definition edges_to_shapefile_endpoints (g : Graph geom) (shp : DataFrame geom)
    (endpoints key outfile : string) (fs : FS) : FS * result unit :=
  match
    '(geos, ends) ← edges_geoms_endpoints g shp endpoints key;
    '(ends_u, ends_v) ← unzip_pairs ends;
    lines ← centerlines centroid LineString geos;
    Ok {| df_columns := ["endpoint_u"; "endpoint_v"; "geometry"];
          df_rows := zip3_rows ends_u ends_v lines;
          df_crs := None |}
  with
  | Ok dual =>
      let dual := set_crs (df_crs shp) dual in
      to_file dual outfile fs
  | Err e => (fs, Err e)
  end.
End Writers.

(** ** ComponentVisualizer

    [nx.connected_components] is opaque: a parameter that gives the
    components in the order networkx yields them, each as the list of its
    nodes in the iteration order of the Python set.  Printing and rendering
    are left out; what is modelled is the data the two functions compute:
    the list that [plot_problems] returns together with the boolean column
    it hands to [shp.plot], and the series that [plot_components] hands to
    [shp.plot]. *)

Section Plots.
Context {geom : Type} `{Countable geom}.
Variable connected_components : Graph geom -> list (list (pyval geom)).

(** [max(...)] of a sequence of lengths: [ValueError] when it is empty. *)
Definition py_max (l : list nat) : result nat :=
  match l with
  | [] => Err ValueError
  | x :: l' => Ok (foldl Nat.max x l')
  end.

(** [graph.nodes[node][key]] *)
Definition node_key (g : Graph geom) (key : string) (node : pyval geom)
  : result (pyval geom) :=
  a ← node_attrs g node; subscript a key.

Definition plot_problems (g : Graph geom) (shp : DataFrame geom) (key : string)
  : result (list bool * list (pyval geom)) :=
  let components := connected_components g in
  biggest_component_size ← py_max (length <$> components);
  let problem_components :=
    filter (λ c, length c ≠ biggest_component_size) components in
  let problem_nodes := concat problem_components in
  problem_geoids ← mapM (node_key g key) problem_nodes;
  keys ← column shp key;
  let is_a_problem :=
    (λ k, bool_decide (k ∈ problem_geoids)) <$> (keys : list (pyval geom)) in
  Ok (is_a_problem, problem_geoids).

(** The inner loop of [plot_components]: the index of the first component
    whose list of values holds [k]; nothing is appended when there is none. *)
Definition first_component (keys_comps : list (list (pyval geom))) (k : pyval geom)
  : option nat :=
  fst <$> list_find (λ kc, k ∈ kc) keys_comps.

(** The node attribute read is "VTD", whatever [key] is. *)
Definition plot_components (g : Graph geom) (shp : DataFrame geom) (key : string)
  : result (list nat) :=
  let components := connected_components g in
  keys_comps ← mapM (λ c, mapM (node_key g "VTD") c) components;
  keys ← column shp key;
  let component_nums :=
    omap (first_component keys_comps) (keys : list (pyval geom)) in
  Ok component_nums.
End Plots.

(** A [connected_components] for the examples: breadth-first from every
    node not yet reached, components in the order of their first node. *)

Fixpoint bfs (fuel : nat) (g : Graph shape) (seen frontier : list (pyval shape))
  : list (pyval shape) :=
  match fuel, frontier with
  | S fuel', v :: rest =>
      let new := filter (λ w, w ∉ seen) (neighbors g v) in
      bfs fuel' g (seen ++ new) (rest ++ new)
  | _, _ => seen
  end.

Fixpoint components_from (g : Graph shape) (seen ns : list (pyval shape))
  : list (list (pyval shape)) :=
  match ns with
  | [] => []
  | v :: ns' =>
      if decide (v ∈ seen) then components_from g seen ns'
      else let c := bfs (length (nodes g)) g [v] [v] in
           c :: components_from g (seen ++ c) ns'
  end.

Definition list_components (g : Graph shape) : list (list (pyval shape)) :=
  components_from g [] (nodes g).

(** Two nodes that are not joined. *)
Definition apart : Graph shape :=
  {| _node := [(int 0, {["GEOID10" := str "1"]});
               (int 1, {["GEOID10" := str "2"]})];
     _adj := [(int 0, []); (int 1, [])] |}.

(** The graph without nodes. *)
Definition empty_graph : Graph shape := {| _node := []; _adj := [] |}.

(** Nodes 0, 1, 2 with the attributes "GEOID10" and "VTD", and the single
    edge 0-1: node 2 is a component of its own. *)
Definition split_path : Graph shape :=
  {| _node := [(int 0, <["VTD" := str "1"]> {["GEOID10" := str "1"]});
               (int 1, <["VTD" := str "2"]> {["GEOID10" := str "2"]});
               (int 2, <["VTD" := str "3"]> {["GEOID10" := str "3"]})];
     _adj := [(int 0, [int 1]); (int 1, [int 0]); (int 2, [])] |}.

(** A file system that keeps the tables written, newest first. *)
Definition write_log : Type := list (string * DataFrame shape).

Definition log_to_file (t : DataFrame shape) (outfile : string) (fs : write_log)
  : write_log * result unit :=
  ((outfile, t) :: fs, Ok ()).

(** ** Vocabulary of the further properties *)

Section Vocabulary.
Context {geom : Type} `{Countable geom}.

(** The dictionary [d] holds the pair [vs] for the key values of the two
    endpoints of the edge [e]. *)
Definition resolved (g : Graph geom) (key : string)
    (d : gmap (pyval geom) (pyval geom)) (e vs : pyval geom * pyval geom) : Prop :=
  exists k1 k2, key_of g key e.1 = Some k1 /\ key_of g key e.2 = Some k2
                /\ d !! k1 = Some vs.1 /\ d !! k2 = Some vs.2.

(** A value that has a [centroid]. *)
Definition is_geometry (v : pyval geom) : Prop :=
  match v with VGeom _ => True | _ => False end.
End Vocabulary.

(** * Properties *)

(** ** The error monad *)

Lemma bind_Ok {A B} (m : result A) (f : A -> result B) b :
  m ≫= f = Ok b <-> exists a, m = Ok a /\ f a = Ok b.
Proof.
  destruct m as [a|e]; simpl; split.
  - intros Hf. exists a. split; [reflexivity | exact Hf].
  - intros (a' & [= <-] & Hf). exact Hf.
  - intros [=].
  - intros (a' & [=] & _).
Qed.

Lemma mapM_Ok {A B} (f : A -> result B) l k :
  mapM f l = Ok k <-> Forall2 (λ x y, f x = Ok y) l k.
Proof.
  revert k. induction l as [|x l IH]; intros k; simpl.
  - split; [intros [= <-]; constructor | intros Hk; inversion Hk; reflexivity].
  - split.
    + intros Hm. apply bind_Ok in Hm as (y & Hy & Hm).
      apply bind_Ok in Hm as (k' & Hk' & [= <-]).
      constructor; [exact Hy | apply IH, Hk'].
    + intros Hk. inversion Hk as [|? y ? k' Hy Hk']; subst.
      apply IH in Hk'. rewrite Hy; simpl. rewrite Hk'. reflexivity.
Qed.

Lemma subscript_Ok `{Lookup K V M} (d : M) (k : K) v :
  subscript d k = Ok v <-> d !! k = Some v.
Proof.
  unfold subscript. destruct (d !! k); split; intros Hv; congruence.
Qed.

(** ** Insertion-ordered dictionaries *)

Section pydict.
Context {K V : Type} `{EqDecision K}.
Implicit Types (d : list (K * V)) (k : K) (v : V).

Lemma get_Some_elem k v d : PyDict.get k d = Some v -> (k, v) ∈ d.
Proof.
  induction d as [|[k' v'] d IH]; simpl; [intros [=]|].
  destruct (decide (k' = k)) as [->|].
  - intros [= ->]. left.
  - intros Hg. right. apply IH, Hg.
Qed.

Lemma elem_get k v d : NoDup (PyDict.keys d) -> (k, v) ∈ d -> PyDict.get k d = Some v.
Proof.
  unfold PyDict.keys. induction d as [|[k' v'] d IH]; simpl.
  - intros _ Hin. inversion Hin.
  - intros Hnd Hin. apply NoDup_cons in Hnd as [Hk' Hnd].
    destruct (decide (k' = k)) as [->|Hne].
    + apply elem_of_cons in Hin as [[= ->]|Hin]; [reflexivity|].
      exfalso. apply Hk'. apply list_elem_of_fmap. exists (k, v). auto.
    + apply elem_of_cons in Hin as [[= -> ->]|Hin]; [congruence|].
      apply IH; assumption.
Qed.

Lemma get_is_Some k d : is_Some (PyDict.get k d) <-> k ∈ PyDict.keys d.
Proof.
  unfold PyDict.keys. induction d as [|[k' v'] d IH]; simpl.
  - split; [intros [? [=]] | intros Hk; inversion Hk].
  - destruct (decide (k' = k)) as [->|Hne].
    + split; [intros _; left | intros _; eexists; reflexivity].
    + rewrite IH. split; [intros Hk; right; exact Hk|].
      intros Hk. inversion Hk; subst; [congruence | assumption].
Qed.

Lemma get_None k d : PyDict.get k d = None <-> k ∉ PyDict.keys d.
Proof.
  rewrite <- get_is_Some. destruct (PyDict.get k d); split; intros Hk.
  - discriminate.
  - exfalso. apply Hk. eexists; reflexivity.
  - intros [? [=]].
  - reflexivity.
Qed.

Lemma get_app_l k d1 d2 :
  k ∈ PyDict.keys d1 -> PyDict.get k (d1 ++ d2) = PyDict.get k d1.
Proof.
  unfold PyDict.keys. induction d1 as [|[k' v'] d1 IH]; simpl; intros Hk.
  - inversion Hk.
  - destruct (decide (k' = k)); [reflexivity|].
    apply IH. inversion Hk; subst; [congruence | assumption].
Qed.

Lemma get_app_r k d1 d2 :
  k ∉ PyDict.keys d1 -> PyDict.get k (d1 ++ d2) = PyDict.get k d2.
Proof.
  unfold PyDict.keys. induction d1 as [|[k' v'] d1 IH]; simpl; intros Hk.
  - reflexivity.
  - destruct (decide (k' = k)) as [->|].
    + exfalso. apply Hk. left.
    + apply IH. intros Hin. apply Hk. right. exact Hin.
Qed.

Lemma get_set_eq k v d : PyDict.get k (PyDict.set k v d) = Some v.
Proof.
  induction d as [|[k' v'] d IH]; simpl.
  - rewrite decide_True; reflexivity.
  - destruct (decide (k' = k)) as [->|Hne]; simpl.
    + rewrite decide_True; reflexivity.
    + rewrite decide_False; [exact IH | exact Hne].
Qed.

Lemma get_set_ne k k' v d :
  k ≠ k' -> PyDict.get k' (PyDict.set k v d) = PyDict.get k' d.
Proof.
  intros Hne. induction d as [|[k0 v0] d IH]; simpl.
  - rewrite decide_False; [reflexivity | exact Hne].
  - destruct (decide (k0 = k)) as [->|Hne0]; simpl.
    + rewrite !decide_False; [reflexivity | exact Hne | exact Hne].
    + destruct (decide (k0 = k')); [reflexivity | exact IH].
Qed.

Lemma keys_set_in k v d :
  k ∈ PyDict.keys d -> PyDict.keys (PyDict.set k v d) = PyDict.keys d.
Proof.
  unfold PyDict.keys. induction d as [|[k' v'] d IH]; simpl; intros Hk.
  - inversion Hk.
  - destruct (decide (k' = k)) as [->|Hne]; simpl; [reflexivity|].
    f_equal. apply IH. inversion Hk; subst; [congruence | assumption].
Qed.

Lemma set_id k v d : PyDict.get k d = Some v -> PyDict.set k v d = d.
Proof.
  induction d as [|[k' v'] d IH]; simpl; [intros [=]|].
  destruct (decide (k' = k)) as [->|Hne].
  - intros [= ->]. reflexivity.
  - intros Hg. f_equal. apply IH, Hg.
Qed.

Lemma set_set k v w d : PyDict.set k w (PyDict.set k v d) = PyDict.set k w d.
Proof.
  induction d as [|[k' v'] d IH]; simpl.
  - rewrite decide_True; reflexivity.
  - destruct (decide (k' = k)) as [->|Hne]; simpl.
    + rewrite decide_True; reflexivity.
    + rewrite decide_False; [f_equal; exact IH | exact Hne].
Qed.

Lemma set_comm k1 k2 v1 v2 d :
  k1 ≠ k2 -> k1 ∈ PyDict.keys d ->
  PyDict.set k1 v1 (PyDict.set k2 v2 d) = PyDict.set k2 v2 (PyDict.set k1 v1 d).
Proof.
  unfold PyDict.keys. intros Hne.
  induction d as [|[k' v'] d IH]; simpl; intros Hk.
  - inversion Hk.
  - destruct (decide (k' = k2)) as [E2|Hne2], (decide (k' = k1)) as [E1|Hne1];
      simpl; repeat case_decide; try congruence.
    f_equal. apply IH. inversion Hk; subst; [congruence | assumption].
Qed.
End pydict.

(** ** NodeLookup *)

Section lookup.
Context {geom : Type} `{Countable geom}.
Implicit Types (g : Graph geom) (n t : pyval geom) (key : string).

Lemma key_of_Some g key n x :
  key_of g key n = Some x <->
  exists a, node_attrs g n = Ok a /\ a !! key = Some x.
Proof.
  unfold key_of. destruct (node_attrs g n) as [a|e]; split.
  - intros Ha. exists a. split; [reflexivity | exact Ha].
  - intros (a' & [= <-] & Ha). exact Ha.
  - intros [=].
  - intros (a' & [=] & _).
Qed.

(** One step of the scan, in terms of [key_of]. *)
Lemma scan_cons_hit g key t n ns :
  key_of g key n = Some t -> scan_nodes t g key (n :: ns) = Ok n.
Proof.
  intros (a & Ha & Hk)%key_of_Some. simpl. rewrite Ha; simpl.
  unfold subscript. rewrite Hk; simpl. rewrite decide_True; reflexivity.
Qed.

Lemma scan_cons_miss g key t n x ns :
  key_of g key n = Some x -> x ≠ t ->
  scan_nodes t g key (n :: ns) = scan_nodes t g key ns.
Proof.
  intros (a & Ha & Hk)%key_of_Some Hne. simpl. rewrite Ha; simpl.
  unfold subscript. rewrite Hk; simpl. rewrite decide_False; [reflexivity | exact Hne].
Qed.

Lemma scan_cons_bare g key t n ns :
  key_of g key n = None -> scan_nodes t g key (n :: ns) = Err KeyError.
Proof.
  unfold key_of. simpl. unfold node_attrs.
  destruct (PyDict.get n (_node g)) as [a|]; simpl; [|reflexivity].
  intros Hk. unfold subscript. rewrite Hk. reflexivity.
Qed.

(** On keyed nodes the scan returns the first match, or the sentinel. *)
Lemma scan_keyed g key t ns :
  Forall (λ n, is_Some (key_of g key n)) ns ->
  scan_nodes t g key ns
  = Ok (hd NotFound (filter (λ n, key_of g key n = Some t) ns)).
Proof.
  induction 1 as [|n ns [x Hx] _ IH]; [reflexivity|].
  rewrite filter_cons. destruct (decide (x = t)) as [->|Hne].
  - rewrite decide_True by exact Hx. apply scan_cons_hit, Hx.
  - rewrite decide_False by congruence.
    rewrite (scan_cons_miss _ _ _ _ x) by assumption. exact IH.
Qed.

Lemma scan_first g key t pre n post rest :
  Forall (λ m, is_Some (key_of g key m)) pre ->
  filter (λ m, key_of g key m = Some t) (pre ++ n :: post) = n :: rest ->
  scan_nodes t g key (pre ++ n :: post) = Ok n.
Proof.
  intros Hk. induction Hk as [|m pre [x Hx] _ IH]; simpl app.
  - rewrite filter_cons. case_decide as Hn; [intros _; apply scan_cons_hit, Hn|].
    intros Hf. exfalso. apply Hn.
    assert (n ∈ filter (λ m, key_of g key m = Some t) post) as Hin
      by (rewrite Hf; left).
    apply list_elem_of_filter in Hin as [Hin _]. exact Hin.
  - rewrite filter_cons. case_decide as Hm.
    + intros [= -> _]. apply scan_cons_hit, Hm.
    + intros Hf. rewrite (scan_cons_miss _ _ _ _ x); [apply IH, Hf | exact Hx |].
      intros ->. apply Hm, Hx.
Qed.

Lemma find_first_match g key t pre n post rest :
  nodes g = pre ++ n :: post ->
  Forall (λ m, is_Some (key_of g key m)) pre ->
  matching g key t = n :: rest ->
  find_node_by_key t g key = Ok n.
Proof.
  unfold matching, find_node_by_key. intros ->. apply scan_first.
Qed.

Lemma find_keyed g key t :
  keyed g key ->
  find_node_by_key t g key = Ok (hd NotFound (matching g key t)).
Proof. apply scan_keyed. Qed.

(** The scan raises at the first node without the key attribute, unless a
    match comes before it. *)
Lemma find_bare_node g key t pre n post :
  nodes g = pre ++ n :: post ->
  Forall (λ m, is_Some (key_of g key m)) pre ->
  Forall (λ m, key_of g key m ≠ Some t) pre ->
  key_of g key n = None ->
  find_node_by_key t g key = Err KeyError.
Proof.
  unfold find_node_by_key. intros -> Hk Hm Hn.
  induction Hk as [|m pre [x Hx] _ IH]; simpl app.
  - apply scan_cons_bare, Hn.
  - inversion Hm as [|? ? Hm1 Hm2]; subst.
    rewrite (scan_cons_miss _ _ _ _ x); [apply IH, Hm2 | exact Hx |].
    intros ->. apply Hm1, Hx.
Qed.

Lemma matching_elem g key t n :
  n ∈ matching g key t <-> n ∈ nodes g /\ key_of g key n = Some t.
Proof. unfold matching. rewrite list_elem_of_filter. tauto. Qed.
End lookup.

Section lookup_claims.
Context {geom : Type} `{Countable geom}.
Implicit Types (g : Graph geom) (n t : pyval geom) (key : string).

(** C5, as amended.  [find_node_by_key] returns the single node whose key
    attribute equals the target when every node that precedes it in
    iteration order carries the key attribute, and it returns the sentinel
    [-1] without raising when every node carries the key attribute
    and none of them has the target value. *)
Theorem find_node_by_key_unique_or_absent g key t :
  (forall pre n post,
      nodes g = pre ++ n :: post ->
      Forall (λ m, is_Some (key_of g key m)) pre ->
      matching g key t = [n] ->
      find_node_by_key t g key = Ok n)
  /\ (keyed g key ->
      matching g key t = [] ->
      find_node_by_key t g key = Ok NotFound).
Proof.
  split.
  - intros pre n post Hn Hpre Hm. eapply find_first_match; eassumption.
  - intros Hk Hm. rewrite find_keyed by exact Hk. rewrite Hm. reflexivity.
Qed.

(** C10, as amended.  When two or more nodes carry the target value,
    [find_node_by_key] returns the first of them in iteration order,
    provided every node that precedes it carries the key attribute. *)
Theorem find_node_by_key_first_of_many g key t pre n post m rest :
  nodes g = pre ++ n :: post ->
  Forall (λ x, is_Some (key_of g key x)) pre ->
  matching g key t = n :: m :: rest ->
  find_node_by_key t g key = Ok n.
Proof.
  unfold matching, find_node_by_key. intros -> Hpre.
  induction Hpre as [|x pre [kx Hx] _ IH]; simpl app; rewrite filter_cons.
  - (* [n] heads the nodes: it is the first match, or no match at all *)
    case_decide as Hn; [intros _; apply scan_cons_hit, Hn|].
    intros Hf. exfalso. apply Hn.
    assert (n ∈ filter (λ y, key_of g key y = Some t) post) as Hin
      by (rewrite Hf; left).
    apply list_elem_of_filter in Hin as [Hin _]. exact Hin.
  - (* a keyed node [x] comes first: a match is [n] itself, a miss is skipped *)
    case_decide as Hm.
    + intros [= -> _]. apply scan_cons_hit, Hm.
    + intros Hf. rewrite (scan_cons_miss _ _ _ _ kx); [apply IH, Hf | exact Hx |].
      intros ->. apply Hm, Hx.
Qed.
End lookup_claims.

(** Counterexample to C5 as stated: in the graph left by an [add_edge_by_feature] whose
    first key was unknown, no node carries "zz", and the lookup of "zz"
    raises [KeyError] at the attribute-less node [-1] instead of returning
    the sentinel. *)
Lemma find_node_by_key_absent_raises :
  add_edge_by_feature path_graph (str "nope") (str "1") "GEOID10" = Ok orphaned
  /\ matching orphaned "GEOID10" (str "zz") = []
  /\ find_node_by_key (str "zz") orphaned "GEOID10" = Err KeyError.
Proof. repeat split; vm_compute; reflexivity. Qed.

Lemma path_graph_keyed : keyed path_graph "GEOID10".
Proof. repeat constructor; eexists; vm_compute; reflexivity. Defined.

Lemma find_node_by_key_unique_or_absent_witness :
  find_node_by_key (str "2") path_graph "GEOID10" = Ok (int 1)
  /\ find_node_by_key (str "zz") path_graph "GEOID10" = Ok NotFound.
Proof.
  split.
  - apply (proj1 (find_node_by_key_unique_or_absent path_graph "GEOID10" (str "2"))
             [int 0] (int 1) [int 2]).
    + reflexivity.
    + repeat constructor; eexists; vm_compute; reflexivity.
    + reflexivity.
  - apply (proj2 (find_node_by_key_unique_or_absent path_graph "GEOID10" (str "zz"))).
    + exact path_graph_keyed.
    + reflexivity.
Defined.

(** Counterexample to C10 as stated: nodes 1 and 2 both carry "a", and the lookup raises
    [KeyError] at node 0, which has no key attribute, before reaching them. *)
Lemma find_node_by_key_duplicates_raises :
  nodes bare_first = [int 0; int 1; int 2]
  /\ matching bare_first "GEOID10" (str "a") = [int 1; int 2]
  /\ find_node_by_key (str "a") bare_first "GEOID10" = Err KeyError.
Proof. repeat split; vm_compute; reflexivity. Qed.

Lemma find_node_by_key_first_of_many_witness :
  find_node_by_key (str "a") twins "GEOID10" = Ok (int 1).
Proof.
  apply (find_node_by_key_first_of_many twins "GEOID10" (str "a")
           [int 0] (int 1) [int 2] (int 2) []).
  - reflexivity.
  - repeat constructor; eexists; vm_compute; reflexivity.
  - reflexivity.
Defined.

(** ** networkx.Graph: adding and removing an edge *)

Section graph_edit.
Context {geom : Type} `{Countable geom}.
Implicit Types (g : Graph geom) (u v n : pyval geom) (key : string).
Implicit Types (adj : list (pyval geom * list (pyval geom))).

Lemma nodes_add_node_if_missing n g : n ∈ nodes (add_node_if_missing n g).
Proof.
  unfold add_node_if_missing. case_decide as Hn; [exact Hn|].
  unfold nodes, PyDict.keys; simpl. rewrite fmap_app.
  apply elem_of_app. right. left.
Qed.

Lemma nodes_add_node_if_missing_mono n m g :
  m ∈ nodes g -> m ∈ nodes (add_node_if_missing n g).
Proof.
  unfold add_node_if_missing. case_decide; [tauto|].
  unfold nodes, PyDict.keys; simpl. rewrite fmap_app.
  intros Hm. apply elem_of_app. left. exact Hm.
Qed.

Lemma add_node_if_missing_id n g : n ∈ nodes g -> add_node_if_missing n g = g.
Proof. unfold add_node_if_missing. intros Hn. rewrite decide_True; done. Qed.

Lemma nodes_add_edge u v g :
  u ∈ nodes (add_edge u v g) /\ v ∈ nodes (add_edge u v g).
Proof.
  unfold add_edge, nodes; simpl. split.
  - apply nodes_add_node_if_missing_mono, nodes_add_node_if_missing.
  - apply nodes_add_node_if_missing.
Qed.

Lemma add_edge_known_nodes u v g :
  u ∈ nodes g -> v ∈ nodes g -> _node (add_edge u v g) = _node g.
Proof.
  intros Hu Hv. unfold add_edge; simpl.
  rewrite (add_node_if_missing_id u) by exact Hu.
  rewrite (add_node_if_missing_id v) by exact Hv. reflexivity.
Qed.

Lemma get_adj_insert_eq u v adj :
  exists nb, PyDict.get u (adj_insert u v adj) = Some nb /\ v ∈ nb.
Proof.
  unfold adj_insert. rewrite get_set_eq. eexists. split; [reflexivity|].
  case_decide as Hv; [exact Hv|]. apply elem_of_app. right. left.
Qed.

Lemma get_adj_insert_keeps u v n x adj nb :
  PyDict.get n adj = Some nb -> x ∈ nb ->
  exists nb', PyDict.get n (adj_insert u v adj) = Some nb' /\ x ∈ nb'.
Proof.
  intros Hn Hx. unfold adj_insert. destruct (decide (u = n)) as [->|Hne].
  - rewrite get_set_eq, Hn; simpl. eexists. split; [reflexivity|].
    case_decide; [exact Hx|]. apply elem_of_app. left. exact Hx.
  - rewrite get_set_ne by exact Hne. exists nb. split; assumption.
Qed.

Lemma has_edge_add_edge u v g : has_edge (add_edge u v g) u v = true.
Proof.
  unfold has_edge, neighbors, add_edge; simpl. apply bool_decide_eq_true.
  destruct (get_adj_insert_eq u v
              (_adj (add_node_if_missing v (add_node_if_missing u g))))
    as (nb & Hnb & Hv).
  destruct (get_adj_insert_keeps v u u v _ nb Hnb Hv) as (nb' & Hnb' & Hv').
  rewrite Hnb'. exact Hv'.
Qed.

Lemma remove_edge_no_edge u v g :
  has_edge g u v = false -> remove_edge u v g = Err NetworkXError.
Proof.
  unfold has_edge, neighbors, remove_edge, adj_delete.
  intros Hv%bool_decide_eq_false.
  destruct (PyDict.get u (_adj g)) as [nb|]; simpl in *; [|reflexivity].
  rewrite decide_False by exact Hv. reflexivity.
Qed.

Lemma filter_ne_app_fresh v (nb : list (pyval geom)) :
  v ∉ nb -> filter (λ x, x ≠ v) (nb ++ [v]) = nb.
Proof.
  intros Hv. rewrite filter_app, filter_cons, decide_False by tauto.
  rewrite filter_nil, app_nil_r.
  induction nb as [|x nb IH]; [reflexivity|].
  rewrite filter_cons, decide_True.
  - f_equal. apply IH. intros Hin. apply Hv. right. exact Hin.
  - intros ->. apply Hv. left.
Qed.

(** Inserting an edge between two known nodes that are not neighbours
    and deleting it again restores the adjacency dictionaries. *)
Lemma adj_insert_delete u v adj nbu nbv :
  u ≠ v ->
  PyDict.get u adj = Some nbu -> PyDict.get v adj = Some nbv ->
  v ∉ nbu -> u ∉ nbv ->
  exists adj1,
    adj_delete u v (adj_insert v u (adj_insert u v adj)) = Some adj1
    /\ adj_delete v u adj1 = Some adj.
Proof.
  intros Hne Hu Hv Hvu Huv.
  assert (u ∈ PyDict.keys adj) as Hku by (apply get_is_Some; eauto).
  assert (v ∈ PyDict.keys adj) as Hkv by (apply get_is_Some; eauto).
  assert (adj_insert u v adj = PyDict.set u (nbu ++ [v]) adj) as ->.
  { unfold adj_insert. rewrite Hu; simpl.
    rewrite decide_False by exact Hvu. reflexivity. }
  assert (adj_insert v u (PyDict.set u (nbu ++ [v]) adj)
          = PyDict.set v (nbv ++ [u]) (PyDict.set u (nbu ++ [v]) adj)) as ->.
  { unfold adj_insert. rewrite (get_set_ne u v) by exact Hne.
    rewrite Hv; simpl. rewrite decide_False by exact Huv. reflexivity. }
  unfold adj_delete at 1.
  rewrite (get_set_ne v u) by congruence. rewrite get_set_eq.
  rewrite decide_True by (apply elem_of_app; right; left).
  eexists. split; [reflexivity|].
  rewrite filter_ne_app_fresh by exact Hvu.
  unfold adj_delete.
  rewrite (get_set_ne u v) by exact Hne. rewrite get_set_eq.
  rewrite decide_True by (apply elem_of_app; right; left).
  rewrite filter_ne_app_fresh by exact Huv. f_equal.
  rewrite (set_comm u v) by (try exact Hne; rewrite keys_set_in; assumption).
  rewrite !set_set.
  rewrite (set_id u) by exact Hu. apply set_id, Hv.
Qed.

Lemma wf_graph_get_adj g n :
  wf_graph g -> n ∈ nodes g -> exists nb, PyDict.get n (_adj g) = Some nb.
Proof.
  intros (_ & Hk & _) Hn. rewrite <- Hk in Hn.
  apply get_is_Some in Hn as [nb Hnb]. eauto.
Qed.

Lemma wf_graph_sym g u v :
  wf_graph g -> v ∈ neighbors g u -> u ∈ neighbors g v.
Proof.
  intros (_ & _ & Hs). unfold neighbors at 1.
  destruct (PyDict.get u (_adj g)) as [nb|] eqn:Hu; simpl; [|inversion 1].
  intros Hv. apply get_Some_elem in Hu.
  eapply Forall_forall in Hs; [|exact Hu]. destruct Hs as [_ Hs].
  eapply Forall_forall in Hs; [|exact Hv]. exact Hs.
Qed.

Lemma remove_add_edge u v g :
  wf_graph g -> u ∈ nodes g -> v ∈ nodes g -> u ≠ v ->
  has_edge g u v = false ->
  remove_edge u v (add_edge u v g) = Ok g.
Proof.
  intros Hwf Hu Hv Hne Hno%bool_decide_eq_false.
  destruct (wf_graph_get_adj g u Hwf Hu) as [nbu Hnbu].
  destruct (wf_graph_get_adj g v Hwf Hv) as [nbv Hnbv].
  assert (v ∉ nbu) as Hvu.
  { revert Hno. unfold neighbors. rewrite Hnbu. tauto. }
  assert (u ∉ nbv) as Huv.
  { intros Hin. apply Hno. apply (wf_graph_sym g v u Hwf).
    unfold neighbors. rewrite Hnbv. exact Hin. }
  unfold remove_edge, add_edge; simpl.
  rewrite (add_node_if_missing_id u) by exact Hu.
  rewrite (add_node_if_missing_id v) by exact Hv.
  destruct (adj_insert_delete u v (_adj g) nbu nbv Hne Hnbu Hnbv Hvu Huv)
    as (adj1 & H1 & H2).
  rewrite H1. rewrite decide_False by exact Hne. rewrite H2.
  destruct g; reflexivity.
Qed.

(** The lookup reads [_node] only. *)
Lemma find_node_by_key_node g g' t key :
  _node g' = _node g -> find_node_by_key t g' key = find_node_by_key t g key.
Proof.
  intros Hn. unfold find_node_by_key, nodes. rewrite Hn.
  assert (forall n, node_attrs g' n = node_attrs g n) as Ha.
  { intros n. unfold node_attrs. rewrite Hn. reflexivity. }
  induction (PyDict.keys (_node g)) as [|n ns IH]; [reflexivity|].
  simpl. rewrite Ha, IH. reflexivity.
Qed.
End graph_edit.

(** ** The invariant of networkx.Graph is kept by both operations *)

Section graph_invariant.
Context {geom : Type} `{Countable geom}.
Implicit Types (g : Graph geom) (u v x y n : pyval geom).
Implicit Types (adj : list (pyval geom * list (pyval geom))).

Lemma wf_graph_alt g :
  wf_graph g <->
  NoDup (nodes g)
  /\ PyDict.keys (_adj g) = nodes g
  /\ (forall x, NoDup (neighbors g x))
  /\ (forall x y, y ∈ neighbors g x -> x ∈ neighbors g y).
Proof.
  unfold wf_graph. split.
  - intros (Hnd & Hk & Hs). split; [exact Hnd|]. split; [exact Hk|]. split.
    + intros x. unfold neighbors.
      destruct (PyDict.get x (_adj g)) as [nb|] eqn:Hx; simpl; [|constructor].
      apply get_Some_elem in Hx. eapply Forall_forall in Hs; [|exact Hx].
      apply Hs.
    + intros x y. unfold neighbors at 1.
      destruct (PyDict.get x (_adj g)) as [nb|] eqn:Hx; simpl; [|inversion 1].
      intros Hy. apply get_Some_elem in Hx. eapply Forall_forall in Hs; [|exact Hx].
      destruct Hs as [_ Hs]. eapply Forall_forall in Hs; [|exact Hy]. exact Hs.
  - intros (Hnd & Hk & Hn & Hs). split; [exact Hnd|]. split; [exact Hk|].
    apply Forall_forall. intros [x nb] Hin; simpl.
    assert (neighbors g x = nb) as <-.
    { unfold neighbors. rewrite (elem_get x nb); [reflexivity| |exact Hin].
      rewrite Hk. exact Hnd. }
    split; [apply Hn|]. apply Forall_forall. intros y Hy. apply Hs, Hy.
Qed.

Lemma neighbors_nodes g x y : wf_graph g -> y ∈ neighbors g x -> x ∈ nodes g.
Proof.
  intros (_ & Hk & _). unfold neighbors. rewrite <- Hk.
  destruct (PyDict.get x (_adj g)) as [nb|] eqn:Hx; simpl; [|inversion 1].
  intros _. apply get_is_Some. eauto.
Qed.

Lemma neighbors_add_node_if_missing n g x :
  wf_graph g -> neighbors (add_node_if_missing n g) x = neighbors g x.
Proof.
  intros (_ & Hk & _). unfold add_node_if_missing. case_decide as Hn; [reflexivity|].
  unfold neighbors; simpl. destruct (decide (x ∈ PyDict.keys (_adj g))) as [Hx|Hx].
  - rewrite get_app_l by exact Hx. reflexivity.
  - rewrite get_app_r by exact Hx. apply get_None in Hx. rewrite Hx. simpl.
    case_decide; reflexivity.
Qed.

Lemma wf_graph_add_node_if_missing n g :
  wf_graph g -> wf_graph (add_node_if_missing n g).
Proof.
  intros Hwf. apply wf_graph_alt.
  pose proof (neighbors_add_node_if_missing n g) as Hnb.
  apply wf_graph_alt in Hwf as Halt. destruct Halt as (Hnd & Hk & Hn & Hs).
  split; [|split; [|split]].
  - unfold add_node_if_missing. case_decide as Hin; [exact Hnd|].
    unfold nodes, PyDict.keys in *; simpl. rewrite fmap_app. simpl.
    apply NoDup_app. split; [exact Hnd|]. split; [|apply NoDup_singleton].
    intros y Hy Hy'. apply list_elem_of_singleton in Hy' as ->. tauto.
  - unfold add_node_if_missing. case_decide; [exact Hk|].
    unfold nodes, PyDict.keys in *; simpl. rewrite !fmap_app, Hk. reflexivity.
  - intros x. rewrite Hnb by exact Hwf. apply Hn.
  - intros x y. rewrite !Hnb by exact Hwf. apply Hs.
Qed.

(** The neighbours after one insertion into a present adjacency entry. *)
Lemma get_adj_insert u v adj x :
  default [] (PyDict.get x (adj_insert u v adj))
  = if decide (u = x)
    then (if decide (v ∈ default [] (PyDict.get u adj))
          then default [] (PyDict.get u adj)
          else default [] (PyDict.get u adj) ++ [v])
    else default [] (PyDict.get x adj).
Proof.
  unfold adj_insert. destruct (decide (u = x)) as [->|Hne].
  - rewrite get_set_eq. reflexivity.
  - rewrite get_set_ne by exact Hne. reflexivity.
Qed.

Lemma elem_adj_insert u v adj x y :
  y ∈ default [] (PyDict.get x (adj_insert u v adj))
  <-> y ∈ default [] (PyDict.get x adj) \/ (x = u /\ y = v).
Proof.
  rewrite get_adj_insert. destruct (decide (u = x)) as [->|Hne].
  - case_decide as Hv.
    + split; [auto|]. intros [Hy|[_ ->]]; assumption.
    + rewrite elem_of_app, list_elem_of_singleton. tauto.
  - split; [auto|]. intros [Hy|[-> _]]; [assumption | congruence].
Qed.

Lemma NoDup_adj_insert u v adj x :
  NoDup (default [] (PyDict.get x adj)) ->
  NoDup (default [] (PyDict.get u adj)) ->
  NoDup (default [] (PyDict.get x (adj_insert u v adj))).
Proof.
  intros Hx Hu. rewrite get_adj_insert. destruct (decide (u = x)); [|exact Hx].
  case_decide as Hv; [exact Hu|].
  apply NoDup_app. split; [exact Hu|]. split; [|apply NoDup_singleton].
  intros y Hy Hy'. apply list_elem_of_singleton in Hy' as ->. tauto.
Qed.

Lemma elem_neighbors_add_edge u v g x y :
  wf_graph g ->
  y ∈ neighbors (add_edge u v g) x
  <-> y ∈ neighbors g x \/ (x = u /\ y = v) \/ (x = v /\ y = u).
Proof.
  intros Hwf. unfold add_edge, neighbors at 1; simpl.
  rewrite !elem_adj_insert.
  fold (neighbors (add_node_if_missing v (add_node_if_missing u g)) x).
  rewrite !neighbors_add_node_if_missing
    by (try apply wf_graph_add_node_if_missing; exact Hwf).
  tauto.
Qed.

(** [add_edge] keeps the invariant. *)
Lemma wf_graph_add_edge u v g : wf_graph g -> wf_graph (add_edge u v g).
Proof.
  intros Hwf. apply wf_graph_alt.
  set (g2 := add_node_if_missing v (add_node_if_missing u g)).
  assert (wf_graph g2) as Hwf2 by (do 2 apply wf_graph_add_node_if_missing; exact Hwf).
  assert (u ∈ nodes g2 /\ v ∈ nodes g2) as [Hu Hv].
  { split; [apply nodes_add_node_if_missing_mono|]; apply nodes_add_node_if_missing. }
  apply wf_graph_alt in Hwf2 as Halt. destruct Halt as (Hnd & Hk & Hn & Hs).
  split; [exact Hnd|]. split; [|split].
  - unfold add_edge; simpl. fold g2. unfold adj_insert at 1.
    rewrite keys_set_in.
    + unfold adj_insert. rewrite keys_set_in; [exact Hk | rewrite Hk; exact Hu].
    + unfold adj_insert. rewrite keys_set_in; rewrite Hk; assumption.
  - intros x. unfold neighbors, add_edge; simpl. fold g2.
    apply NoDup_adj_insert; apply NoDup_adj_insert; apply Hn.
  - intros x y. rewrite !elem_neighbors_add_edge by exact Hwf.
    apply wf_graph_alt in Hwf as (_ & _ & _ & Hs0).
    intros [Hy|[[-> ->]|[-> ->]]]; auto.
Qed.

Lemma adj_delete_Some u v adj adj' x :
  adj_delete u v adj = Some adj' ->
  v ∈ default [] (PyDict.get u adj)
  /\ PyDict.keys adj' = PyDict.keys adj
  /\ default [] (PyDict.get x adj')
     = if decide (u = x) then filter (λ y, y ≠ v) (default [] (PyDict.get u adj))
       else default [] (PyDict.get x adj).
Proof.
  unfold adj_delete. destruct (PyDict.get u adj) as [nb|] eqn:Hu; [|intros [=]].
  case_decide as Hv; intros [= <-]. simpl. split; [exact Hv|]. split.
  - apply keys_set_in, get_is_Some. eauto.
  - destruct (decide (u = x)) as [->|Hne].
    + rewrite get_set_eq. reflexivity.
    + rewrite get_set_ne by exact Hne. reflexivity.
Qed.

(** [remove_edge] keeps the invariant, and takes away the one edge. *)
Lemma wf_graph_remove_edge u v g g' :
  wf_graph g -> remove_edge u v g = Ok g' ->
  wf_graph g'
  /\ forall x y, y ∈ neighbors g' x
                 <-> y ∈ neighbors g x /\ ~ (x = u /\ y = v) /\ ~ (x = v /\ y = u).
Proof.
  intros Hwf Hr. apply wf_graph_alt in Hwf as Halt.
  destruct Halt as (Hnd & Hk & Hn & Hs).
  assert (forall x y, y ∈ neighbors g' x
                      <-> y ∈ neighbors g x /\ ~ (x = u /\ y = v) /\ ~ (x = v /\ y = u))
    as Hnb.
  { intros x y. revert Hr. unfold remove_edge.
    destruct (adj_delete u v (_adj g)) as [adj1|] eqn:H1; [|intros [=]].
    pose proof (adj_delete_Some _ _ _ _ x H1) as (Hv & _ & Hx1).
    destruct (decide (u = v)) as [->|Hne].
    - intros [= <-]. unfold neighbors; simpl. rewrite Hx1.
      destruct (decide (v = x)) as [->|Hvx].
      + rewrite list_elem_of_filter. split; [intros [? ?]|intros (? & ? & ?)];
          repeat split; try tauto; intros [_ ->]; tauto.
      + split; [intros ?|tauto]. repeat split; try assumption; intros [-> _]; tauto.
    - destruct (adj_delete v u adj1) as [adj2|] eqn:H2; [|intros [=]].
      pose proof (adj_delete_Some _ _ _ _ x H2) as (_ & _ & Hx2).
      pose proof (adj_delete_Some _ _ _ _ v H1) as (_ & _ & Hv1).
      rewrite decide_False in Hv1 by exact Hne.
      intros [= <-]. unfold neighbors; simpl. rewrite Hx2.
      destruct (decide (v = x)) as [->|Hvx].
      + rewrite Hv1, list_elem_of_filter.
        split; [intros [? ?]|intros (? & ? & ?)]; repeat split; try tauto;
          intros [? ?]; congruence.
      + rewrite Hx1. destruct (decide (u = x)) as [->|Hux].
        * rewrite list_elem_of_filter.
          split; [intros [? ?]|intros (? & ? & ?)]; repeat split; try tauto;
            intros [? ?]; congruence.
        * split; [intros ?|tauto]. repeat split; try assumption;
            intros [? ?]; congruence. }
  split; [|exact Hnb]. apply wf_graph_alt.
  assert (_node g' = _node g /\ PyDict.keys (_adj g') = PyDict.keys (_adj g))
    as [Hnode Hkeys].
  { revert Hr. unfold remove_edge.
    destruct (adj_delete u v (_adj g)) as [adj1|] eqn:H1; [|intros [=]].
    pose proof (adj_delete_Some _ _ _ _ u H1) as (_ & Hk1 & _).
    destruct (decide (u = v)); [intros [= <-]; auto|].
    destruct (adj_delete v u adj1) as [adj2|] eqn:H2; [|intros [=]].
    pose proof (adj_delete_Some _ _ _ _ u H2) as (_ & Hk2 & _).
    intros [= <-]. simpl. split; [reflexivity | congruence]. }
  unfold nodes. rewrite Hnode, Hkeys. split; [exact Hnd|]. split; [exact Hk|]. split.
  - intros x. revert Hr. unfold remove_edge.
    destruct (adj_delete u v (_adj g)) as [adj1|] eqn:H1; [|intros [=]].
    pose proof (adj_delete_Some _ _ _ _ x H1) as (_ & _ & Hx1).
    assert (NoDup (default [] (PyDict.get x adj1))) as Hnd1.
    { rewrite Hx1. destruct (decide (u = x)); [apply NoDup_filter|]; apply Hn. }
    destruct (decide (u = v)); [intros [= <-]; exact Hnd1|].
    destruct (adj_delete v u adj1) as [adj2|] eqn:H2; [|intros [=]].
    pose proof (adj_delete_Some _ _ _ _ x H2) as (_ & _ & Hx2).
    pose proof (adj_delete_Some _ _ _ _ v H1) as (_ & _ & Hv1).
    intros [= <-]. unfold neighbors; simpl. rewrite Hx2.
    destruct (decide (v = x)); [|exact Hnd1]. apply NoDup_filter.
    rewrite Hv1. destruct (decide (u = v)); [apply NoDup_filter|]; apply Hn.
  - intros x y. rewrite !Hnb. intros (Hy & H1 & H2).
    split; [apply Hs, Hy|]. split; intros [-> ->]; tauto.
Qed.

(** On a graph that satisfies the invariant, [remove_edge] returns exactly
    when the edge is there. *)
Lemma remove_edge_has_edge u v g :
  wf_graph g -> has_edge g u v = true -> exists g', remove_edge u v g = Ok g'.
Proof.
  intros Hwf Hv%bool_decide_eq_true.
  pose proof (wf_graph_sym g u v Hwf Hv) as Hu.
  unfold remove_edge, adj_delete. revert Hv Hu. unfold neighbors.
  destruct (PyDict.get u (_adj g)) as [nbu|] eqn:Hgu; simpl; [|inversion 1].
  intros Hv Hu. rewrite decide_True by exact Hv.
  destruct (decide (u = v)) as [->|Hne]; [eauto|].
  rewrite get_set_ne by exact Hne.
  destruct (PyDict.get v (_adj g)) as [nbv|]; simpl in *; [|inversion Hu].
  rewrite decide_True by exact Hu. eauto.
Qed.

(** Both endpoints of an edge are nodes. *)
Lemma edges_from_elem x y seen adj :
  (x, y) ∈ edges_from seen adj -> exists nb, (x, nb) ∈ adj /\ y ∈ nb.
Proof.
  revert seen. induction adj as [|[n nbrs] adj IH]; intros seen; simpl.
  - inversion 1.
  - rewrite elem_of_app. intros [Hin|Hin].
    + apply list_elem_of_fmap in Hin as (nbr & [= -> ->] & Hnbr).
      apply list_elem_of_filter in Hnbr as [_ Hnbr].
      exists nbrs. split; [left | exact Hnbr].
    + destruct (IH _ Hin) as (nb & Hnb & Hy). exists nb. split; [right|]; assumption.
Qed.

Lemma edges_nodes g x y :
  wf_graph g -> (x, y) ∈ edges g -> x ∈ nodes g /\ y ∈ nodes g.
Proof.
  intros Hwf Hin. apply edges_from_elem in Hin as (nb & Hnb & Hy).
  pose proof Hwf as (Hnd & Hk & _).
  assert (y ∈ neighbors g x) as Hyx.
  { unfold neighbors. rewrite (elem_get x nb); [exact Hy| |exact Hnb].
    rewrite Hk. exact Hnd. }
  split; [eapply neighbors_nodes; eassumption|].
  eapply neighbors_nodes; [exact Hwf|]. apply wf_graph_sym; eassumption.
Qed.
End graph_invariant.

(** ** EdgeFeatureEditor *)

Section editor_claims.
Context {geom : Type} `{Countable geom}.
Implicit Types (g : Graph geom) (u v : pyval geom) (key : string).

(** C2, as amended.  Whenever both lookups return (a node or the sentinel
    [-1]), [remove_edge_by_feature] raises [NetworkXError] if no edge joins
    the two values returned: this covers two resolved keys without an edge
    between their nodes, and an unknown key unless [-1] happens to be a
    neighbour of the other endpoint.  [add_edge_by_feature] does not raise
    in that situation: it returns the graph with an edge between the two
    values returned, both of which are then nodes, [-1] included. *)
Theorem edge_by_feature_errors g u_key v_key key u v :
  find_node_by_key u_key g key = Ok u ->
  find_node_by_key v_key g key = Ok v ->
  (has_edge g u v = false ->
   remove_edge_by_feature g u_key v_key key = Err NetworkXError)
  /\ (exists g', add_edge_by_feature g u_key v_key key = Ok g'
                 /\ has_edge g' u v = true
                 /\ u ∈ nodes g' /\ v ∈ nodes g').
Proof.
  intros Hu Hv. split.
  - intros Hno. unfold remove_edge_by_feature. rewrite Hu, Hv; simpl.
    apply remove_edge_no_edge, Hno.
  - exists (add_edge u v g). unfold add_edge_by_feature.
    rewrite Hu, Hv; simpl. split; [reflexivity|].
    split; [apply has_edge_add_edge | apply nodes_add_edge].
Qed.

(** C6.  On a graph that satisfies the invariant of [networkx.Graph], when
    the two distinct key values each resolve to exactly one node (the
    lookup returns it, and no other node carries the value) and these nodes
    are not joined by an edge, adding the edge by feature and then removing
    it by feature both return, and the graph left is the original one, with
    its original edges. *)
Theorem add_then_remove_edge_by_feature g u_key v_key key u v :
  wf_graph g ->
  u_key ≠ v_key ->
  find_node_by_key u_key g key = Ok u -> matching g key u_key = [u] ->
  find_node_by_key v_key g key = Ok v -> matching g key v_key = [v] ->
  has_edge g u v = false ->
  exists g1 g2,
    add_edge_by_feature g u_key v_key key = Ok g1
    /\ has_edge g1 u v = true
    /\ remove_edge_by_feature g1 u_key v_key key = Ok g2
    /\ edges g2 = edges g
    /\ g2 = g.
Proof.
  intros Hwf Hkeys Hfu Hmu Hfv Hmv Hno.
  assert (u ∈ matching g key u_key) as [Hu Hku]%matching_elem
    by (rewrite Hmu; left).
  assert (v ∈ matching g key v_key) as [Hv Hkv]%matching_elem
    by (rewrite Hmv; left).
  assert (u ≠ v) as Hne by (intros ->; congruence).
  exists (add_edge u v g), g.
  split; [unfold add_edge_by_feature; rewrite Hfu, Hfv; reflexivity|].
  split; [apply has_edge_add_edge|].
  split; [|split; reflexivity].
  unfold remove_edge_by_feature.
  rewrite !(find_node_by_key_node g (add_edge u v g))
    by (apply add_edge_known_nodes; assumption).
  rewrite Hfu, Hfv; simpl. apply remove_add_edge; assumption.
Qed.
End editor_claims.

(** Counterexample to C2 as stated.  No node of [path_graph] carries "nope", and
    [add_edge_by_feature] returns normally, with the new node [-1] joined to
    node 0.  In [minus_one], where [-1] is a node, [remove_edge_by_feature]
    with the unknown key "nope" returns normally too, having removed the
    edge of that node. *)
Lemma edge_by_feature_unknown_key_no_error :
  matching path_graph "GEOID10" (str "nope") = []
  /\ add_edge_by_feature path_graph (str "nope") (str "1") "GEOID10" = Ok orphaned
  /\ edges orphaned = [(int 0, int 1); (int 0, int (-1)); (int 1, int 2)]
  /\ matching minus_one "GEOID10" (str "nope") = []
  /\ exists g, remove_edge_by_feature minus_one (str "nope") (str "1") "GEOID10" = Ok g
               /\ edges g = [].
Proof.
  repeat split; try (vm_compute; reflexivity).
  eexists. split; vm_compute; reflexivity.
Qed.

Lemma edge_by_feature_errors_witness :
  remove_edge_by_feature path_graph (str "nope") (str "1") "GEOID10"
  = Err NetworkXError
  /\ (exists g', add_edge_by_feature path_graph (str "nope") (str "1") "GEOID10" = Ok g'
                 /\ has_edge g' (int (-1)) (int 0) = true
                 /\ int (-1) ∈ nodes g' /\ int 0 ∈ nodes g').
Proof.
  destruct (edge_by_feature_errors path_graph (str "nope") (str "1") "GEOID10"
              (int (-1)) (int 0)) as [Hr Ha].
  - reflexivity.
  - reflexivity.
  - split; [apply Hr; reflexivity | exact Ha].
Defined.

Lemma path_graph_wf : wf_graph path_graph.
Proof. apply (bool_decide_unpack _). vm_compute. exact I. Defined.

Lemma add_then_remove_edge_by_feature_witness :
  exists g1 g2,
    add_edge_by_feature path_graph (str "1") (str "3") "GEOID10" = Ok g1
    /\ has_edge g1 (int 0) (int 2) = true
    /\ remove_edge_by_feature g1 (str "1") (str "3") "GEOID10" = Ok g2
    /\ edges g2 = edges path_graph
    /\ g2 = path_graph.
Proof.
  apply (add_then_remove_edge_by_feature path_graph (str "1") (str "3") "GEOID10"
           (int 0) (int 2)).
  - exact path_graph_wf.
  - discriminate.
  - reflexivity.
  - reflexivity.
  - reflexivity.
  - reflexivity.
  - reflexivity.
Defined.

(** ** KeyedGeometryIndex *)

Section index.
Context {geom : Type} `{Countable geom}.
Implicit Types (d kd ed : gmap (pyval geom) (pyval geom)).
Implicit Types (rows pre post : list (gmap string (pyval geom))).
Implicit Types (key c : string).

Lemma index_rows_total key c d rows :
  Forall (λ r, is_Some (r !! key) /\ is_Some (r !! c)) rows ->
  exists d', index_rows key c d rows = Ok d'.
Proof.
  intros Hr. revert d.
  induction Hr as [|r rows [[k Hk] [x Hx]] _ IH]; intros d; simpl.
  - eauto.
  - unfold row_get, subscript. rewrite Hx, Hk; simpl. apply IH.
Qed.

Lemma index_rows_err key c d rows e :
  index_rows key c d rows = Err e -> e = KeyError.
Proof.
  revert d. induction rows as [|r rows IH]; intros d; simpl; [intros [=]|].
  unfold row_get, subscript.
  destruct (r !! c); simpl; [|congruence].
  destruct (r !! key); simpl; [apply IH | congruence].
Qed.

(** Rows with another key leave the entry of [k] alone. *)
Lemma index_rows_other key c d rows d' k :
  index_rows key c d rows = Ok d' ->
  Forall (λ r, r !! key ≠ Some k) rows ->
  d' !! k = d !! k.
Proof.
  revert d. induction rows as [|r rows IH]; intros d; simpl.
  - intros [= <-] _. reflexivity.
  - intros Hi Hne. inversion Hne as [|? ? Hr Hrows]; subst.
    apply bind_Ok in Hi as (x & Hx & Hi). apply bind_Ok in Hi as (k' & Hk' & Hi).
    apply subscript_Ok in Hk'.
    rewrite (IH _ Hi Hrows). apply lookup_insert_ne. congruence.
Qed.

(** The entry of [k] comes from the last row that has the key [k]. *)
Lemma index_rows_last key c d pre r post d' k x :
  index_rows key c d (pre ++ r :: post) = Ok d' ->
  r !! key = Some k -> r !! c = Some x ->
  Forall (λ r', r' !! key ≠ Some k) post ->
  d' !! k = Some x.
Proof.
  revert d. induction pre as [|r0 pre IH]; intros d; simpl.
  - intros Hi Hk Hx Hpost. unfold row_get, subscript in Hi.
    rewrite Hx, Hk in Hi; simpl in Hi.
    rewrite (index_rows_other _ _ _ _ _ _ Hi Hpost). apply lookup_insert_eq.
  - intros Hi. apply bind_Ok in Hi as (x0 & _ & Hi).
    apply bind_Ok in Hi as (k0 & _ & Hi). eapply IH, Hi.
Qed.

(** The loop of [edges_geoms_endpoints] fills each of its dictionaries
    the way the loop of [edges_geoms] fills its own. *)
Lemma index_rows2_split key c kd ed rows :
  index_rows2 key c kd ed rows
  = (kd' ← index_rows key "geometry" kd rows;
     ed' ← index_rows key c ed rows;
     Ok (kd', ed')).
Proof.
  revert kd ed. induction rows as [|r rows IH]; intros kd ed; simpl; [reflexivity|].
  unfold row_get, subscript.
  destruct (r !! "geometry") as [x|]; simpl; [|reflexivity].
  destruct (r !! key) as [k|]; simpl.
  - destruct (r !! c) as [e|]; simpl; [apply IH|].
    destruct (index_rows key "geometry" (<[k:=x]> kd) rows) as [?|e'] eqn:He;
      simpl; [reflexivity|].
    apply index_rows_err in He as ->. reflexivity.
  - destruct (r !! c); reflexivity.
Qed.

(** A key value that occurs in the key column is indexed, to the cell of
    one of its rows. *)
Lemma index_rows_covered key c d rows d' k :
  index_rows key c d rows = Ok d' ->
  Exists (λ r, r !! key = Some k) rows ->
  exists r x, r ∈ rows /\ r !! key = Some k /\ r !! c = Some x /\ d' !! k = Some x.
Proof.
  revert d. induction rows as [|r0 rows IH]; intros d; simpl.
  - intros _ Hex. inversion Hex.
  - intros Hi Hex.
    apply bind_Ok in Hi as (x0 & Hx0 & Hi). apply bind_Ok in Hi as (k0 & Hk0 & Hi).
    apply subscript_Ok in Hx0. apply subscript_Ok in Hk0.
    destruct (decide (Exists (λ r, r !! key = Some k) rows)) as [Hrows|Hrows].
    + destruct (IH _ Hi Hrows) as (r & x & Hr & Hk & Hx & Hd).
      exists r, x. split; [right; exact Hr | auto].
    + inversion Hex as [? ? Hk|]; subst; [|tauto].
      exists r0, x0. split; [left|]. split; [exact Hk|]. split; [exact Hx0|].
      rewrite (index_rows_other _ _ _ _ _ _ Hi).
      * assert (k0 = k) as -> by congruence. apply lookup_insert_eq.
      * apply Forall_forall. intros r Hr Hrk. apply Hrows.
        apply Exists_exists. eauto.
Qed.
End index.

Section index_claims.
Context {geom : Type} `{Countable geom}.

(** C9.  Whatever rows come before it (rows with the same key value
    included), the last row of the feature table that has the key value
    [k] decides the entry of [k]: building the index raises no error, the
    index of [edges_geoms] maps [k] to the geometry of that row, and the
    two dictionaries of [edges_geoms_endpoints] map [k] to its geometry
    and to its endpoint label. *)
Theorem key_dict_last_write_wins (shp : DataFrame geom) key pre r post k x :
  df_rows shp = pre ++ r :: post ->
  has_column shp key -> has_column shp "geometry" ->
  r !! key = Some k -> r !! "geometry" = Some x ->
  Forall (λ r' : gmap string (pyval geom), r' !! key ≠ Some k) post ->
  (exists kd, key_dict_of shp key = Ok kd /\ kd !! k = Some x)
  /\ (forall endpoints e,
        has_column shp endpoints -> r !! endpoints = Some e ->
        exists kd ed,
          index_rows2 key endpoints ∅ ∅ (df_rows shp) = Ok (kd, ed)
          /\ kd !! k = Some x /\ ed !! k = Some e).
Proof.
  unfold has_column, key_dict_of. intros Hrows Hkey Hgeo Hk Hx Hpost.
  destruct (index_rows_total key "geometry" ∅ (df_rows shp)) as [kd Hkd].
  { apply Forall_and. split; assumption. }
  assert (kd !! k = Some x) as Hkdk.
  { rewrite Hrows in Hkd. eapply index_rows_last; eassumption. }
  split; [exists kd; split; assumption|].
  intros endpoints e Hend He.
  destruct (index_rows_total key endpoints ∅ (df_rows shp)) as [ed Hed].
  { apply Forall_and. split; assumption. }
  exists kd, ed. rewrite index_rows2_split, Hkd; simpl. rewrite Hed; simpl.
  split; [reflexivity|]. split; [exact Hkdk|].
  rewrite Hrows in Hed. eapply index_rows_last; eassumption.
Qed.
End index_claims.

Lemma key_dict_last_write_wins_witness :
  (exists kd, key_dict_of doubled "GEOID10" = Ok kd
              /\ kd !! str "1" = Some (VGeom (unit_square 5 5)))
  /\ (exists kd ed,
        index_rows2 "GEOID10" "NAME" ∅ ∅ (df_rows doubled) = Ok (kd, ed)
        /\ kd !! str "1" = Some (VGeom (unit_square 5 5))
        /\ ed !! str "1" = Some (str "second")).
Proof.
  destruct (key_dict_last_write_wins doubled "GEOID10"
              (take 2 (df_rows doubled))
              (<["geometry" := VGeom (unit_square 5 5)]>
                 (<["NAME" := str "second"]> {["GEOID10" := str "1"]}))
              [] (str "1") (VGeom (unit_square 5 5))) as [H1 H2].
  - reflexivity.
  - repeat constructor; eexists; vm_compute; reflexivity.
  - repeat constructor; eexists; vm_compute; reflexivity.
  - reflexivity.
  - reflexivity.
  - constructor.
  - split; [exact H1|]. apply (H2 "NAME" (str "second")).
    + repeat constructor; eexists; vm_compute; reflexivity.
    + reflexivity.
Defined.

(** ** EdgeGeometryBuilder and EdgeTableExporter *)

(** A comprehension over the result of the previous one: what is known of
    each element is carried from one list to the next. *)
Lemma mapM_chain {A B C} (R : A -> B -> Prop) (R' : A -> C -> Prop)
    (f : B -> result C) l k :
  Forall2 R l k ->
  (forall x y, x ∈ l -> R x y -> exists z, f y = Ok z /\ R' x z) ->
  exists m, mapM f k = Ok m /\ Forall2 R' l m.
Proof.
  induction 1 as [|x y l k Hxy _ IH]; intros Hf; simpl.
  - exists []. split; [reflexivity | constructor].
  - destruct (Hf x y) as (z & Hz & Hxz); [left | exact Hxy |].
    destruct IH as (m & Hm & Hlm).
    { intros x' y' Hin. apply Hf. right. exact Hin. }
    exists (z :: m). rewrite Hz; simpl. rewrite Hm; simpl.
    split; [reflexivity | constructor; assumption].
Qed.

Lemma Forall2_diag {A} (l : list A) : Forall2 eq l l.
Proof. induction l; constructor; auto. Qed.

Section builder.
Context {geom : Type} `{Countable geom}.
Variable centroid : geom -> geom.
Variable LineString : list geom -> geom.
Implicit Types (g : Graph geom) (shp : DataFrame geom) (key : string).
Implicit Types (kd ed : gmap (pyval geom) (pyval geom)).
Implicit Types (e : pyval geom * pyval geom).

Lemma edge_keys_spec g key :
  Forall (λ e, is_Some (key_of g key e.1) /\ is_Some (key_of g key e.2)) (edges g) ->
  exists keys,
    edge_keys g key = Ok keys
    /\ Forall2 (λ e ks, key_of g key e.1 = Some ks.1 /\ key_of g key e.2 = Some ks.2)
         (edges g) keys.
Proof.
  intros Hk. unfold edge_keys, pair_mapM.
  destruct (mapM_chain eq
              (λ e ns, node_attrs g e.1 = Ok ns.1 /\ node_attrs g e.2 = Ok ns.2
                       /\ is_Some (ns.1 !! key) /\ is_Some (ns.2 !! key))
              (λ p, x ← node_attrs g p.1; y ← node_attrs g p.2; Ok (x, y))
              (edges g) (edges g)) as (ns & Hns & H1).
  { apply Forall2_diag. }
  { intros e ? He <-. eapply Forall_forall in Hk; [|exact He].
    destruct Hk as [[k1 (a1 & Ha1 & Hk1)%key_of_Some]
                      [k2 (a2 & Ha2 & Hk2)%key_of_Some]].
    exists (a1, a2). rewrite Ha1, Ha2; simpl. eauto 10. }
  rewrite Hns; simpl.
  eapply mapM_chain; [exact H1|].
  intros e [a1 a2] _ (Ha1 & Ha2 & [k1 Hk1] & [k2 Hk2]); simpl in *.
  exists (k1, k2). unfold subscript. rewrite Hk1, Hk2; simpl.
  split; [reflexivity|]. split; apply key_of_Some; eauto.
Qed.

Lemma endpoint_geom_Some g key kd n p :
  endpoint_geom g key kd n = Some p <->
  exists k, key_of g key n = Some k /\ kd !! k = Some (VGeom p).
Proof.
  unfold endpoint_geom. split.
  - destruct (key_of g key n) as [k|]; [|intros [=]].
    destruct (kd !! k) as [[| |q]|] eqn:Hk; intros [=]; subst. eauto.
  - intros (k & -> & ->). reflexivity.
Qed.

(** The geometry pairs of [edges_geoms], from a given index. *)
Lemma geoms_spec g key kd :
  Forall (λ e, is_Some (endpoint_geom g key kd e.1)
               /\ is_Some (endpoint_geom g key kd e.2)) (edges g) ->
  exists geoms,
    (keys ← edge_keys g key; pair_mapM (subscript kd) keys) = Ok geoms
    /\ Forall2 (λ e gs, exists pu pv,
                   endpoint_geom g key kd e.1 = Some pu
                   /\ endpoint_geom g key kd e.2 = Some pv
                   /\ gs = (VGeom pu, VGeom pv))
         (edges g) geoms.
Proof.
  intros Hg.
  destruct (edge_keys_spec g key) as (keys & Hkeys & H2).
  { eapply Forall_impl; [exact Hg|].
    intros e [[pu (k1 & Hk1 & _)%endpoint_geom_Some]
                [pv (k2 & Hk2 & _)%endpoint_geom_Some]]. eauto. }
  rewrite Hkeys; simpl. unfold pair_mapM.
  eapply mapM_chain; [exact H2|].
  intros e [k1 k2] He [Hk1 Hk2]; simpl in *.
  eapply Forall_forall in Hg; [|exact He].
  destruct Hg as [[pu Hpu] [pv Hpv]].
  pose proof Hpu as (k1' & Hk1' & Hd1)%endpoint_geom_Some.
  pose proof Hpv as (k2' & Hk2' & Hd2)%endpoint_geom_Some.
  assert (k1' = k1) as -> by congruence.
  assert (k2' = k2) as -> by congruence.
  exists (VGeom pu, VGeom pv). unfold subscript. rewrite Hd1, Hd2; simpl.
  split; [reflexivity|]. eauto.
Qed.

Lemma edges_geoms_spec g shp key kd :
  key_dict_of shp key = Ok kd ->
  Forall (λ e, is_Some (endpoint_geom g key kd e.1)
               /\ is_Some (endpoint_geom g key kd e.2)) (edges g) ->
  exists geoms,
    edges_geoms g shp key = Ok geoms
    /\ Forall2 (λ e gs, exists pu pv,
                   endpoint_geom g key kd e.1 = Some pu
                   /\ endpoint_geom g key kd e.2 = Some pv
                   /\ gs = (VGeom pu, VGeom pv))
         (edges g) geoms.
Proof.
  intros Hkd Hg. unfold edges_geoms. rewrite Hkd; simpl.
  apply geoms_spec, Hg.
Qed.

Lemma centerlines_spec {A} (R : A -> geom -> geom -> Prop) (l : list A) geoms :
  Forall2 (λ x gs, exists pu pv, R x pu pv /\ gs = (VGeom pu, VGeom pv)) l geoms ->
  exists lines,
    centerlines centroid LineString geoms = Ok lines
    /\ Forall2 (λ x line, exists pu pv,
                   R x pu pv
                   /\ line = VGeom (LineString [centroid pu; centroid pv]))
         l lines.
Proof.
  intros Hg. unfold centerlines. eapply mapM_chain; [exact Hg|].
  intros x gs _ (pu & pv & HR & ->); simpl. eauto 10.
Qed.

(** The table of [edges_to_gdf], row by row. *)
Lemma edges_to_gdf_spec g shp key kd :
  key_dict_of shp key = Ok kd ->
  Forall (λ e, is_Some (endpoint_geom g key kd e.1)
               /\ is_Some (endpoint_geom g key kd e.2)) (edges g) ->
  exists lines,
    edges_to_gdf centroid LineString g shp key
    = Ok {| df_columns := ["geometry"];
            df_rows := (λ l, {["geometry" := l]}) <$> lines;
            df_crs := df_crs shp |}
    /\ Forall2 (λ e line, exists pu pv,
                   endpoint_geom g key kd e.1 = Some pu
                   /\ endpoint_geom g key kd e.2 = Some pv
                   /\ line = VGeom (LineString [centroid pu; centroid pv]))
         (edges g) lines.
Proof.
  intros Hkd Hg.
  destruct (edges_geoms_spec g shp key kd Hkd Hg) as (geoms & Hgeoms & HG).
  destruct (centerlines_spec
              (λ e pu pv, endpoint_geom g key kd e.1 = Some pu
                          /\ endpoint_geom g key kd e.2 = Some pv)
              (edges g) geoms) as (lines & Hlines & HL).
  { eapply Forall2_impl; [exact HG|]. intros e gs (pu & pv & ? & ? & ->). eauto 10. }
  exists lines. unfold edges_to_gdf. rewrite Hgeoms; simpl. rewrite Hlines; simpl.
  split; [reflexivity|].
  eapply Forall2_impl; [exact HL|].
  intros e line (pu & pv & [Hpu Hpv] & ->). eauto 10.
Qed.
End builder.

Section builder_endpoints.
Context {geom : Type} `{Countable geom}.
Variable centroid : geom -> geom.
Variable LineString : list geom -> geom.
Implicit Types (g : Graph geom) (shp : DataFrame geom) (key : string).
Implicit Types (kd ed : gmap (pyval geom) (pyval geom)).
Implicit Types (e : pyval geom * pyval geom).

(** Both dictionaries of [edges_geoms_endpoints] have the same keys. *)
Lemma index_rows2_dom key c kd ed rows kd' ed' :
  index_rows2 key c kd ed rows = Ok (kd', ed') ->
  (forall k, is_Some (kd !! k) -> is_Some (ed !! k)) ->
  forall k, is_Some (kd' !! k) -> is_Some (ed' !! k).
Proof.
  revert kd ed. induction rows as [|r rows IH]; intros kd ed; simpl.
  - intros [= <- <-]. auto.
  - intros Hi Hd.
    apply bind_Ok in Hi as (x & _ & Hi). apply bind_Ok in Hi as (k1 & Hk1 & Hi).
    apply bind_Ok in Hi as (y & _ & Hi). apply bind_Ok in Hi as (k2 & Hk2 & Hi).
    assert (k2 = k1) as -> by congruence.
    eapply IH; [exact Hi|]. intros k.
    destruct (decide (k1 = k)) as [->|Hne].
    + rewrite !lookup_insert_eq. eauto.
    + rewrite !lookup_insert_ne by exact Hne. apply Hd.
Qed.

Lemma index_rows2_key_dict shp endpoints key kd ed :
  index_rows2 key endpoints ∅ ∅ (df_rows shp) = Ok (kd, ed) ->
  key_dict_of shp key = Ok kd.
Proof.
  rewrite index_rows2_split. intros (kd' & Hkd & Hi)%bind_Ok.
  apply bind_Ok in Hi as (ed' & _ & [= <- _]). exact Hkd.
Qed.

Lemma endpoint_label_Some g key kd ed n p :
  (forall k, is_Some (kd !! k) -> is_Some (ed !! k)) ->
  endpoint_geom g key kd n = Some p ->
  exists k lbl, key_of g key n = Some k /\ ed !! k = Some lbl
                /\ endpoint_label g key ed n = Some lbl.
Proof.
  intros Hd (k & Hk & Hp)%endpoint_geom_Some.
  destruct (Hd k) as [lbl Hlbl]; [eauto|].
  exists k, lbl. unfold endpoint_label. rewrite Hk. auto.
Qed.

Lemma edges_geoms_endpoints_spec g shp endpoints key kd ed :
  index_rows2 key endpoints ∅ ∅ (df_rows shp) = Ok (kd, ed) ->
  Forall (λ e, is_Some (endpoint_geom g key kd e.1)
               /\ is_Some (endpoint_geom g key kd e.2)) (edges g) ->
  exists geoms ends,
    edges_geoms_endpoints g shp endpoints key = Ok (geoms, ends)
    /\ Forall2 (λ e gs, exists pu pv,
                   endpoint_geom g key kd e.1 = Some pu
                   /\ endpoint_geom g key kd e.2 = Some pv
                   /\ gs = (VGeom pu, VGeom pv))
         (edges g) geoms
    /\ Forall2 (λ e ls, endpoint_label g key ed e.1 = Some ls.1
                        /\ endpoint_label g key ed e.2 = Some ls.2)
         (edges g) ends.
Proof.
  intros Hi Hg. unfold edges_geoms_endpoints. rewrite Hi; simpl.
  assert (forall k, is_Some (kd !! k) -> is_Some (ed !! k)) as Hd.
  { eapply index_rows2_dom; [exact Hi|]. intros k [? Hk].
    rewrite lookup_empty in Hk. discriminate. }
  destruct (geoms_spec g key kd Hg) as (geoms & Hgeoms & HG).
  apply bind_Ok in Hgeoms as (keys & Hkeys & Hgeoms).
  rewrite Hkeys; simpl. rewrite Hgeoms; simpl.
  destruct (edge_keys_spec g key) as (keys' & Hkeys' & H2).
  { eapply Forall_impl; [exact Hg|].
    intros e [[pu (k1 & Hk1 & _)%endpoint_geom_Some]
                [pv (k2 & Hk2 & _)%endpoint_geom_Some]]. eauto. }
  assert (keys' = keys) as -> by congruence.
  destruct (mapM_chain _
              (λ e ls, endpoint_label g key ed e.1 = Some ls.1
                       /\ endpoint_label g key ed e.2 = Some ls.2)
              (λ p, x ← subscript ed p.1; y ← subscript ed p.2; Ok (x, y))
              _ _ H2) as (ends & Hends & HE).
  { intros e [k1 k2] He [Hk1 Hk2]; simpl in *.
    eapply Forall_forall in Hg; [|exact He]. destruct Hg as [[pu Hpu] [pv Hpv]].
    destruct (endpoint_label_Some _ _ _ _ _ _ Hd Hpu) as (k1' & l1 & Hk1' & Hl1 & HL1).
    destruct (endpoint_label_Some _ _ _ _ _ _ Hd Hpv) as (k2' & l2 & Hk2' & Hl2 & HL2).
    assert (k1' = k1) as -> by congruence.
    assert (k2' = k2) as -> by congruence.
    exists (l1, l2). unfold subscript. rewrite Hl1, Hl2; simpl. auto. }
  unfold pair_mapM. rewrite Hends; simpl. eauto 10.
Qed.

Lemma zip3_rows_spec {A} (R : A -> pyval geom * pyval geom -> Prop)
    (S : A -> pyval geom -> Prop) (l : list A) ends lines :
  Forall2 R l ends -> Forall2 S l lines ->
  Forall2 (λ x row, exists ls line,
              R x ls /\ S x line /\ row = endpoint_row ls.1 ls.2 line)
    l (zip3_rows ends.*1 ends.*2 lines).
Proof.
  intros HR. revert lines.
  induction HR as [|x ls l ends Hx _ IH]; intros lines HS;
    inversion HS as [|? line ? lines' Hline Hlines]; subst; simpl.
  - constructor.
  - constructor; [eauto 10 | apply IH, Hlines].
Qed.

(** The edge table with endpoint labels, for a graph with an edge. *)
Lemma edges_to_gdf_endpoints_spec g shp endpoints key kd ed :
  index_rows2 key endpoints ∅ ∅ (df_rows shp) = Ok (kd, ed) ->
  Forall (λ e, is_Some (endpoint_geom g key kd e.1)
               /\ is_Some (endpoint_geom g key kd e.2)) (edges g) ->
  edges g ≠ [] ->
  exists t,
    edges_to_gdf_endpoints centroid LineString g shp endpoints key = Ok t
    /\ df_columns t = ["endpoint_u"; "endpoint_v"; "geometry"]
    /\ df_crs t = df_crs shp
    /\ Forall2 (λ e row, exists lu lv pu pv,
                   endpoint_label g key ed e.1 = Some lu
                   /\ endpoint_label g key ed e.2 = Some lv
                   /\ endpoint_geom g key kd e.1 = Some pu
                   /\ endpoint_geom g key kd e.2 = Some pv
                   /\ row = endpoint_row lu lv
                              (VGeom (LineString [centroid pu; centroid pv])))
         (edges g) (df_rows t).
Proof.
  intros Hi Hg Hne.
  destruct (edges_geoms_endpoints_spec g shp endpoints key kd ed Hi Hg)
    as (geoms & ends & Hge & HG & HE).
  destruct (centerlines_spec centroid LineString
              (λ e pu pv, endpoint_geom g key kd e.1 = Some pu
                          /\ endpoint_geom g key kd e.2 = Some pv)
              (edges g) geoms) as (lines & Hlines & HL).
  { eapply Forall2_impl; [exact HG|]. intros e gs (pu & pv & ? & ? & ->). eauto 10. }
  unfold edges_to_gdf_endpoints. rewrite Hge; simpl.
  assert (unzip_pairs ends = Ok (ends.*1, ends.*2)) as ->.
  { destruct ends; [|reflexivity]. inversion HE; subst. congruence. }
  simpl. rewrite Hlines; simpl. eexists. split; [reflexivity|].
  simpl. split; [reflexivity|]. split; [reflexivity|].
  eapply Forall2_impl; [apply (zip3_rows_spec _ _ _ _ _ HE HL)|].
  intros e row ([lu lv] & line & [Hu Hv] & (pu & pv & [Hpu Hpv] & ->) & ->).
  simpl in *. eauto 15.
Qed.

(** Without an edge there is nothing to unpack. *)
Lemma edges_to_gdf_endpoints_edgeless g shp endpoints key kd ed :
  index_rows2 key endpoints ∅ ∅ (df_rows shp) = Ok (kd, ed) ->
  edges g = [] ->
  edges_to_gdf_endpoints centroid LineString g shp endpoints key = Err ValueError.
Proof.
  intros Hi He. unfold edges_to_gdf_endpoints, edges_geoms_endpoints.
  rewrite Hi; simpl. unfold edge_keys. rewrite He; simpl. reflexivity.
Qed.
End builder_endpoints.

Section builder_claims.
Context {geom : Type} `{Countable geom}.
Variable centroid : geom -> geom.
Variable LineString : list geom -> geom.
Implicit Types (g : Graph geom) (shp : DataFrame geom) (key : string).
Implicit Types (kd : gmap (pyval geom) (pyval geom)).

(** C4.  When the index built from the feature table holds a geometry for
    the key value of both endpoints of every edge, [edges_to_gdf] returns a
    table whose rows follow [list(graph.edges)] one for one, and the row of
    the edge [(u, v)] holds the line through exactly two points: the
    centroid of the geometry indexed by the key value of [u], then the
    centroid of the geometry indexed by the key value of [v]. *)
Theorem edges_to_gdf_centerlines g shp key kd :
  key_dict_of shp key = Ok kd ->
  Forall (λ e, is_Some (endpoint_geom g key kd e.1)
               /\ is_Some (endpoint_geom g key kd e.2)) (edges g) ->
  exists t,
    edges_to_gdf centroid LineString g shp key = Ok t
    /\ Forall2 (λ e row, exists pu pv,
                   endpoint_geom g key kd e.1 = Some pu
                   /\ endpoint_geom g key kd e.2 = Some pv
                   /\ row = {["geometry" :=
                                VGeom (LineString [centroid pu; centroid pv])]})
         (edges g) (df_rows t).
Proof.
  intros Hkd Hg.
  destruct (edges_to_gdf_spec centroid LineString g shp key kd Hkd Hg)
    as (lines & Ht & HL).
  eexists. split; [exact Ht|]. simpl.
  apply Forall2_fmap_r. eapply Forall2_impl; [exact HL|].
  intros e line (pu & pv & Hpu & Hpv & ->); simpl. eauto 10.
Qed.

(** One row per edge, for the functions that do return on every graph:
    the geometry pairs of [edges_geoms], the table of [edges_to_gdf], and
    both lists of [edges_geoms_endpoints]. *)
Lemma one_row_per_edge g shp endpoints key kd ed :
  index_rows2 key endpoints ∅ ∅ (df_rows shp) = Ok (kd, ed) ->
  Forall (λ e, is_Some (endpoint_geom g key kd e.1)
               /\ is_Some (endpoint_geom g key kd e.2)) (edges g) ->
  (exists geoms, edges_geoms g shp key = Ok geoms
                 /\ length geoms = length (edges g))
  /\ (exists t, edges_to_gdf centroid LineString g shp key = Ok t
                /\ length (df_rows t) = length (edges g))
  /\ (exists geoms ends,
        edges_geoms_endpoints g shp endpoints key = Ok (geoms, ends)
        /\ length geoms = length (edges g)
        /\ length ends = length (edges g))
  /\ (edges g ≠ [] ->
      exists t, edges_to_gdf_endpoints centroid LineString g shp endpoints key = Ok t
                /\ length (df_rows t) = length (edges g)).
Proof.
  intros Hi Hg. pose proof (index_rows2_key_dict _ _ _ _ _ Hi) as Hkd.
  repeat split.
  - destruct (edges_geoms_spec g shp key kd Hkd Hg) as (geoms & Hgeoms & HG).
    exists geoms. split; [exact Hgeoms|]. symmetry. eapply Forall2_length, HG.
  - destruct (edges_to_gdf_spec centroid LineString g shp key kd Hkd Hg)
      as (lines & Ht & HL).
    eexists. split; [exact Ht|]. simpl. rewrite length_fmap.
    symmetry. eapply Forall2_length, HL.
  - destruct (edges_geoms_endpoints_spec g shp endpoints key kd ed Hi Hg)
      as (geoms & ends & Hge & HG & HE).
    exists geoms, ends. split; [exact Hge|].
    split; symmetry; eapply Forall2_length; eassumption.
  - intros Hne.
    destruct (edges_to_gdf_endpoints_spec centroid LineString
                g shp endpoints key kd ed Hi Hg Hne) as (t & Ht & _ & _ & HT).
    exists t. split; [exact Ht|]. symmetry. eapply Forall2_length, HT.
Qed.

(** A feature table whose key column covers the key values of the nodes
    indexes a geometry for both endpoints of every edge. *)
Lemma covered_edges g shp key :
  wf_graph g -> feature_table shp key -> covers g shp key ->
  exists kd,
    key_dict_of shp key = Ok kd
    /\ Forall (λ e, is_Some (endpoint_geom g key kd e.1)
                    /\ is_Some (endpoint_geom g key kd e.2)) (edges g).
Proof.
  intros Hwf Hft Hcov. unfold key_dict_of.
  destruct (index_rows_total key "geometry" ∅ (df_rows shp)) as [kd Hkd].
  { eapply Forall_impl; [exact Hft|]. intros r [Hk [p Hp]]. eauto. }
  exists kd. split; [exact Hkd|].
  assert (forall n, n ∈ nodes g -> is_Some (endpoint_geom g key kd n)) as Hn.
  { intros n Hin. eapply Forall_forall in Hcov; [|exact Hin].
    destruct Hcov as (k & Hk & Hex).
    destruct (index_rows_covered _ _ _ _ _ _ Hkd Hex) as (r & x & Hr & _ & Hx & Hd).
    eapply Forall_forall in Hft; [|exact Hr]. destruct Hft as [_ [p Hp]].
    exists p. apply endpoint_geom_Some. exists k. split; [exact Hk|]. congruence. }
  apply Forall_forall. intros [x y] Hin.
  destruct (edges_nodes g x y Hwf Hin) as [Hx Hy]. simpl. auto.
Qed.

(** The row counts again, from the hypothesis as the specification words
    it: the key column of the feature table covers the key values of the
    nodes. *)
Lemma one_row_per_edge_covered g shp endpoints key :
  wf_graph g -> feature_table shp key -> has_column shp endpoints ->
  covers g shp key ->
  (exists geoms, edges_geoms g shp key = Ok geoms
                 /\ length geoms = length (edges g))
  /\ (exists t, edges_to_gdf centroid LineString g shp key = Ok t
                /\ length (df_rows t) = length (edges g))
  /\ (exists geoms ends,
        edges_geoms_endpoints g shp endpoints key = Ok (geoms, ends)
        /\ length geoms = length (edges g)
        /\ length ends = length (edges g))
  /\ (edges g ≠ [] ->
      exists t, edges_to_gdf_endpoints centroid LineString g shp endpoints key = Ok t
                /\ length (df_rows t) = length (edges g))
  /\ (edges g = [] ->
      edges_to_gdf_endpoints centroid LineString g shp endpoints key = Err ValueError).
Proof.
  intros Hwf Hft Hend Hcov.
  destruct (covered_edges g shp key Hwf Hft Hcov) as (kd & Hkd & Hg).
  destruct (index_rows_total key endpoints ∅ (df_rows shp)) as [ed Hed].
  { apply Forall_and. split; [|exact Hend].
    eapply Forall_impl; [exact Hft|]. intros r [Hk _]. exact Hk. }
  assert (index_rows2 key endpoints ∅ ∅ (df_rows shp) = Ok (kd, ed)) as Hi.
  { rewrite index_rows2_split. unfold key_dict_of in Hkd. rewrite Hkd; simpl.
    rewrite Hed. reflexivity. }
  destruct (one_row_per_edge g shp endpoints key kd ed Hi Hg) as (H1 & H2 & H3 & H4).
  repeat (split; [assumption|]).
  intros He. eapply edges_to_gdf_endpoints_edgeless; eassumption.
Qed.
End builder_claims.

Lemma edges_to_gdf_centerlines_witness :
  exists t,
    edges_to_gdf shape_centroid shape_line path_graph squares "GEOID10" = Ok t
    /\ Forall2 (λ e row, exists pu pv,
                   endpoint_geom path_graph "GEOID10" squares_index e.1 = Some pu
                   /\ endpoint_geom path_graph "GEOID10" squares_index e.2 = Some pv
                   /\ row = {["geometry" :=
                                VGeom (shape_line [shape_centroid pu; shape_centroid pv])]})
         (edges path_graph) (df_rows t).
Proof.
  apply (edges_to_gdf_centerlines shape_centroid shape_line
           path_graph squares "GEOID10" squares_index).
  - vm_compute. reflexivity.
  - repeat constructor; eexists; vm_compute; reflexivity.
Defined.

(** The scenario of the specification: three unit squares in a row give the
    centre lines (0.5, 0.5)-(1.5, 0.5) and (1.5, 0.5)-(2.5, 0.5), written
    here in half units. *)
Example edges_to_gdf_three_squares :
  edges_to_gdf shape_centroid shape_line path_graph squares "GEOID10"
  = Ok {| df_columns := ["geometry"];
          df_rows := [ {["geometry" := segment 1 1 3 1]};
                       {["geometry" := segment 3 1 5 1]} ];
          df_crs := Some (str "EPSG:4326") |}.
Proof. vm_compute. reflexivity. Qed.

(** C3 at a graph without edges.  The graph is well formed, the feature
    table covers the key value of its only node, [edges_to_gdf] returns the
    table with no row, and [edges_to_gdf_endpoints] raises [ValueError]
    instead of returning it. *)
Theorem edges_to_gdf_endpoints_no_edge_raises :
  wf_graph lonely
  /\ feature_table squares "GEOID10"
  /\ covers lonely squares "GEOID10"
  /\ edges lonely = []
  /\ edges_to_gdf shape_centroid shape_line lonely squares "GEOID10"
     = Ok {| df_columns := ["geometry"]; df_rows := [];
             df_crs := Some (str "EPSG:4326") |}
  /\ edges_to_gdf_endpoints shape_centroid shape_line lonely squares
       "GEOID10" "GEOID10" = Err ValueError.
Proof.
  split; [apply (bool_decide_unpack _); vm_compute; exact I|].
  split; [repeat constructor; eexists; vm_compute; reflexivity|].
  split; [repeat constructor; exists (str "1"); split;
          [reflexivity | left; reflexivity]|].
  repeat split; vm_compute; reflexivity.
Qed.

(** ** SharedBoundaryResolver *)

Lemma Forall2_zip_pair {A B C} (R : A -> B -> Prop) (S : A -> C -> Prop) l a b :
  Forall2 R l a -> Forall2 S l b ->
  Forall2 (λ x p, R x p.1 /\ S x p.2) l (zip a b).
Proof.
  intros HR. revert b. induction HR as [|x y l a Hxy _ IH]; intros b HS;
    inversion HS; subst; simpl; constructor; auto.
Qed.

Lemma Forall2_zip_with_r {A B C D} (R : A -> B -> Prop) (S : A -> C -> Prop)
    (T : A -> D -> Prop) (f : B -> C -> D) l a b :
  Forall2 R l a -> Forall2 S l b ->
  (forall x p q, R x p -> S x q -> T x (f p q)) ->
  Forall2 T l (zip_with f a b).
Proof.
  intros HR. revert b. induction HR as [|x y l a Hxy _ IH]; intros b HS Hf;
    inversion HS; subst; simpl; constructor; auto.
Qed.

Lemma Forall2_join {A B C} (R : A -> B -> Prop) (S : A -> C -> Prop) l a b :
  Forall2 R l a -> Forall2 S l b ->
  Forall2 (λ y z, exists x, R x y /\ S x z) a b.
Proof.
  intros HR. revert b. induction HR as [|x y l a Hxy _ IH]; intros b HS;
    inversion HS; subst; constructor; eauto.
Qed.

Section boundaries.
Context {geom : Type} `{Countable geom}.
Variable intersection : geom -> geom -> geom.
Implicit Types (g : Graph geom) (g_shp shp : DataFrame geom) (key c : string).
Implicit Types (kd : gmap (pyval geom) (pyval geom)).
Implicit Types (r o : gmap string (pyval geom)).

Lemma column_spec (df : DataFrame geom) c :
  c ∈ df_columns df -> has_column df c ->
  exists vs, column df c = Ok vs
             /\ Forall2 (λ r x, r !! c = Some x) (df_rows df) vs.
Proof.
  intros Hc Hr. unfold column. rewrite decide_True by exact Hc.
  eapply mapM_chain; [apply Forall2_diag|].
  intros r ? Hin <-. eapply Forall_forall in Hr; [|exact Hin].
  destruct Hr as [x Hx]. exists x. unfold row_get, subscript. rewrite Hx. auto.
Qed.

Lemma column_of_cells (df : DataFrame geom) c vs :
  c ∈ df_columns df ->
  Forall2 (λ r x, r !! c = Some x) (df_rows df) vs ->
  column df c = Ok vs.
Proof.
  intros Hc Hr. unfold column. rewrite decide_True by exact Hc.
  apply mapM_Ok. eapply Forall2_impl; [exact Hr|].
  intros r x Hx. unfold row_get, subscript. rewrite Hx. reflexivity.
Qed.

Lemma label_geom_Some g key kd lbl p :
  label_geom g key kd lbl = Some p <->
  matching g key lbl ≠ [] /\ kd !! lbl = Some (VGeom p).
Proof.
  unfold label_geom. destruct (matching g key lbl) as [|n ns].
  - split; [intros [=] | intros [[] _]; reflexivity].
  - destruct (kd !! lbl) as [[| |q]|]; split;
      try (intros [=]; subst; done); intros [_ [=]]; subst; done.
Qed.

(** A label that is the key value of a node resolves to a node with that
    key value, when no node lacks the key attribute. *)
Lemma find_label g key lbl :
  keyed g key -> matching g key lbl ≠ [] ->
  exists n, find_node_by_key lbl g key = Ok n /\ key_of g key n = Some lbl.
Proof.
  intros Hk Hm. rewrite find_keyed by exact Hk.
  destruct (matching g key lbl) as [|n ns] eqn:Hmatch; [done|].
  exists n. split; [reflexivity|].
  assert (n ∈ matching g key lbl) as [_ Hn]%matching_elem
    by (rewrite Hmatch; left).
  exact Hn.
Qed.

(** The table of [shared_boundaries_gdf], row by row. *)
Lemma shared_boundaries_gdf_spec g g_shp shp key kd :
  key_dict_of shp key = Ok kd ->
  keyed g key ->
  "endpoint_u" ∈ df_columns g_shp -> "endpoint_v" ∈ df_columns g_shp ->
  Forall (λ r, exists u v, r !! "endpoint_u" = Some u /\ r !! "endpoint_v" = Some v
                           /\ is_Some (label_geom g key kd u)
                           /\ is_Some (label_geom g key kd v)) (df_rows g_shp) ->
  exists out,
    shared_boundaries_gdf intersection g g_shp shp key = Ok out
    /\ df_columns out = ["geometry"; "endpoint_u"; "endpoint_v"]
    /\ Forall2 (λ r o, exists u v pu pv,
                   r !! "endpoint_u" = Some u /\ r !! "endpoint_v" = Some v
                   /\ label_geom g key kd u = Some pu
                   /\ label_geom g key kd v = Some pv
                   /\ o = <["endpoint_v" := v]>
                            (<["endpoint_u" := u]>
                               {["geometry" := VGeom (intersection pu pv)]}))
         (df_rows g_shp) (df_rows out).
Proof.
  intros Hkd Hk Hcu Hcv Hrows.
  destruct (column_spec g_shp "endpoint_u" Hcu) as (eu & Heu & HU).
  { eapply Forall_impl; [exact Hrows|]. intros r (u & v & Hu & _). eauto. }
  destruct (column_spec g_shp "endpoint_v" Hcv) as (ev & Hev & HV).
  { eapply Forall_impl; [exact Hrows|]. intros r (u & v & _ & Hv & _). eauto. }
  pose proof (Forall2_zip_pair _ _ _ _ _ HU HV) as HE.
  unfold shared_boundaries_gdf. rewrite Hkd; simpl. rewrite Heu; simpl.
  rewrite Hev; simpl. unfold pair_mapM.
  (* the nodes found for the labels *)
  destruct (mapM_chain _
              (λ r ns, exists u v, r !! "endpoint_u" = Some u
                                   /\ r !! "endpoint_v" = Some v
                                   /\ key_of g key ns.1 = Some u
                                   /\ key_of g key ns.2 = Some v)
              (λ p, x ← find_node_by_key p.1 g key;
                    y ← find_node_by_key p.2 g key; Ok (x, y))
              _ _ HE) as (ns & Hns & HN).
  { intros r [u v] Hin [Hu Hv]; simpl in *.
    eapply Forall_forall in Hrows; [|exact Hin].
    destruct Hrows as (u' & v' & Hu' & Hv' & [pu Hpu] & [pv Hpv]).
    assert (u' = u) as -> by congruence. assert (v' = v) as -> by congruence.
    apply label_geom_Some in Hpu as [Hmu _]. apply label_geom_Some in Hpv as [Hmv _].
    destruct (find_label g key u Hk Hmu) as (n1 & Hn1 & Hk1).
    destruct (find_label g key v Hk Hmv) as (n2 & Hn2 & Hk2).
    exists (n1, n2). rewrite Hn1, Hn2; simpl. eauto 10. }
  rewrite Hns; simpl.
  (* their key values, which are the labels again *)
  destruct (mapM_chain _
              (λ r ks, r !! "endpoint_u" = Some ks.1 /\ r !! "endpoint_v" = Some ks.2)
              (λ p, x ← (a ← node_attrs g p.1; subscript a key);
                    y ← (a ← node_attrs g p.2; subscript a key); Ok (x, y))
              _ _ HN) as (ks & Hks & HK).
  { intros r [n1 n2] _ (u & v & Hu & Hv & Hk1 & Hk2); simpl in *.
    apply key_of_Some in Hk1 as (a1 & Ha1 & Hk1).
    apply key_of_Some in Hk2 as (a2 & Ha2 & Hk2).
    exists (u, v). rewrite Ha1, Ha2; simpl. unfold subscript.
    rewrite Hk1, Hk2; simpl. auto. }
  rewrite Hks; simpl.
  (* the geometries indexed by these key values *)
  destruct (mapM_chain _
              (λ r gs, exists u v pu pv,
                  r !! "endpoint_u" = Some u /\ r !! "endpoint_v" = Some v
                  /\ label_geom g key kd u = Some pu
                  /\ label_geom g key kd v = Some pv
                  /\ gs = (VGeom pu, VGeom pv))
              (λ p, x ← subscript kd p.1; y ← subscript kd p.2; Ok (x, y))
              _ _ HK) as (gs & Hgs & HG).
  { intros r [u v] Hin [Hu Hv]; simpl in *.
    eapply Forall_forall in Hrows; [|exact Hin].
    destruct Hrows as (u' & v' & Hu' & Hv' & [pu Hpu] & [pv Hpv]).
    assert (u' = u) as -> by congruence. assert (v' = v) as -> by congruence.
    pose proof Hpu as [_ Hdu]%label_geom_Some.
    pose proof Hpv as [_ Hdv]%label_geom_Some.
    exists (VGeom pu, VGeom pv). unfold subscript. rewrite Hdu, Hdv; simpl.
    eauto 15. }
  rewrite Hgs; simpl.
  (* their intersections *)
  destruct (mapM_chain _
              (λ r i, exists u v pu pv,
                  r !! "endpoint_u" = Some u /\ r !! "endpoint_v" = Some v
                  /\ label_geom g key kd u = Some pu
                  /\ label_geom g key kd v = Some pv
                  /\ i = VGeom (intersection pu pv))
              (λ p, intersection_of intersection p.1 p.2)
              _ _ HG) as (inter & Hinter & HI).
  { intros r ? _ (u & v & pu & pv & Hu & Hv & Hpu & Hpv & ->); simpl.
    eauto 15. }
  rewrite Hinter; simpl.
  eexists. split; [reflexivity|]. simpl.
  split; [reflexivity|].
  assert (Forall2 (λ r o, exists u v pu pv,
                      r !! "endpoint_u" = Some u /\ r !! "endpoint_v" = Some v
                      /\ label_geom g key kd u = Some pu
                      /\ label_geom g key kd v = Some pv
                      /\ o = {["geometry" := VGeom (intersection pu pv)]})
            (df_rows g_shp) ((λ l, {["geometry" := l]}) <$> inter)) as H1.
  { apply Forall2_fmap_r. eapply Forall2_impl; [exact HI|].
    intros r i (u & v & pu & pv & Hu & Hv & Hpu & Hpv & ->). eauto 15. }
  assert (Forall2 (λ r o, exists u v pu pv,
                      r !! "endpoint_u" = Some u /\ r !! "endpoint_v" = Some v
                      /\ label_geom g key kd u = Some pu
                      /\ label_geom g key kd v = Some pv
                      /\ o = <["endpoint_u" := u]>
                               {["geometry" := VGeom (intersection pu pv)]})
            (df_rows g_shp)
            (zip_with (λ r v, <["endpoint_u" := v]> r)
               ((λ l, {["geometry" := l]}) <$> inter) eu)) as H2.
  { eapply Forall2_zip_with_r; [exact H1 | exact HU |].
    intros r o u (u' & v' & pu & pv & Hu' & Hv' & Hpu & Hpv & ->) Hu.
    assert (u' = u) as -> by congruence. eauto 15. }
  eapply Forall2_zip_with_r; [exact H2 | exact HV |].
  intros r o v (u' & v' & pu & pv & Hu' & Hv' & Hpu & Hpv & ->) Hv.
  assert (v' = v) as -> by congruence. eauto 15.
Qed.
End boundaries.

Section boundaries_claims.
Context {geom : Type} `{Countable geom}.
Variable centroid : geom -> geom.
Variable LineString : list geom -> geom.
Variable intersection : geom -> geom -> geom.
Implicit Types (g : Graph geom) (g_shp shp : DataFrame geom) (key : string).
Implicit Types (kd ed : gmap (pyval geom) (pyval geom)).

Lemma lookup_endpoint_u (u v x : pyval geom) :
  (<["endpoint_v" := v]> (<["endpoint_u" := u]> {["geometry" := x]})
     : gmap string (pyval geom)) !! "endpoint_u" = Some u.
Proof. rewrite lookup_insert_ne by discriminate. apply lookup_insert_eq. Qed.

Lemma lookup_endpoint_v (u v x : pyval geom) :
  (<["endpoint_v" := v]> (<["endpoint_u" := u]> {["geometry" := x]})
     : gmap string (pyval geom)) !! "endpoint_v" = Some v.
Proof. apply lookup_insert_eq. Qed.

Lemma lookup_geometry (u v x : pyval geom) :
  (<["endpoint_v" := v]> (<["endpoint_u" := u]> {["geometry" := x]})
     : gmap string (pyval geom)) !! "geometry" = Some x.
Proof.
  rewrite !lookup_insert_ne by discriminate. apply lookup_singleton_eq.
Qed.

(** C8.  Take an edge table with the columns [endpoint_u] and
    [endpoint_v], a graph whose nodes all carry the key attribute, and a
    feature table from which the index is built, such that every label of
    the edge table is the key value of some node and is indexed to a
    geometry.  Then [shared_boundaries_gdf] returns a table with one row
    per row of the edge table, whose [endpoint_u] and [endpoint_v] columns
    are those of the edge table, and whose geometry in each row is the
    intersection of the geometries indexed by the two labels of that row. *)
Theorem shared_boundaries_gdf_rows g g_shp shp key kd :
  key_dict_of shp key = Ok kd ->
  keyed g key ->
  "endpoint_u" ∈ df_columns g_shp -> "endpoint_v" ∈ df_columns g_shp ->
  Forall (λ r : gmap string (pyval geom),
            exists u v, r !! "endpoint_u" = Some u /\ r !! "endpoint_v" = Some v
                        /\ is_Some (label_geom g key kd u)
                        /\ is_Some (label_geom g key kd v)) (df_rows g_shp) ->
  exists out eu ev,
    shared_boundaries_gdf intersection g g_shp shp key = Ok out
    /\ length (df_rows out) = length (df_rows g_shp)
    /\ column g_shp "endpoint_u" = Ok eu /\ column out "endpoint_u" = Ok eu
    /\ column g_shp "endpoint_v" = Ok ev /\ column out "endpoint_v" = Ok ev
    /\ Forall2 (λ r o : gmap string (pyval geom), exists u v pu pv,
                   r !! "endpoint_u" = Some u /\ r !! "endpoint_v" = Some v
                   /\ label_geom g key kd u = Some pu
                   /\ label_geom g key kd v = Some pv
                   /\ o !! "geometry" = Some (VGeom (intersection pu pv)))
         (df_rows g_shp) (df_rows out).
Proof.
  intros Hkd Hk Hcu Hcv Hrows.
  destruct (shared_boundaries_gdf_spec intersection g g_shp shp key kd
              Hkd Hk Hcu Hcv Hrows) as (out & Hout & Hcols & HO).
  destruct (column_spec g_shp "endpoint_u" Hcu) as (eu & Heu & HU).
  { eapply Forall_impl; [exact Hrows|]. intros r (u & v & Hu & _). eauto. }
  destruct (column_spec g_shp "endpoint_v" Hcv) as (ev & Hev & HV).
  { eapply Forall_impl; [exact Hrows|]. intros r (u & v & _ & Hv & _). eauto. }
  exists out, eu, ev. split; [exact Hout|].
  split; [symmetry; eapply Forall2_length, HO|].
  split; [exact Heu|]. split.
  { apply column_of_cells; [rewrite Hcols; set_solver|].
    eapply Forall2_impl; [apply (Forall2_join _ _ _ _ _ HO HU)|].
    intros o x (r & (u & v & pu & pv & Hu & _ & _ & _ & ->) & Hx); simpl in *.
    rewrite lookup_endpoint_u. congruence. }
  split; [exact Hev|]. split.
  { apply column_of_cells; [rewrite Hcols; set_solver|].
    eapply Forall2_impl; [apply (Forall2_join _ _ _ _ _ HO HV)|].
    intros o x (r & (u & v & pu & pv & _ & Hv & _ & _ & ->) & Hx); simpl in *.
    rewrite lookup_endpoint_v. congruence. }
  eapply Forall2_impl; [exact HO|].
  intros r o (u & v & pu & pv & Hu & Hv & Hpu & Hpv & ->).
  exists u, v, pu, pv. rewrite lookup_geometry. auto.
Qed.

(** The dictionary of labels maps every key to itself when the label
    column is the key column. *)
Lemma index_rows_key_self key (d : gmap (pyval geom) (pyval geom)) rows d' :
  index_rows key key d rows = Ok d' ->
  (forall k v, d !! k = Some v -> v = k) ->
  forall k v, d' !! k = Some v -> v = k.
Proof.
  revert d. induction rows as [|r rows IH]; intros d; simpl.
  - intros [= <-]. auto.
  - intros Hi Hd.
    apply bind_Ok in Hi as (x & Hx & Hi). apply bind_Ok in Hi as (k0 & Hk0 & Hi).
    assert (x = k0) as -> by congruence.
    eapply IH; [exact Hi|]. intros k v.
    destruct (decide (k0 = k)) as [->|Hne].
    + rewrite lookup_insert_eq. congruence.
    + rewrite lookup_insert_ne by exact Hne. apply Hd.
Qed.

(** The edge table that [edges_to_gdf_endpoints] builds with the key
    column as label column is one whose labels all resolve. *)
Lemma edge_table_labels_resolve g shp key kd ed :
  index_rows2 key key ∅ ∅ (df_rows shp) = Ok (kd, ed) ->
  Forall (λ e, is_Some (endpoint_geom g key kd e.1)
               /\ is_Some (endpoint_geom g key kd e.2)) (edges g) ->
  edges g ≠ [] ->
  exists t,
    edges_to_gdf_endpoints centroid LineString g shp key key = Ok t
    /\ length (df_rows t) = length (edges g)
    /\ "endpoint_u" ∈ df_columns t /\ "endpoint_v" ∈ df_columns t
    /\ Forall (λ r : gmap string (pyval geom),
                 exists u v, r !! "endpoint_u" = Some u /\ r !! "endpoint_v" = Some v
                             /\ is_Some (label_geom g key kd u)
                             /\ is_Some (label_geom g key kd v)) (df_rows t).
Proof.
  intros Hi Hg Hne.
  destruct (edges_to_gdf_endpoints_spec centroid LineString g shp key key kd ed
              Hi Hg Hne) as (t & Ht & Hcols & _ & HT).
  exists t. split; [exact Ht|].
  split; [symmetry; eapply Forall2_length, HT|].
  rewrite Hcols. split; [set_solver|]. split; [set_solver|].
  assert (forall k v, ed !! k = Some v -> v = k) as Hself.
  { pose proof Hi as Hi'. rewrite index_rows2_split in Hi'.
    apply bind_Ok in Hi' as (kd' & _ & Hi'). apply bind_Ok in Hi' as (ed' & Hed & [= _ <-]).
    eapply index_rows_key_self; [exact Hed|]. intros k v Hk.
    rewrite lookup_empty in Hk. discriminate. }
  assert (forall n lbl p, endpoint_label g key ed n = Some lbl ->
                          endpoint_geom g key kd n = Some p ->
                          is_Some (label_geom g key kd lbl)) as Hres.
  { intros n lbl p Hl (k & Hk & Hp)%endpoint_geom_Some.
    unfold endpoint_label in Hl. rewrite Hk in Hl. apply Hself in Hl as ->.
    exists p. apply label_geom_Some. split; [|exact Hp].
    assert (n ∈ matching g key k) as Hn; [|intros Hm; rewrite Hm in Hn; inversion Hn].
    apply matching_elem. split; [|exact Hk].
    apply key_of_Some in Hk as (a & Ha & _). apply get_is_Some.
    revert Ha. unfold node_attrs. destruct (PyDict.get n (_node g)); [eauto | discriminate]. }
  eapply Forall2_Forall_r; [exact HT|]. apply Forall_forall.
  intros e _ row (lu & lv & pu & pv & Hlu & Hlv & Hpu & Hpv & ->).
  exists lu, lv. unfold endpoint_row.
  split; [rewrite !lookup_insert_ne by discriminate; apply lookup_singleton_eq|].
  split; [rewrite lookup_insert_ne by discriminate; apply lookup_insert_eq|].
  split; eapply Hres; eassumption.
Qed.

(** From graph to shared boundaries: the table of [edges_to_gdf_endpoints]
    goes through [shared_boundaries_gdf], which returns one row per edge. *)
Lemma shared_boundaries_of_edge_table g shp key kd ed :
  index_rows2 key key ∅ ∅ (df_rows shp) = Ok (kd, ed) ->
  keyed g key ->
  Forall (λ e, is_Some (endpoint_geom g key kd e.1)
               /\ is_Some (endpoint_geom g key kd e.2)) (edges g) ->
  edges g ≠ [] ->
  exists t out,
    edges_to_gdf_endpoints centroid LineString g shp key key = Ok t
    /\ shared_boundaries_gdf intersection g t shp key = Ok out
    /\ length (df_rows out) = length (edges g).
Proof.
  intros Hi Hk Hg Hne.
  destruct (edge_table_labels_resolve g shp key kd ed Hi Hg Hne)
    as (t & Ht & Hlen & Hcu & Hcv & Hrows).
  pose proof (index_rows2_key_dict _ _ _ _ _ Hi) as Hkd.
  destruct (shared_boundaries_gdf_spec intersection g t shp key kd
              Hkd Hk Hcu Hcv Hrows) as (out & Hout & _ & HO).
  exists t, out. split; [exact Ht|]. split; [exact Hout|].
  rewrite <- Hlen. symmetry. eapply Forall2_length, HO.
Qed.
End boundaries_claims.

Lemma shared_boundaries_gdf_rows_witness :
  exists out eu ev,
    shared_boundaries_gdf shape_inter path_graph path_edges squares "GEOID10" = Ok out
    /\ length (df_rows out) = length (df_rows path_edges)
    /\ column path_edges "endpoint_u" = Ok eu /\ column out "endpoint_u" = Ok eu
    /\ column path_edges "endpoint_v" = Ok ev /\ column out "endpoint_v" = Ok ev
    /\ Forall2 (λ r o : gmap string (pyval shape), exists u v pu pv,
                   r !! "endpoint_u" = Some u /\ r !! "endpoint_v" = Some v
                   /\ label_geom path_graph "GEOID10" squares_index u = Some pu
                   /\ label_geom path_graph "GEOID10" squares_index v = Some pv
                   /\ o !! "geometry" = Some (VGeom (shape_inter pu pv)))
         (df_rows path_edges) (df_rows out).
Proof.
  apply (shared_boundaries_gdf_rows shape_inter path_graph path_edges squares
           "GEOID10" squares_index).
  - vm_compute. reflexivity.
  - exact path_graph_keyed.
  - vm_compute. set_solver.
  - vm_compute. set_solver.
  - repeat constructor.
    + exists (str "1"), (str "2").
      repeat split; try (eexists; vm_compute; reflexivity); vm_compute; reflexivity.
    + exists (str "2"), (str "3").
      repeat split; try (eexists; vm_compute; reflexivity); vm_compute; reflexivity.
Defined.

(** The edge table of the three squares, and the boundaries its edges
    cross: the two vertices each pair of neighbouring squares share. *)
Example edges_to_gdf_endpoints_three_squares :
  edges_to_gdf_endpoints shape_centroid shape_line path_graph squares
    "GEOID10" "GEOID10" = Ok path_edges.
Proof. vm_compute. reflexivity. Qed.

Example shared_boundaries_three_squares :
  shared_boundaries_gdf shape_inter path_graph path_edges squares "GEOID10"
  = Ok {| df_columns := ["geometry"; "endpoint_u"; "endpoint_v"];
          df_rows := [ <["endpoint_v" := str "2"]>
                         (<["endpoint_u" := str "1"]>
                            {["geometry" := VGeom [(2, 0); (2, 2)]]});
                       <["endpoint_v" := str "3"]>
                         (<["endpoint_u" := str "2"]>
                            {["geometry" := VGeom [(4, 0); (4, 2)]]}) ];
          df_crs := Some (str "EPSG:4326") |}.
Proof. vm_compute. reflexivity. Qed.

(** ** EdgeAnnotator *)

Section annotator.
Context {geom : Type} `{Countable geom}.
Implicit Types (df : DataFrame geom) (col c : string) (val u v : pyval geom).
Implicit Types (r : gmap string (pyval geom)).
Implicit Types (rows : list (gmap string (pyval geom))).

Lemma eq_and_eq_spec c1 c2 u v rows s1 s2 :
  Forall2 (λ r x, r !! c1 = Some x) rows s1 ->
  Forall2 (λ r y, r !! c2 = Some y) rows s2 ->
  Forall2 (λ r (b : bool),
             b = bool_decide (r !! c1 = Some u /\ r !! c2 = Some v))
    rows (eq_and_eq s1 u s2 v).
Proof.
  intros H1 H2. unfold eq_and_eq.
  eapply (Forall2_zip_with_r
            (λ r (b : bool), exists x, r !! c1 = Some x /\ b = bool_decide (x = u))
            (λ r (b : bool), exists y, r !! c2 = Some y /\ b = bool_decide (y = v))).
  - apply Forall2_fmap_r. eapply Forall2_impl; [exact H1|]. eauto.
  - apply Forall2_fmap_r. eapply Forall2_impl; [exact H2|]. eauto.
  - intros r ? ? (x & Hx & ->) (y & Hy & ->). rewrite Hx, Hy.
    destruct (decide (x = u)) as [->|Hxu], (decide (y = v)) as [->|Hyv].
    + rewrite !bool_decide_eq_true_2; auto.
    + rewrite (bool_decide_eq_false_2 (y = v)) by exact Hyv.
      rewrite andb_false_r. symmetry. apply bool_decide_eq_false_2.
      intros [_ [=]]. congruence.
    + rewrite (bool_decide_eq_false_2 (x = u)) by exact Hxu.
      symmetry. apply bool_decide_eq_false_2. intros [[=] _]. congruence.
    + rewrite (bool_decide_eq_false_2 (x = u)) by exact Hxu.
      symmetry. apply bool_decide_eq_false_2. intros [[=] _]. congruence.
Qed.

Lemma loc_set_rows (P : gmap string (pyval geom) -> Prop)
    `{!forall r, Decision (P r)} col val rows mask :
  Forall2 (λ r (b : bool), b = bool_decide (P r)) rows mask ->
  zip_with (λ (b : bool) r, if b then <[col := val]> r else r) mask rows
  = (λ r, if decide (P r) then <[col := val]> r else r) <$> rows.
Proof.
  induction 1 as [|r b rows mask -> _ IH]; simpl; [reflexivity|].
  rewrite IH. f_equal. destruct (decide (P r)) as [Hp|Hp].
  - rewrite bool_decide_eq_true_2 by exact Hp. reflexivity.
  - rewrite bool_decide_eq_false_2 by exact Hp. reflexivity.
Qed.

Lemma has_column_insert df c col val (f : gmap string (pyval geom) -> Prop)
    `{!forall r, Decision (f r)} :
  Forall (λ r, is_Some (r !! c)) (df_rows df) ->
  Forall (λ r, is_Some (r !! c))
    ((λ r, if decide (f r) then <[col := val]> r else r) <$> df_rows df).
Proof.
  intros Hc. apply Forall_fmap. eapply Forall_impl; [exact Hc|].
  intros r [x Hx]; simpl. case_decide; [|eauto].
  destruct (decide (col = c)) as [->|Hne].
  - rewrite lookup_insert_eq. eauto.
  - rewrite lookup_insert_ne by exact Hne. eauto.
Qed.

(** One turn of the loop, row by row. *)
Lemma mark_pair_spec col val df uv :
  "endpoint_u" ∈ df_columns df -> "endpoint_v" ∈ df_columns df ->
  has_column df "endpoint_u" -> has_column df "endpoint_v" ->
  mark_pair col val df uv
  = Ok {| df_columns := df_columns df;
          df_rows := (λ r, mark_row col val r uv) <$> df_rows df;
          df_crs := df_crs df |}.
Proof.
  intros Hcu Hcv Hu Hv. destruct uv as [u v]. unfold mark_pair.
  destruct (column_spec df "endpoint_u" Hcu Hu) as (eu & -> & HU).
  destruct (column_spec df "endpoint_v" Hcv Hv) as (ev & -> & HV).
  simpl.
  set (df1 := {| df_columns := df_columns df;
                 df_rows := (λ r, if decide (stored_as r u v)
                                  then <[col := val]> r else r) <$> df_rows df;
                 df_crs := df_crs df |}).
  assert (loc_set (eq_and_eq eu u ev v) col val df = df1) as ->.
  { unfold loc_set, df1. f_equal.
    apply (loc_set_rows (λ r, stored_as r u v)), eq_and_eq_spec; assumption. }
  destruct (column_spec df1 "endpoint_v" Hcv) as (ev1 & -> & HV1).
  { apply has_column_insert, Hv. }
  destruct (column_spec df1 "endpoint_u" Hcu) as (eu1 & -> & HU1).
  { apply has_column_insert, Hu. }
  simpl. unfold loc_set; simpl. f_equal. f_equal.
  rewrite (loc_set_rows (λ r, r !! "endpoint_v" = Some u /\ r !! "endpoint_u" = Some u))
    by (apply eq_and_eq_spec; assumption).
  rewrite <- list_fmap_compose. reflexivity.
Qed.

Lemma mark_row_has_column col val r uv c :
  is_Some (r !! c) -> is_Some (mark_row col val r uv !! c).
Proof.
  intros Hc. unfold mark_row.
  assert (forall r', is_Some (r' !! c) -> is_Some (<[col := val]> r' !! c)) as Hi.
  { intros r' [x Hx]. destruct (decide (col = c)) as [->|Hne].
    - rewrite lookup_insert_eq. eauto.
    - rewrite lookup_insert_ne by exact Hne. eauto. }
  repeat case_decide; auto.
Qed.

(** The whole loop, row by row. *)
Lemma mark_loop_spec col df marks :
  "endpoint_u" ∈ df_columns df -> "endpoint_v" ∈ df_columns df ->
  has_column df "endpoint_u" -> has_column df "endpoint_v" ->
  mark_loop col df marks
  = Ok {| df_columns := df_columns df;
          df_rows := (λ r, foldl (λ r m, mark_row col m.2 r m.1) r marks)
                       <$> df_rows df;
          df_crs := df_crs df |}.
Proof.
  revert df. induction marks as [|[uv val] marks IH]; intros df Hcu Hcv Hu Hv.
  - simpl. rewrite list_fmap_id. destruct df; reflexivity.
  - simpl. rewrite mark_pair_spec by assumption. simpl.
    rewrite IH; simpl; try assumption.
    + rewrite <- list_fmap_compose. reflexivity.
    + apply Forall_fmap. eapply Forall_impl; [exact Hu|].
      intros r; simpl. apply mark_row_has_column.
    + apply Forall_fmap. eapply Forall_impl; [exact Hv|].
      intros r; simpl. apply mark_row_has_column.
Qed.

Lemma init_column_rows df col :
  df_rows (init_column col df) = init_row df col <$> df_rows df.
Proof.
  unfold init_column, init_row. case_decide; simpl; [|reflexivity].
  rewrite list_fmap_id. reflexivity.
Qed.

Lemma init_column_columns df col c :
  c ∈ df_columns df -> c ∈ df_columns (init_column col df).
Proof.
  unfold init_column. case_decide; [tauto|]. simpl.
  rewrite decide_False by assumption. intros Hc. apply elem_of_app. auto.
Qed.

Lemma init_row_has_column df col r c :
  is_Some (r !! c) -> is_Some (init_row df col r !! c).
Proof.
  unfold init_row. case_decide; [tauto|]. intros [x Hx].
  destruct (decide (col = c)) as [->|Hne].
  - rewrite lookup_insert_eq. eauto.
  - rewrite lookup_insert_ne by exact Hne. eauto.
Qed.

(** [mark_edges] on a table with both endpoint columns: it returns, and
    every row is the row it was, initialised and then taken through the
    marks in order. *)
Lemma mark_edges_spec df marks col val :
  "endpoint_u" ∈ df_columns df -> "endpoint_v" ∈ df_columns df ->
  has_column df "endpoint_u" -> has_column df "endpoint_v" ->
  exists t, mark_edges df marks col val = Ok t
            /\ df_columns t = df_columns (init_column col df)
            /\ df_rows t = (λ r, foldl (mark_row col val) (init_row df col r) marks)
                           <$> df_rows df.
Proof.
  intros Hcu Hcv Hu Hv. unfold mark_edges.
  rewrite mark_loop_spec.
  - eexists. split; [reflexivity|]. simpl. split; [reflexivity|].
    rewrite init_column_rows, <- list_fmap_compose.
    apply list_fmap_ext. intros _ r _; simpl.
    generalize (init_row df col r). clear.
    induction marks as [|uv marks IH]; intros r0; simpl; [reflexivity|apply IH].
  - apply init_column_columns, Hcu.
  - apply init_column_columns, Hcv.
  - unfold has_column. rewrite init_column_rows. apply Forall_fmap.
    eapply Forall_impl; [exact Hu|]. intros r; simpl. apply init_row_has_column.
  - unfold has_column. rewrite init_column_rows. apply Forall_fmap.
    eapply Forall_impl; [exact Hv|]. intros r; simpl. apply init_row_has_column.
Qed.
End annotator.

Section annotator_cells.
Context {geom : Type} `{Countable geom}.
Implicit Types (df : DataFrame geom) (col c : string) (val u v : pyval geom).
Implicit Types (r : gmap string (pyval geom)) (uv : pyval geom * pyval geom).

(** A row that the masks do not select is left as it is. *)
Lemma mark_row_unselected col val r uv :
  ~ marked_by r uv -> mark_row col val r uv = r.
Proof.
  unfold marked_by, mark_row. intros Hm.
  destruct (decide (stored_as r uv.1 uv.2)) as [Hs|Hs]; [tauto|].
  apply decide_False. unfold stored_as in Hm. tauto.
Qed.

Lemma mark_row_other col val r uv c :
  c ≠ col -> mark_row col val r uv !! c = r !! c.
Proof.
  intros Hc. unfold mark_row.
  repeat case_decide; rewrite ?lookup_insert_ne by congruence; reflexivity.
Qed.

Lemma mark_row_col col val r uv :
  col ≠ "endpoint_u" -> col ≠ "endpoint_v" ->
  mark_row col val r uv !! col
  = if decide (marked_by r uv) then Some val else r !! col.
Proof.
  intros Hu Hv. unfold mark_row.
  destruct (decide (stored_as r uv.1 uv.2)) as [Hs|Hs].
  - rewrite (decide_True (P := marked_by r uv)) by (left; exact Hs).
    case_decide; rewrite ?lookup_insert_eq; reflexivity.
  - case_decide as Hd.
    + rewrite (decide_True (P := marked_by r uv))
        by (right; unfold stored_as; tauto).
      apply lookup_insert_eq.
    + rewrite (decide_False (P := marked_by r uv)); [reflexivity|].
      unfold marked_by, stored_as in *. tauto.
Qed.

Lemma marked_by_ext r r' uv :
  r' !! "endpoint_u" = r !! "endpoint_u" ->
  r' !! "endpoint_v" = r !! "endpoint_v" ->
  marked_by r' uv <-> marked_by r uv.
Proof. unfold marked_by, stored_as. intros -> ->. reflexivity. Qed.

(** The marks in order, on one row: the other columns keep their cells,
    and column [col] holds [val] exactly when some mark selects the row. *)
Lemma foldl_mark_row col val marks r :
  col ≠ "endpoint_u" -> col ≠ "endpoint_v" ->
  (forall c, c ≠ col -> foldl (mark_row col val) r marks !! c = r !! c)
  /\ foldl (mark_row col val) r marks !! col
     = if decide (Exists (marked_by r) marks) then Some val else r !! col.
Proof.
  intros Hu Hv. revert r.
  induction marks as [|uv marks IH]; intros r; cbn [foldl].
  - split; [reflexivity|]. rewrite decide_False; [reflexivity|].
    intros Hex. inversion Hex.
  - destruct (IH (mark_row col val r uv)) as [IHo IHc]. split.
    + intros c Hc. rewrite IHo by exact Hc. apply mark_row_other, Hc.
    + rewrite IHc, mark_row_col by assumption.
      assert (Exists (marked_by (mark_row col val r uv)) marks
              <-> Exists (marked_by r) marks) as Hex.
      { rewrite !Exists_exists. apply exist_proper. intros m.
        rewrite marked_by_ext; [reflexivity| |];
          apply mark_row_other; congruence. }
      destruct (decide (marked_by r uv)) as [Hm|Hm].
      * rewrite (decide_True (P := Exists _ (uv :: marks)))
          by (left; exact Hm).
        case_decide; reflexivity.
      * destruct (decide (Exists (marked_by r) marks)) as [He|He].
        -- rewrite decide_True by (apply Hex, He).
           rewrite decide_True by (right; exact He). reflexivity.
        -- rewrite decide_False by (rewrite Hex; exact He).
           rewrite decide_False; [reflexivity|].
           intros Hc. inversion Hc; subst; tauto.
Qed.

Lemma foldl_mark_row_unselected col val marks r :
  Forall (λ uv, ~ marked_by r uv) marks ->
  foldl (mark_row col val) r marks = r.
Proof.
  induction 1 as [|uv marks Hm _ IH]; simpl; [reflexivity|].
  rewrite mark_row_unselected by exact Hm. exact IH.
Qed.

(** What [mark_edges] does on a table with both endpoint columns, when
    [col] is not one of them: it returns a table with the same number of
    rows, in which every cell outside [col] is what it was, and the cell in
    [col] is [val] for the rows that hold a given pair in the given order
    or hold its first member twice, and otherwise what it was, [0] in a
    new column. *)
Lemma mark_edges_cells df marks col val :
  col ≠ "endpoint_u" -> col ≠ "endpoint_v" ->
  "endpoint_u" ∈ df_columns df -> "endpoint_v" ∈ df_columns df ->
  has_column df "endpoint_u" -> has_column df "endpoint_v" ->
  exists t,
    mark_edges df marks col val = Ok t
    /\ df_columns t = df_columns (init_column col df)
    /\ length (df_rows t) = length (df_rows df)
    /\ Forall2 (λ r r',
                  (forall c, c ≠ col -> r' !! c = r !! c)
                  /\ r' !! col
                     = if decide (Exists (marked_by r) marks) then Some val
                       else if decide (col ∈ df_columns df) then r !! col
                       else Some (VInt 0))
         (df_rows df) (df_rows t).
Proof.
  intros Hu Hv Hcu Hcv Hru Hrv.
  destruct (mark_edges_spec df marks col val Hcu Hcv Hru Hrv)
    as (t & Ht & Hcols & Hrows).
  exists t. split; [exact Ht|]. split; [exact Hcols|]. rewrite Hrows.
  split; [apply length_fmap|].
  apply Forall2_fmap_r, Forall_Forall2_diag, Forall_forall. intros r _.
  destruct (foldl_mark_row col val marks (init_row df col r) Hu Hv) as [Ho Hc].
  assert (forall c, c ≠ col -> init_row df col r !! c = r !! c) as Hi.
  { intros c Hne. unfold init_row.
    destruct (decide (col ∈ df_columns df)); [reflexivity|].
    apply lookup_insert_ne. congruence. }
  split.
  - intros c Hne. rewrite Ho by exact Hne. apply Hi, Hne.
  - rewrite Hc.
    assert (Exists (marked_by (init_row df col r)) marks
            <-> Exists (marked_by r) marks) as Hex.
    { rewrite !Exists_exists. apply exist_proper. intros m.
      rewrite marked_by_ext; [reflexivity| |]; apply Hi; congruence. }
    destruct (decide (Exists (marked_by r) marks)) as [He|He].
    + rewrite decide_True by (apply Hex, He). reflexivity.
    + rewrite decide_False by (rewrite Hex; exact He).
      unfold init_row.
      destruct (decide (col ∈ df_columns df)); [reflexivity | apply lookup_insert_eq].
Qed.
End annotator_cells.

Section annotator_facts.
Context {geom : Type} `{Countable geom}.
Implicit Types (df : DataFrame geom) (col c : string) (val u v : pyval geom).
Implicit Types (r : gmap string (pyval geom)).

(** Rows that hold a given pair in the given order are marked. *)
Lemma mark_edges_stored_order df marks col val u v :
  col ≠ "endpoint_u" -> col ≠ "endpoint_v" ->
  "endpoint_u" ∈ df_columns df -> "endpoint_v" ∈ df_columns df ->
  has_column df "endpoint_u" -> has_column df "endpoint_v" ->
  (u, v) ∈ marks ->
  exists t,
    mark_edges df marks col val = Ok t
    /\ Forall2 (λ r r', stored_as r u v -> r' !! col = Some val)
         (df_rows df) (df_rows t).
Proof.
  intros Hu Hv Hcu Hcv Hru Hrv Hin.
  destruct (mark_edges_cells df marks col val Hu Hv Hcu Hcv Hru Hrv)
    as (t & Ht & _ & _ & HT).
  exists t. split; [exact Ht|]. eapply Forall2_impl; [exact HT|].
  intros r r' [_ Hc] Hs. rewrite Hc. apply decide_True.
  apply Exists_exists. exists (u, v). split; [exact Hin | left; exact Hs].
Qed.

(** Without a selected row, and with [col] already a column, the table
    is returned as it was. *)
Lemma mark_edges_no_selection df marks col val :
  "endpoint_u" ∈ df_columns df -> "endpoint_v" ∈ df_columns df ->
  has_column df "endpoint_u" -> has_column df "endpoint_v" ->
  col ∈ df_columns df ->
  Forall (λ r, Forall (λ uv, ~ marked_by r uv) marks) (df_rows df) ->
  mark_edges df marks col val = Ok df.
Proof.
  intros Hcu Hcv Hru Hrv Hcol Hno.
  destruct (mark_edges_spec df marks col val Hcu Hcv Hru Hrv)
    as (t & Ht & Hcols & Hrows).
  rewrite Ht. f_equal.
  assert (init_column col df = df) as Hinit
    by (unfold init_column; rewrite decide_True by exact Hcol; reflexivity).
  assert (df_crs t = df_crs df) as Hcrs.
  { revert Ht. unfold mark_edges. rewrite Hinit.
    rewrite mark_loop_spec by assumption. intros [= <-]. reflexivity. }
  rewrite Hinit in Hcols.
  assert (df_rows t = df_rows df) as Hr.
  { rewrite Hrows. rewrite <- (list_fmap_id (df_rows df)) at 2.
    apply Forall_fmap_ext. eapply Forall_impl; [exact Hno|].
    intros r Hr; simpl. unfold init_row. rewrite decide_True by exact Hcol.
    apply foldl_mark_row_unselected, Hr. }
  destruct t, df; simpl in *; congruence.
Qed.

(** Marking one pair twice: the rows the masks select hold the second
    value afterwards. *)
Lemma mark_edges_last_write_wins df col val1 val2 u v :
  col ≠ "endpoint_u" -> col ≠ "endpoint_v" ->
  "endpoint_u" ∈ df_columns df -> "endpoint_v" ∈ df_columns df ->
  has_column df "endpoint_u" -> has_column df "endpoint_v" ->
  exists t1 t2,
    mark_edges df [(u, v)] col val1 = Ok t1
    /\ mark_edges t1 [(u, v)] col val2 = Ok t2
    /\ length (df_rows t2) = length (df_rows df)
    /\ Forall2 (λ r r2, marked_by r (u, v) -> r2 !! col = Some val2)
         (df_rows df) (df_rows t2).
Proof.
  intros Hu Hv Hcu Hcv Hru Hrv.
  destruct (mark_edges_cells df [(u, v)] col val1 Hu Hv Hcu Hcv Hru Hrv)
    as (t1 & Ht1 & Hcols1 & Hlen1 & HT1).
  destruct (mark_edges_cells t1 [(u, v)] col val2 Hu Hv)
    as (t2 & Ht2 & _ & Hlen2 & HT2).
  { rewrite Hcols1. apply init_column_columns, Hcu. }
  { rewrite Hcols1. apply init_column_columns, Hcv. }
  { unfold has_column. eapply Forall2_Forall_r; [exact HT1|].
    eapply Forall_impl; [exact Hru|]. intros r Hr r' [Ho _].
    rewrite Ho by congruence. exact Hr. }
  { unfold has_column. eapply Forall2_Forall_r; [exact HT1|].
    eapply Forall_impl; [exact Hrv|]. intros r Hr r' [Ho _].
    rewrite Ho by congruence. exact Hr. }
  exists t1, t2. split; [exact Ht1|]. split; [exact Ht2|].
  split; [congruence|].
  eapply Forall2_trans; [|exact HT1|exact HT2].
  intros r r1 r2 [Ho1 _] [_ Hc2] Hm. rewrite Hc2. apply decide_True.
  left. eapply marked_by_ext; [| |exact Hm]; apply Ho1; congruence.
Qed.
End annotator_facts.

(** C1 at the edge table of the three squares.  Its first row holds
    ("1", "2"), so it matches the pair ("2", "1") in the reversed order,
    and [mark_edges] with that pair leaves the new column at 0 in every row;
    so does [mark_edges_dict].  With the pair in the stored order the row
    is marked. *)
Theorem mark_edges_misses_reversed_pair :
  Forall2 (λ (r : gmap string (pyval shape)) (m : bool),
             bool_decide (matches_pair r (str "2") (str "1")) = m)
    (df_rows path_edges) [true; false]
  /\ mark_edges path_edges [(str "2", str "1")] "marked" (int 1)
     = Ok (path_edges_marked 0 0)
  /\ mark_edges_dict path_edges [((str "2", str "1"), int 1)] "marked"
     = Ok (path_edges_marked 0 0)
  /\ mark_edges path_edges [(str "1", str "2")] "marked" (int 1)
     = Ok (path_edges_marked 1 0).
Proof.
  split; [repeat constructor|]; repeat split; vm_compute; reflexivity.
Qed.

(** C7 at two edge tables.  In the table of [counties] labelled by county,
    no row matches the pair ("X", "Z") in either order, and [mark_edges]
    with that pair changes the cell of the first row, which holds
    ("X", "X"), from 0 to 1; the table is the one [edges_to_gdf_endpoints]
    and a first, empty call of [mark_edges] produce.  In the table of the
    three squares, the first row matches the pair ("2", "1") in the
    reversed order, and after marking that pair with 1 and then with 2 its
    cell holds neither value. *)
Theorem mark_edges_marks_unmatched_pair :
  (exists t, edges_to_gdf_endpoints shape_centroid shape_line counties county_squares
               "COUNTY" "GEOID10" = Ok t
             /\ mark_edges t [] "marked" (int 1) = Ok (county_edges 0 0))
  /\ Forall (λ r : gmap string (pyval shape), ~ matches_pair r (str "X") (str "Z"))
       (df_rows (county_edges 0 0))
  /\ mark_edges (county_edges 0 0) [(str "X", str "Z")] "marked" (int 1)
     = Ok (county_edges 1 0)
  /\ Exists (λ r : gmap string (pyval shape), matches_pair r (str "2") (str "1"))
       (df_rows path_edges)
  /\ mark_edges path_edges [(str "2", str "1")] "marked" (int 1)
     = Ok (path_edges_marked 0 0)
  /\ mark_edges (path_edges_marked 0 0) [(str "2", str "1")] "marked" (int 2)
     = Ok (path_edges_marked 0 0).
Proof.
  split; [|split; [|split; [|split; [|split]]]].
  - eexists. split; vm_compute; reflexivity.
  - apply (bool_decide_unpack _). vm_compute. exact I.
  - vm_compute. reflexivity.
  - apply (bool_decide_unpack _). vm_compute. exact I.
  - vm_compute. reflexivity.
  - vm_compute. reflexivity.
Qed.

(** * Further properties of the code *)

(** ** NodeLookup: what a result of the scan means *)

Section lookup_more.
Context {geom : Type} `{Countable geom}.
Implicit Types (g : Graph geom) (n t : pyval geom) (key : string).

Lemma scan_nodes_Ok g key t ns n :
  scan_nodes t g key ns = Ok n ->
  (exists rest, filter (λ m, key_of g key m = Some t) ns = n :: rest
                /\ key_of g key n = Some t)
  \/ (n = NotFound
      /\ filter (λ m, key_of g key m = Some t) ns = []
      /\ Forall (λ m, is_Some (key_of g key m)) ns).
Proof.
  induction ns as [|m ns IH]; simpl.
  - intros [= <-]. right. rewrite filter_nil. auto.
  - intros Hs. apply bind_Ok in Hs as (a & Ha & Hs).
    apply bind_Ok in Hs as (x & Hx & Hs). apply subscript_Ok in Hx.
    assert (key_of g key m = Some x) as Hm by (apply key_of_Some; eauto).
    rewrite filter_cons. destruct (decide (x = t)) as [->|Hne].
    + injection Hs as <-. left. rewrite decide_True by exact Hm. eauto.
    + rewrite decide_False by congruence.
      destruct (IH Hs) as [Hl|(-> & Hf & Hk)]; [left; exact Hl|].
      right. split; [reflexivity|]. split; [exact Hf|].
      constructor; [eauto | exact Hk].
Qed.

Lemma scan_nodes_Err g key t ns e :
  scan_nodes t g key ns = Err e ->
  e = KeyError
  /\ exists pre n post,
       ns = pre ++ n :: post
       /\ Forall (λ m, is_Some (key_of g key m)) pre
       /\ Forall (λ m, key_of g key m ≠ Some t) pre
       /\ key_of g key n = None.
Proof.
  induction ns as [|m ns IH]; [intros [=]|].
  destruct (key_of g key m) as [x|] eqn:Hm.
  - destruct (decide (x = t)) as [->|Hne].
    + rewrite (scan_cons_hit g key t m ns Hm). intros [=].
    + rewrite (scan_cons_miss g key t m x ns Hm Hne).
      intros (-> & pre & n & post & -> & Hk & Hmiss & Hn)%IH.
      split; [reflexivity|]. exists (m :: pre), n, post.
      split; [reflexivity|]. split; [constructor; eauto|].
      split; [constructor; [congruence | exact Hmiss] | exact Hn].
  - rewrite (scan_cons_bare g key t m ns Hm). intros [= <-].
    split; [reflexivity|].
    exists [], m, ns. repeat split; try constructor. exact Hm.
Qed.

(** X1.  Whenever [find_node_by_key] returns, it returns the first node, in
    iteration order, whose key attribute equals the target, or else the
    sentinel [-1], and the sentinel only when no node has the target value
    and every node carries the key attribute. *)
Theorem find_node_by_key_returns g key t n :
  find_node_by_key t g key = Ok n ->
  (exists rest, matching g key t = n :: rest
                /\ n ∈ nodes g /\ key_of g key n = Some t)
  \/ (n = NotFound /\ matching g key t = [] /\ keyed g key).
Proof.
  unfold find_node_by_key, matching, keyed.
  intros [(rest & Hf & Hn)|Hr]%scan_nodes_Ok; [left|right; exact Hr].
  exists rest. split; [exact Hf|]. split; [|exact Hn].
  assert (n ∈ filter (λ m, key_of g key m = Some t) (nodes g)) as Hin
    by (rewrite Hf; left).
  apply list_elem_of_filter in Hin as [_ Hin]. exact Hin.
Qed.

(** X2.  The only error of [find_node_by_key] is [KeyError], and it is
    raised exactly when the scan meets a node without the key attribute
    before it meets a node with the target value. *)
Theorem find_node_by_key_raises g key t e :
  find_node_by_key t g key = Err e <->
  e = KeyError
  /\ exists pre n post,
       nodes g = pre ++ n :: post
       /\ Forall (λ m, is_Some (key_of g key m)) pre
       /\ Forall (λ m, key_of g key m ≠ Some t) pre
       /\ key_of g key n = None.
Proof.
  split.
  - unfold find_node_by_key. apply scan_nodes_Err.
  - intros (-> & pre & n & post & Hn & Hk & Hm & Hbare).
    eapply find_bare_node; eassumption.
Qed.
End lookup_more.

Lemma find_node_by_key_returns_witness :
  (exists rest, matching twins "GEOID10" (str "a") = int 1 :: rest
                /\ int 1 ∈ nodes twins
                /\ key_of twins "GEOID10" (int 1) = Some (str "a"))
  \/ (int 1 = NotFound /\ matching twins "GEOID10" (str "a") = []
      /\ keyed twins "GEOID10").
Proof.
  apply (find_node_by_key_returns twins "GEOID10" (str "a") (int 1)).
  reflexivity.
Defined.

(** ** EdgeFeatureEditor: what the two operations do to the graph *)

Section editor_more.
Context {geom : Type} `{Countable geom}.
Implicit Types (g : Graph geom) (u v x y n t : pyval geom) (key : string).

Lemma add_edge_existing u v g :
  wf_graph g -> has_edge g u v = true -> add_edge u v g = g.
Proof.
  intros Hwf Hv%bool_decide_eq_true.
  pose proof (wf_graph_sym g u v Hwf Hv) as Hu.
  pose proof (neighbors_nodes g u v Hwf Hv) as Hnu.
  pose proof (neighbors_nodes g v u Hwf Hu) as Hnv.
  unfold add_edge.
  rewrite (add_node_if_missing_id u) by exact Hnu.
  rewrite (add_node_if_missing_id v) by exact Hnv.
  revert Hv Hu. unfold neighbors.
  destruct (PyDict.get u (_adj g)) as [nbu|] eqn:Hgu; simpl; [|inversion 1].
  destruct (PyDict.get v (_adj g)) as [nbv|] eqn:Hgv; simpl; [|inversion 2].
  intros Hv Hu.
  assert (adj_insert u v (_adj g) = _adj g) as ->.
  { unfold adj_insert. rewrite Hgu; simpl. rewrite decide_True by exact Hv.
    apply set_id, Hgu. }
  assert (adj_insert v u (_adj g) = _adj g) as ->.
  { unfold adj_insert. rewrite Hgv; simpl. rewrite decide_True by exact Hu.
    apply set_id, Hgv. }
  destruct g; reflexivity.
Qed.

Lemma remove_edge_node u v g g' : remove_edge u v g = Ok g' -> _node g' = _node g.
Proof.
  unfold remove_edge. destruct (adj_delete u v (_adj g)); [|intros [=]].
  destruct (decide (u = v)); [intros [= <-]; reflexivity|].
  destruct (adj_delete v u _); intros [= <-]. reflexivity.
Qed.

Lemma has_edge_neighbors g x y : has_edge g x y = true <-> y ∈ neighbors g x.
Proof. unfold has_edge. apply bool_decide_eq_true. Qed.

(** X3.  Adding by feature an edge that the graph already has returns the
    graph as it is: no second entry, no change of order. *)
Theorem add_edge_by_feature_existing g u_key v_key key u v :
  wf_graph g ->
  find_node_by_key u_key g key = Ok u ->
  find_node_by_key v_key g key = Ok v ->
  has_edge g u v = true ->
  add_edge_by_feature g u_key v_key key = Ok g.
Proof.
  intros Hwf Hu Hv He. unfold add_edge_by_feature. rewrite Hu, Hv; simpl.
  f_equal. apply add_edge_existing; assumption.
Qed.

(** X4.  When both lookups return, [add_edge_by_feature] returns a graph
    that satisfies the invariant of [networkx.Graph] again, whose adjacency
    is that of the original graph with the one edge between the two values
    returned added in both directions, and whose nodes and attributes are
    unchanged when both values were nodes already. *)
Theorem add_edge_by_feature_adds_one_edge g u_key v_key key u v :
  wf_graph g ->
  find_node_by_key u_key g key = Ok u ->
  find_node_by_key v_key g key = Ok v ->
  exists g',
    add_edge_by_feature g u_key v_key key = Ok g'
    /\ wf_graph g'
    /\ (forall x y, y ∈ neighbors g' x
                    <-> y ∈ neighbors g x \/ (x = u /\ y = v) \/ (x = v /\ y = u))
    /\ (u ∈ nodes g -> v ∈ nodes g -> _node g' = _node g).
Proof.
  intros Hwf Hu Hv. exists (add_edge u v g).
  unfold add_edge_by_feature. rewrite Hu, Hv; simpl.
  split; [reflexivity|]. split; [apply wf_graph_add_edge, Hwf|].
  split; [intros x y; apply elem_neighbors_add_edge, Hwf|].
  apply add_edge_known_nodes.
Qed.

(** X5.  When both lookups return and an edge joins the two values
    returned, [remove_edge_by_feature] returns a graph that satisfies the
    invariant again, with the same nodes and attributes, whose adjacency is
    that of the original graph without that one edge, in both directions. *)
Theorem remove_edge_by_feature_removes_one_edge g u_key v_key key u v :
  wf_graph g ->
  find_node_by_key u_key g key = Ok u ->
  find_node_by_key v_key g key = Ok v ->
  has_edge g u v = true ->
  exists g',
    remove_edge_by_feature g u_key v_key key = Ok g'
    /\ wf_graph g'
    /\ _node g' = _node g
    /\ (forall x y, y ∈ neighbors g' x
                    <-> y ∈ neighbors g x /\ ~ (x = u /\ y = v) /\ ~ (x = v /\ y = u)).
Proof.
  intros Hwf Hu Hv He.
  destruct (remove_edge_has_edge u v g Hwf He) as [g' Hg'].
  exists g'. unfold remove_edge_by_feature. rewrite Hu, Hv; simpl.
  split; [exact Hg'|].
  destruct (wf_graph_remove_edge u v g g' Hwf Hg') as [Hwf' Hnb].
  split; [exact Hwf'|]. split; [eapply remove_edge_node; exact Hg' | exact Hnb].
Qed.

(** X6.  Removing an existing edge by feature and adding it again by
    feature both return and give a graph with the same nodes and the same
    edges as a set: [has_edge] answers as before for every pair.  (The
    adjacency order, and with it the order of [list(graph.edges)], need not
    come back: the edge is now the last entry of both endpoints.) *)
Theorem remove_then_add_edge_by_feature g u_key v_key key u v :
  wf_graph g ->
  find_node_by_key u_key g key = Ok u ->
  find_node_by_key v_key g key = Ok v ->
  has_edge g u v = true ->
  exists g1 g2,
    remove_edge_by_feature g u_key v_key key = Ok g1
    /\ add_edge_by_feature g1 u_key v_key key = Ok g2
    /\ wf_graph g2
    /\ _node g2 = _node g
    /\ (forall x y, has_edge g2 x y = has_edge g x y).
Proof.
  intros Hwf Hu Hv He.
  destruct (remove_edge_has_edge u v g Hwf He) as [g1 Hg1].
  destruct (wf_graph_remove_edge u v g g1 Hwf Hg1) as [Hwf1 Hnb1].
  pose proof (remove_edge_node u v g g1 Hg1) as Hn1.
  apply has_edge_neighbors in He as Huv.
  pose proof (wf_graph_sym g u v Hwf Huv) as Hvu.
  assert (u ∈ nodes g1 /\ v ∈ nodes g1) as [Hnu Hnv].
  { unfold nodes. rewrite Hn1. split; eapply neighbors_nodes; eassumption. }
  exists g1, (add_edge u v g1).
  split; [unfold remove_edge_by_feature; rewrite Hu, Hv; exact Hg1|].
  split.
  { unfold add_edge_by_feature.
    rewrite !(find_node_by_key_node g g1) by exact Hn1.
    rewrite Hu, Hv. reflexivity. }
  split; [apply wf_graph_add_edge, Hwf1|].
  split; [rewrite add_edge_known_nodes by assumption; exact Hn1|].
  intros x y. apply eq_true_iff_eq. rewrite !has_edge_neighbors.
  rewrite elem_neighbors_add_edge by exact Hwf1. rewrite Hnb1.
  split.
  - intros [[Hy _]|[[-> ->]|[-> ->]]]; assumption.
  - intros Hy.
    destruct (decide (x = u /\ y = v)) as [?|H1]; [tauto|].
    destruct (decide (x = v /\ y = u)) as [?|H2]; tauto.
Qed.
End editor_more.

(** A star whose centre 0 is joined to 1 before 2. *)
Example remove_then_add_changes_order :
  let g := {| _node := [(int 0, {["GEOID10" := str "1"]});
                        (int 1, {["GEOID10" := str "2"]});
                        (int 2, {["GEOID10" := str "3"]})];
              _adj := [(int 0, [int 1; int 2]); (int 1, [int 0]); (int 2, [int 0])] |} in
  edges g = [(int 0, int 1); (int 0, int 2)]
  /\ exists g1 g2,
       remove_edge_by_feature g (str "1") (str "2") "GEOID10" = Ok g1
       /\ add_edge_by_feature g1 (str "1") (str "2") "GEOID10" = Ok g2
       /\ edges g2 = [(int 0, int 2); (int 0, int 1)].
Proof.
  split; [reflexivity|]. eexists. eexists.
  split; [vm_compute; reflexivity|]. split; vm_compute; reflexivity.
Qed.

Lemma add_edge_by_feature_existing_witness :
  add_edge_by_feature path_graph (str "1") (str "2") "GEOID10" = Ok path_graph.
Proof.
  apply (add_edge_by_feature_existing path_graph (str "1") (str "2") "GEOID10"
           (int 0) (int 1)).
  - apply (bool_decide_unpack _). vm_compute. exact I.
  - vm_compute. reflexivity.
  - vm_compute. reflexivity.
  - vm_compute. reflexivity.
Defined.

Lemma add_edge_by_feature_adds_one_edge_witness :
  exists g',
    add_edge_by_feature path_graph (str "1") (str "3") "GEOID10" = Ok g'
    /\ wf_graph g'
    /\ (forall x y, y ∈ neighbors g' x
                    <-> y ∈ neighbors path_graph x
                        \/ (x = int 0 /\ y = int 2) \/ (x = int 2 /\ y = int 0))
    /\ (int 0 ∈ nodes path_graph -> int 2 ∈ nodes path_graph
        -> _node g' = _node path_graph).
Proof.
  apply (add_edge_by_feature_adds_one_edge path_graph (str "1") (str "3") "GEOID10"
           (int 0) (int 2)).
  - apply (bool_decide_unpack _). vm_compute. exact I.
  - vm_compute. reflexivity.
  - vm_compute. reflexivity.
Defined.

Lemma remove_edge_by_feature_removes_one_edge_witness :
  exists g',
    remove_edge_by_feature path_graph (str "1") (str "2") "GEOID10" = Ok g'
    /\ wf_graph g'
    /\ _node g' = _node path_graph
    /\ (forall x y, y ∈ neighbors g' x
                    <-> y ∈ neighbors path_graph x
                        /\ ~ (x = int 0 /\ y = int 1) /\ ~ (x = int 1 /\ y = int 0)).
Proof.
  apply (remove_edge_by_feature_removes_one_edge path_graph (str "1") (str "2")
           "GEOID10" (int 0) (int 1)).
  - apply (bool_decide_unpack _). vm_compute. exact I.
  - vm_compute. reflexivity.
  - vm_compute. reflexivity.
  - vm_compute. reflexivity.
Defined.

Lemma remove_then_add_edge_by_feature_witness :
  exists g1 g2,
    remove_edge_by_feature path_graph (str "1") (str "2") "GEOID10" = Ok g1
    /\ add_edge_by_feature g1 (str "1") (str "2") "GEOID10" = Ok g2
    /\ wf_graph g2
    /\ _node g2 = _node path_graph
    /\ (forall x y, has_edge g2 x y = has_edge path_graph x y).
Proof.
  apply (remove_then_add_edge_by_feature path_graph (str "1") (str "2") "GEOID10"
           (int 0) (int 1)).
  - apply (bool_decide_unpack _). vm_compute. exact I.
  - vm_compute. reflexivity.
  - vm_compute. reflexivity.
  - vm_compute. reflexivity.
Defined.

(** ** The node left behind by an unknown key *)

Section sentinel_node.
Context {geom : Type} `{Countable geom}.
Implicit Types (g : Graph geom) (u v x y n t s : pyval geom) (key : string).

Lemma key_of_node g g' key n :
  _node g' = _node g -> key_of g' key n = key_of g key n.
Proof. unfold key_of, node_attrs. intros ->. reflexivity. Qed.

Lemma node_add_edge_sentinel u v g s :
  s ∉ nodes g ->
  u = s \/ u ∈ nodes g -> v = s \/ v ∈ nodes g -> u = s \/ v = s ->
  _node (add_edge u v g) = _node g ++ [(s, ∅)].
Proof.
  intros Hs Hu Hv Huv. unfold add_edge; simpl.
  assert (forall g0, _node g0 = _node g ++ [(s, ∅)] ->
                     forall w, w = s \/ w ∈ nodes g ->
                     _node (add_node_if_missing w g0) = _node g ++ [(s, ∅)]) as Hkeep.
  { intros g0 Hg0 w Hw. rewrite add_node_if_missing_id; [exact Hg0|].
    unfold nodes, PyDict.keys. rewrite Hg0, fmap_app. apply elem_of_app.
    destruct Hw as [->|Hw]; [right; left | left; exact Hw]. }
  assert (_node (add_node_if_missing s g) = _node g ++ [(s, ∅)]) as Hnew.
  { unfold add_node_if_missing. rewrite decide_False by exact Hs. reflexivity. }
  destruct Hu as [->|Hu].
  - apply Hkeep; [exact Hnew | exact Hv].
  - destruct Huv as [-> | ->]; [apply Hkeep; [exact Hnew | exact Hv]|].
    rewrite (add_node_if_missing_id u) by exact Hu. exact Hnew.
Qed.

Lemma key_of_app_sentinel g g' key s :
  s ∉ nodes g -> _node g' = _node g ++ [(s, ∅)] ->
  key_of g' key s = None
  /\ forall n, n ∈ nodes g -> key_of g' key n = key_of g key n.
Proof.
  intros Hs Hg'. unfold key_of, node_attrs. rewrite Hg'. split.
  - rewrite get_app_r by exact Hs. simpl.
    rewrite decide_True by reflexivity. apply lookup_empty.
  - intros n Hn. rewrite get_app_l by exact Hn. reflexivity.
Qed.
End sentinel_node.

(** ** Errors of a comprehension *)

Lemma mapM_Err_elem {A B} (f : A -> result B) l e :
  mapM f l = Err e -> exists x, x ∈ l /\ f x = Err e.
Proof.
  induction l as [|x l IH]; simpl; [intros [=]|].
  destruct (f x) as [y|e'] eqn:Hx; simpl.
  - destruct (mapM f l) as [k|e'] eqn:Hl; simpl; [intros [=]|].
    intros [= ->]. destruct (IH eq_refl) as (z & Hz & Hfz).
    exists z. split; [right; exact Hz | exact Hfz].
  - intros [= ->]. exists x. split; [left | exact Hx].
Qed.

Lemma pair_mapM_Ok {A B} (f : A -> result B) l k :
  pair_mapM f l = Ok k <-> Forall2 (λ p q, f p.1 = Ok q.1 /\ f p.2 = Ok q.2) l k.
Proof.
  unfold pair_mapM. rewrite mapM_Ok.
  split; intros HF; eapply Forall2_impl; try exact HF; intros [a b] [c d]; simpl.
  - intros (x & Hx & (y & Hy & [= <- <-])%bind_Ok)%bind_Ok. auto.
  - intros [-> ->]. reflexivity.
Qed.

Lemma pair_mapM_Err {A B} (f : A -> result B) l e :
  pair_mapM f l = Err e -> exists p, p ∈ l /\ (f p.1 = Err e \/ f p.2 = Err e).
Proof.
  intros (p & Hp & He)%mapM_Err_elem. exists p. split; [exact Hp|].
  destruct (f p.1); simpl in He; [|left; congruence].
  destruct (f p.2); simpl in He; [discriminate | right; congruence].
Qed.

(** ** What [graph.edges] lists, and the scan over more nodes *)

Section edges_more.
Context {geom : Type} `{Countable geom}.
Implicit Types (g : Graph geom) (u v x y n t s : pyval geom) (key : string).

Lemma edges_from_iff x y seen (adj : list (pyval geom * list (pyval geom))) :
  (x, y) ∈ edges_from seen adj
  <-> exists pre nb post, adj = pre ++ (x, nb) :: post
                          /\ y ∈ nb /\ (y ∉ seen) /\ (y ∉ PyDict.keys pre).
Proof.
  revert seen. induction adj as [|[n nbrs] adj IH]; intros seen; simpl.
  - split; [inversion 1|]. intros (pre & nb & post & Hp & _). destruct pre; discriminate.
  - rewrite elem_of_app, IH. split.
    + intros [Hin|(pre & nb & post & -> & Hy & Hs & Hp)].
      * apply list_elem_of_fmap in Hin as (nbr & [= -> ->] & Hnbr).
        apply list_elem_of_filter in Hnbr as [Hs Hnbr].
        exists [], nbrs, adj. repeat split; try assumption. simpl. apply not_elem_of_nil.
      * exists ((n, nbrs) :: pre), nb, post. split; [reflexivity|].
        split; [exact Hy|]. rewrite not_elem_of_cons in Hs. destruct Hs as [Hyn Hs].
        split; [exact Hs|]. simpl. rewrite not_elem_of_cons. auto.
    + intros (pre & nb & post & Hadj & Hy & Hs & Hp).
      destruct pre as [|p pre]; simpl in *.
      * injection Hadj as -> -> ->. left.
        apply list_elem_of_fmap. exists y. split; [reflexivity|].
        apply list_elem_of_filter. auto.
      * injection Hadj as <- ->. right. exists pre, nb, post.
        rewrite not_elem_of_cons in Hp. destruct Hp as [Hyn Hp]. simpl in Hyn.
        split; [reflexivity|]. split; [exact Hy|].
        split; [|exact Hp]. rewrite not_elem_of_cons. auto.
Qed.

(** Every adjacency is listed by [graph.edges], in one direction. *)
Lemma edges_complete g x y :
  wf_graph g -> y ∈ neighbors g x -> (x, y) ∈ edges g \/ (y, x) ∈ edges g.
Proof.
  intros Hwf Hy. pose proof (wf_graph_sym g x y Hwf Hy) as Hx.
  pose proof Hwf as (Hnd & Hk & _). rewrite <- Hk in Hnd.
  assert (forall a b, b ∈ neighbors g a ->
            exists pre nb post, _adj g = pre ++ (a, nb) :: post /\ b ∈ nb) as Hsplit.
  { intros a b. unfold neighbors.
    destruct (PyDict.get a (_adj g)) as [nb|] eqn:Hg; simpl; [|inversion 1].
    intros Hb. apply get_Some_elem, list_elem_of_split in Hg as (pre & post & Hg).
    eauto. }
  destruct (Hsplit x y Hy) as (pre & nb & post & Hadj & Hynb).
  destruct (decide (y ∈ pre.*1)) as [Hin|Hout].
  - right. apply list_elem_of_fmap in Hin as ([y' nby] & -> & Hin); simpl in *.
    apply list_elem_of_split in Hin as (pre1 & pre2 & ->).
    apply edges_from_iff. exists pre1, nby, (pre2 ++ (x, nb) :: post).
    split; [rewrite Hadj, <- app_assoc; reflexivity|].
    assert (x ∉ pre1.*1) as Hx1.
    { intros Hx1. unfold PyDict.keys in Hnd. rewrite Hadj in Hnd.
      rewrite !fmap_app, <- app_assoc in Hnd.
      apply NoDup_app in Hnd as (_ & Hd & _). apply (Hd x Hx1).
      apply elem_of_app. right. simpl. left. }
    split; [|split; [apply not_elem_of_nil | exact Hx1]].
    revert Hx. unfold neighbors.
    rewrite (elem_get y' nby); [simpl; tauto | exact Hnd |].
    rewrite Hadj. apply elem_of_app. left. apply elem_of_app. right. left.
  - left. apply edges_from_iff. exists pre, nb, post.
    split; [exact Hadj|]. split; [exact Hynb|]. split; [apply not_elem_of_nil | exact Hout].
Qed.

Lemma scan_nodes_ext g g' key t ns :
  Forall (λ n, key_of g' key n = key_of g key n) ns ->
  scan_nodes t g' key ns = scan_nodes t g key ns.
Proof.
  induction 1 as [|m ns Hm _ IH]; [reflexivity|].
  destruct (key_of g key m) as [x|] eqn:Hx.
  - destruct (decide (x = t)) as [->|Hne].
    + rewrite !scan_cons_hit by congruence. reflexivity.
    + rewrite (scan_cons_miss g' key t m x), (scan_cons_miss g key t m x)
        by congruence. exact IH.
  - rewrite !scan_cons_bare by congruence. reflexivity.
Qed.

Lemma scan_nodes_app_hit g key t ns ms :
  Forall (λ n, is_Some (key_of g key n)) ns ->
  filter (λ n, key_of g key n = Some t) ns ≠ [] ->
  scan_nodes t g key (ns ++ ms) = scan_nodes t g key ns.
Proof.
  induction 1 as [|m ns [x Hx] _ IH]; [intros []; reflexivity|].
  rewrite filter_cons. rewrite <- app_comm_cons.
  destruct (decide (x = t)) as [->|Hne].
  - intros _. rewrite !scan_cons_hit by exact Hx. reflexivity.
  - rewrite decide_False by congruence. intros Hf.
    rewrite !(scan_cons_miss g key t m x) by assumption. apply IH, Hf.
Qed.
End edges_more.

(** ** The node left behind by an unknown key, continued *)

Section sentinel_more.
Context {geom : Type} `{Countable geom}.
Variable centroid : geom -> geom.
Variable LineString : list geom -> geom.
Implicit Types (g : Graph geom) (u v x y n t s : pyval geom) (key : string).
Implicit Types (shp : DataFrame geom).

Lemma find_keyed_cases g key t :
  keyed g key ->
  exists n, find_node_by_key t g key = Ok n
            /\ ((matching g key t = [] /\ n = NotFound)
                \/ (matching g key t ≠ [] /\ n ∈ nodes g)).
Proof.
  intros Hk. rewrite (find_keyed g key t Hk).
  destruct (matching g key t) as [|n rest] eqn:Hm; simpl; eexists; split; eauto.
  right. split; [discriminate|].
  assert (n ∈ matching g key t) as Hn by (rewrite Hm; left).
  apply matching_elem in Hn as [Hn _]. exact Hn.
Qed.

(** The graph that [add_edge_by_feature] returns when a key is unknown. *)
Lemma add_edge_by_feature_sentinel g u_key v_key key :
  keyed g key -> NotFound ∉ nodes g ->
  matching g key u_key = [] \/ matching g key v_key = [] ->
  exists u v,
    find_node_by_key u_key g key = Ok u
    /\ find_node_by_key v_key g key = Ok v
    /\ add_edge_by_feature g u_key v_key key = Ok (add_edge u v g)
    /\ (u = NotFound \/ v = NotFound)
    /\ _node (add_edge u v g) = _node g ++ [(NotFound, ∅)].
Proof.
  intros Hk Hs Hm.
  destruct (find_keyed_cases g key u_key Hk) as (u & Hu & Hucase).
  destruct (find_keyed_cases g key v_key Hk) as (v & Hv & Hvcase).
  exists u, v. split; [exact Hu|]. split; [exact Hv|].
  split; [unfold add_edge_by_feature; rewrite Hu, Hv; reflexivity|].
  assert (u = NotFound \/ v = NotFound) as Huv.
  { destruct Hm as [Hm|Hm]; [left|right].
    - destruct Hucase as [[_ ?]|[? _]]; [assumption | contradiction].
    - destruct Hvcase as [[_ ?]|[? _]]; [assumption | contradiction]. }
  split; [exact Huv|].
  apply node_add_edge_sentinel; [exact Hs | | | exact Huv].
  - destruct Hucase as [[_ ?]|[_ ?]]; auto.
  - destruct Hvcase as [[_ ?]|[_ ?]]; auto.
Qed.

Lemma find_after_sentinel g g' key t :
  keyed g key -> NotFound ∉ nodes g ->
  _node g' = _node g ++ [(NotFound, ∅)] ->
  (matching g key t = [] -> find_node_by_key t g' key = Err KeyError)
  /\ (matching g key t ≠ [] -> find_node_by_key t g' key = find_node_by_key t g key).
Proof.
  intros Hk Hs Hg'.
  destruct (key_of_app_sentinel g g' key NotFound Hs Hg') as [Hbare Hsame].
  assert (nodes g' = nodes g ++ [NotFound]) as Hn.
  { unfold nodes, PyDict.keys. rewrite Hg', fmap_app. reflexivity. }
  assert (Forall (λ n, key_of g' key n = key_of g key n) (nodes g)) as Hext.
  { apply Forall_forall. exact Hsame. }
  split.
  - intros Hm. apply (find_bare_node g' key t (nodes g) NotFound []).
    + exact Hn.
    + apply Forall_forall. intros n Hin. rewrite Hsame by exact Hin.
      eapply Forall_forall in Hk; eauto.
    + apply Forall_forall. intros n Hin Hkey. rewrite Hsame in Hkey by exact Hin.
      assert (n ∈ matching g key t) as Habs by (apply matching_elem; auto).
      rewrite Hm in Habs. inversion Habs.
    + exact Hbare.
  - intros Hm. unfold find_node_by_key. rewrite Hn.
    rewrite scan_nodes_app_hit.
    + apply scan_nodes_ext, Hext.
    + apply Forall_forall. intros n Hin. rewrite Hsame by exact Hin.
      eapply Forall_forall in Hk; eauto.
    + destruct (matching g key t) as [|n rest] eqn:Hmt; [contradiction|].
      assert (n ∈ matching g key t) as Hin by (rewrite Hmt; left).
      apply matching_elem in Hin as [Hin Hkey].
      intros Hf.
      assert (n ∈ filter (λ m, key_of g' key m = Some t) (nodes g)) as Habs.
      { apply list_elem_of_filter. split; [|exact Hin].
        rewrite Hsame by exact Hin. exact Hkey. }
      rewrite Hf in Habs. inversion Habs.
Qed.

(** X7.  On a graph whose nodes all carry the key attribute and which has
    no node [-1], [add_edge_by_feature] with a key value that no node has
    returns, and leaves [-1] behind as the last node, without attributes.
    From then on a lookup of a value that no node has raises [KeyError]
    instead of returning [-1], a lookup of a value that some node has is
    unchanged, and neither the removal of the edge just added nor a second
    addition with the same key values returns. *)
Theorem add_edge_by_feature_unknown_key g u_key v_key key :
  keyed g key -> NotFound ∉ nodes g ->
  matching g key u_key = [] \/ matching g key v_key = [] ->
  exists g',
    add_edge_by_feature g u_key v_key key = Ok g'
    /\ nodes g' = nodes g ++ [NotFound]
    /\ key_of g' key NotFound = None
    /\ (forall t, matching g key t = [] -> find_node_by_key t g' key = Err KeyError)
    /\ (forall t, matching g key t ≠ [] ->
                  find_node_by_key t g' key = find_node_by_key t g key)
    /\ remove_edge_by_feature g' u_key v_key key = Err KeyError
    /\ add_edge_by_feature g' u_key v_key key = Err KeyError.
Proof.
  intros Hk Hs Hm.
  destruct (add_edge_by_feature_sentinel g u_key v_key key Hk Hs Hm)
    as (u & v & Hu & Hv & Hadd & _ & Hnode).
  exists (add_edge u v g). split; [exact Hadd|].
  split; [unfold nodes, PyDict.keys; rewrite Hnode, fmap_app; reflexivity|].
  split; [apply (key_of_app_sentinel g _ key NotFound Hs Hnode)|].
  pose proof (λ t, find_after_sentinel g (add_edge u v g) key t Hk Hs Hnode) as Hfind.
  split; [intros t; apply Hfind|]. split; [intros t; apply Hfind|].
  assert (forall (f : pyval geom -> pyval geom -> result (Graph geom)),
            (a ← find_node_by_key u_key (add_edge u v g) key;
             b ← find_node_by_key v_key (add_edge u v g) key; f a b) = Err KeyError)
    as Hboth.
  { intros f. destruct Hm as [Hm|Hm].
    - destruct (Hfind u_key) as [Hf _]. rewrite (Hf Hm). reflexivity.
    - destruct (find_node_by_key u_key (add_edge u v g) key) as [a|e] eqn:Ha; simpl.
      + destruct (Hfind v_key) as [Hf _]. rewrite (Hf Hm). reflexivity.
      + apply scan_nodes_Err in Ha as [-> _]. reflexivity. }
  split; apply Hboth.
Qed.


Lemma node_attrs_err g n e : node_attrs g n = Err e -> e = KeyError.
Proof. unfold node_attrs. destruct (PyDict.get n (_node g)); intros [=]; auto. Qed.

Lemma subscript_err `{Lookup K V M} (d : M) (k : K) e :
  subscript d k = Err e -> e = KeyError.
Proof. unfold subscript. destruct (d !! k); intros [=]; auto. Qed.

Lemma edge_keys_err g key e : edge_keys g key = Err e -> e = KeyError.
Proof.
  unfold edge_keys.
  destruct (pair_mapM (node_attrs g) (edges g)) as [ns|e'] eqn:Hns; simpl.
  - intros (p & _ & [He|He])%pair_mapM_Err; eapply subscript_err; exact He.
  - intros [= <-]. apply pair_mapM_Err in Hns as (p & _ & [He|He]);
      eapply node_attrs_err; exact He.
Qed.

(** An edge with an endpoint that lacks the key attribute makes the
    comprehension [keys] raise. *)
Lemma edge_keys_bare g key e :
  e ∈ edges g -> key_of g key e.1 = None \/ key_of g key e.2 = None ->
  edge_keys g key = Err KeyError.
Proof.
  intros He Hbare.
  destruct (edge_keys g key) as [keys|err] eqn:Hk;
    [|apply edge_keys_err in Hk as ->; reflexivity].
  exfalso. unfold edge_keys in Hk.
  apply bind_Ok in Hk as (ns & Hns & Hk).
  apply pair_mapM_Ok in Hns. apply pair_mapM_Ok in Hk.
  apply list_elem_of_lookup in He as [i Hi].
  destruct (Forall2_lookup_l _ _ _ _ _ Hns Hi) as (a & Ha & Ha1 & Ha2).
  destruct (Forall2_lookup_l _ _ _ _ _ Hk Ha) as (k & _ & Hk1 & Hk2).
  apply subscript_Ok in Hk1, Hk2.
  assert (key_of g key e.1 = Some k.1) by (apply key_of_Some; eauto).
  assert (key_of g key e.2 = Some k.2) by (apply key_of_Some; eauto).
  destruct Hbare; congruence.
Qed.

Lemma index_rows2_err key c (kd ed : gmap (pyval geom) (pyval geom)) rows e :
  index_rows2 key c kd ed rows = Err e -> e = KeyError.
Proof.
  rewrite index_rows2_split.
  destruct (index_rows key "geometry" kd rows) eqn:H1; simpl;
    [|intros [= <-]; eapply index_rows_err; exact H1].
  destruct (index_rows key c ed rows) eqn:H2; simpl; [intros [=]|].
  intros [= <-]. eapply index_rows_err; exact H2.
Qed.

Lemma builders_bare g shp endpoints key e :
  e ∈ edges g -> key_of g key e.1 = None \/ key_of g key e.2 = None ->
  edges_geoms g shp key = Err KeyError
  /\ edges_to_gdf centroid LineString g shp key = Err KeyError
  /\ edges_geoms_endpoints g shp endpoints key = Err KeyError
  /\ edges_to_gdf_endpoints centroid LineString g shp endpoints key = Err KeyError.
Proof.
  intros He Hbare. pose proof (edge_keys_bare g key e He Hbare) as Hk.
  assert (edges_geoms g shp key = Err KeyError) as H1.
  { unfold edges_geoms, key_dict_of. rewrite Hk.
    destruct (index_rows key "geometry" ∅ (df_rows shp)) eqn:Hi; simpl;
      [reflexivity|]. apply index_rows_err in Hi as ->. reflexivity. }
  assert (edges_geoms_endpoints g shp endpoints key = Err KeyError) as H2.
  { unfold edges_geoms_endpoints. rewrite Hk.
    destruct (index_rows2 key endpoints ∅ ∅ (df_rows shp)) as [[kd ed]|] eqn:Hi;
      simpl; [reflexivity|]. apply index_rows2_err in Hi as ->. reflexivity. }
  split; [exact H1|]. split; [unfold edges_to_gdf; rewrite H1; reflexivity|].
  split; [exact H2|]. unfold edges_to_gdf_endpoints. rewrite H2. reflexivity.
Qed.

(** X8.  The graph that [add_edge_by_feature] returns after it was given a
    key value that no node has can no longer be exported: [edges_geoms],
    [edges_to_gdf], [edges_geoms_endpoints] and [edges_to_gdf_endpoints]
    raise [KeyError] on it for every feature table and every key column,
    because the new edge has the attribute-less node [-1] as an endpoint. *)
Theorem add_edge_by_feature_unknown_key_breaks_builders g u_key v_key key g' :
  wf_graph g -> keyed g key -> NotFound ∉ nodes g ->
  matching g key u_key = [] \/ matching g key v_key = [] ->
  add_edge_by_feature g u_key v_key key = Ok g' ->
  forall shp endpoints key',
    edges_geoms g' shp key' = Err KeyError
    /\ edges_to_gdf centroid LineString g' shp key' = Err KeyError
    /\ edges_geoms_endpoints g' shp endpoints key' = Err KeyError
    /\ edges_to_gdf_endpoints centroid LineString g' shp endpoints key' = Err KeyError.
Proof.
  intros Hwf Hk Hs Hm Hadd shp endpoints key'.
  destruct (add_edge_by_feature_sentinel g u_key v_key key Hk Hs Hm)
    as (u & v & Hu & Hv & Hadd' & Huv & Hnode).
  rewrite Hadd' in Hadd. injection Hadd as <-.
  pose proof (wf_graph_add_edge u v g Hwf) as Hwf'.
  destruct (key_of_app_sentinel g _ key' NotFound Hs Hnode) as [Hbare _].
  assert (exists w, w ∈ neighbors (add_edge u v g) NotFound) as [w Hw].
  { destruct Huv as [-> | ->]; [exists v|exists u];
      apply elem_neighbors_add_edge; auto. }
  destruct (edges_complete _ _ _ Hwf' Hw) as [He|He];
    eapply builders_bare; try exact He; simpl; auto.
Qed.
End sentinel_more.

Lemma add_edge_by_feature_unknown_key_witness :
  exists g',
    add_edge_by_feature path_graph (str "nope") (str "1") "GEOID10" = Ok g'
    /\ nodes g' = nodes path_graph ++ [NotFound]
    /\ key_of g' "GEOID10" NotFound = None
    /\ (forall t, matching path_graph "GEOID10" t = [] ->
                  find_node_by_key t g' "GEOID10" = Err KeyError)
    /\ (forall t, matching path_graph "GEOID10" t ≠ [] ->
                  find_node_by_key t g' "GEOID10"
                  = find_node_by_key t path_graph "GEOID10")
    /\ remove_edge_by_feature g' (str "nope") (str "1") "GEOID10" = Err KeyError
    /\ add_edge_by_feature g' (str "nope") (str "1") "GEOID10" = Err KeyError.
Proof.
  apply (add_edge_by_feature_unknown_key path_graph (str "nope") (str "1") "GEOID10").
  - apply (bool_decide_unpack _). vm_compute. exact I.
  - apply (bool_decide_unpack _). vm_compute. exact I.
  - left. vm_compute. reflexivity.
Defined.

Lemma add_edge_by_feature_unknown_key_breaks_builders_witness :
  edges_geoms orphaned squares "GEOID10" = Err KeyError
  /\ edges_to_gdf shape_centroid shape_line orphaned squares "GEOID10" = Err KeyError
  /\ edges_geoms_endpoints orphaned squares "GEOID10" "GEOID10" = Err KeyError
  /\ edges_to_gdf_endpoints shape_centroid shape_line orphaned squares
       "GEOID10" "GEOID10" = Err KeyError.
Proof.
  refine (add_edge_by_feature_unknown_key_breaks_builders shape_centroid shape_line
            path_graph (str "nope") (str "1") "GEOID10" orphaned _ _ _ _ _
            squares "GEOID10" "GEOID10").
  - apply (bool_decide_unpack _). vm_compute. exact I.
  - apply (bool_decide_unpack _). vm_compute. exact I.
  - apply (bool_decide_unpack _). vm_compute. exact I.
  - left. vm_compute. reflexivity.
  - vm_compute. reflexivity.
Defined.

(** ** KeyedGeometryIndex: when the loop returns, and what it indexes *)

Section index_more.
Context {geom : Type} `{Countable geom}.
Implicit Types (d kd ed : gmap (pyval geom) (pyval geom)).
Implicit Types (rows : list (gmap string (pyval geom))).
Implicit Types (shp : DataFrame geom) (key c : string).

Lemma index_rows_Ok key c d rows d' :
  index_rows key c d rows = Ok d' ->
  Forall (λ r, is_Some (r !! key) /\ is_Some (r !! c)) rows
  /\ forall k, is_Some (d' !! k)
               <-> is_Some (d !! k) \/ Exists (λ r, r !! key = Some k) rows.
Proof.
  revert d. induction rows as [|r rows IH]; intros d; simpl.
  - intros [= <-]. split; [constructor|]. intros k. rewrite Exists_nil. tauto.
  - intros Hi. apply bind_Ok in Hi as (x & Hx & Hi).
    apply bind_Ok in Hi as (k0 & Hk0 & Hi).
    apply subscript_Ok in Hx. apply subscript_Ok in Hk0.
    destruct (IH _ Hi) as [Hall Hdom]. split; [constructor; eauto|].
    intros k. rewrite Hdom, Exists_cons.
    destruct (decide (k0 = k)) as [->|Hne].
    + rewrite lookup_insert_eq. split; [intros _; right; left; exact Hk0|].
      intros _. left. eauto.
    + rewrite lookup_insert_ne by exact Hne.
      split; [tauto|]. intros [?|[?|?]]; try tauto. congruence.
Qed.

(** X9.  The loop that builds [key_dict] returns exactly when every row of
    the feature table has a cell in the key column and in the column
    "geometry"; its only error is [KeyError]; and the dictionary it returns
    has an entry for exactly the values that occur in the key column. *)
Theorem key_dict_of_domain shp key :
  ((exists kd, key_dict_of shp key = Ok kd)
   <-> has_column shp key /\ has_column shp "geometry")
  /\ (forall e, key_dict_of shp key = Err e -> e = KeyError)
  /\ (forall kd, key_dict_of shp key = Ok kd ->
        forall k, is_Some (kd !! k)
                  <-> Exists (λ r : gmap string (pyval geom), r !! key = Some k)
                        (df_rows shp)).
Proof.
  unfold key_dict_of, has_column. split; [|split].
  - split.
    + intros [kd [Hall _]%index_rows_Ok].
      split; (eapply Forall_impl; [exact Hall|]; simpl; tauto).
    + intros [Hk Hg]. apply index_rows_total. apply Forall_and. split; assumption.
  - intros e He. eapply index_rows_err; exact He.
  - intros kd [_ Hdom]%index_rows_Ok k.
    rewrite Hdom, lookup_empty. split; [intros [[? [=]]|?]; assumption | auto].
Qed.
End index_more.

(** ** EdgeGeometryBuilder: when the comprehensions return *)

Lemma Forall2_compose {A B C} (R : A -> B -> Prop) (S : B -> C -> Prop) l m k :
  Forall2 R l m -> Forall2 S m k ->
  Forall2 (λ x z, exists y, R x y /\ S y z) l k.
Proof.
  intros HR. revert k. induction HR; intros k HS; inversion HS; subst;
    constructor; eauto.
Qed.

Lemma Forall2_functional {A B} (R : A -> B -> Prop) l k k' :
  (forall x y y', R x y -> R x y' -> y = y') ->
  Forall2 R l k -> Forall2 R l k' -> k = k'.
Proof.
  intros Hfun HR. revert k'. induction HR; intros k' HR'; inversion HR'; subst;
    [reflexivity|]. f_equal; eauto.
Qed.

Section builder_more.
Context {geom : Type} `{Countable geom}.
Variable centroid : geom -> geom.
Variable LineString : list geom -> geom.
Implicit Types (g : Graph geom) (shp : DataFrame geom) (key endpoints : string).
Implicit Types (kd ed : gmap (pyval geom) (pyval geom)).
Implicit Types (e : pyval geom * pyval geom).

Lemma edge_keys_Ok g key keys :
  edge_keys g key = Ok keys
  <-> Forall2 (λ e ks, key_of g key e.1 = Some ks.1 /\ key_of g key e.2 = Some ks.2)
        (edges g) keys.
Proof.
  split.
  - unfold edge_keys. intros (ns & Hns & Hk)%bind_Ok.
    apply pair_mapM_Ok in Hns. apply pair_mapM_Ok in Hk.
    eapply Forall2_impl; [exact (Forall2_compose _ _ _ _ _ Hns Hk)|].
    intros e ks (a & [Ha1 Ha2] & [Hk1 Hk2]).
    apply subscript_Ok in Hk1, Hk2. split; apply key_of_Some; eauto.
  - intros HF. destruct (edge_keys_spec g key) as (keys' & Hk & HF').
    { eapply Forall2_Forall_l; [exact HF|]. apply Forall_forall.
      intros ks _ e [H1 H2]. eauto. }
    rewrite Hk. f_equal. eapply Forall2_functional; [|exact HF'|exact HF].
    intros e [a b] [a' b']; simpl. intros [? ?] [? ?]. f_equal; congruence.
Qed.

Lemma resolve_keys_Ok g key d keys vs :
  Forall2 (λ e ks, key_of g key e.1 = Some ks.1 /\ key_of g key e.2 = Some ks.2)
    (edges g) keys ->
  pair_mapM (subscript d) keys = Ok vs <-> Forall2 (resolved g key d) (edges g) vs.
Proof.
  intros Hk. rewrite pair_mapM_Ok. split.
  - intros Hvs. eapply Forall2_impl; [exact (Forall2_compose _ _ _ _ _ Hk Hvs)|].
    intros e v (ks & [H1 H2] & [H3 H4]). apply subscript_Ok in H3, H4.
    exists ks.1, ks.2. auto.
  - revert vs. induction Hk as [|e ks es keys [H1 H2] _ IH]; intros vs Hvs;
      inversion Hvs as [|? v ? vs' (k1 & k2 & H3 & H4 & H5 & H6) Hvs']; subst;
      constructor; [|apply IH, Hvs'].
    assert (k1 = ks.1) as -> by congruence. assert (k2 = ks.2) as -> by congruence.
    split; apply subscript_Ok; assumption.
Qed.

Lemma edges_geoms_Ok g shp key geoms :
  edges_geoms g shp key = Ok geoms
  <-> exists kd, key_dict_of shp key = Ok kd
                 /\ Forall2 (resolved g key kd) (edges g) geoms.
Proof.
  unfold edges_geoms. rewrite bind_Ok. split.
  - intros (kd & Hkd & (keys & Hkeys & Hg)%bind_Ok). exists kd. split; [exact Hkd|].
    apply edge_keys_Ok in Hkeys. eapply resolve_keys_Ok; eassumption.
  - intros (kd & Hkd & HF). exists kd. split; [exact Hkd|].
    destruct (edge_keys_spec g key) as (keys & Hkeys & HF').
    { eapply Forall2_Forall_l; [exact HF|]. apply Forall_forall.
      intros v _ e (k1 & k2 & H1 & H2 & _). eauto. }
    rewrite Hkeys; simpl. eapply resolve_keys_Ok; eassumption.
Qed.

Lemma edges_geoms_err g shp key err :
  edges_geoms g shp key = Err err -> err = KeyError.
Proof.
  unfold edges_geoms, key_dict_of.
  destruct (index_rows key "geometry" ∅ (df_rows shp)) as [kd|e'] eqn:Hi; simpl;
    [|intros [= <-]; eapply index_rows_err; exact Hi].
  destruct (edge_keys g key) as [keys|e'] eqn:Hk; simpl;
    [|intros [= <-]; eapply edge_keys_err; exact Hk].
  intros (p & _ & [He|He])%pair_mapM_Err; eapply subscript_err; exact He.
Qed.

(** X10.  [edges_geoms] returns a list exactly when the index is built and
    that list holds, for every edge of [list(graph.edges)] in order, the
    two values the index holds for the key values of its endpoints; its
    only error is [KeyError]. *)
Theorem edges_geoms_returns g shp key :
  (forall geoms,
     edges_geoms g shp key = Ok geoms
     <-> exists kd, key_dict_of shp key = Ok kd
                    /\ Forall2 (resolved g key kd) (edges g) geoms)
  /\ (forall err, edges_geoms g shp key = Err err -> err = KeyError).
Proof.
  split; [intros geoms; apply edges_geoms_Ok | apply edges_geoms_err].
Qed.

Lemma edges_geoms_endpoints_Ok g shp endpoints key geoms ends :
  edges_geoms_endpoints g shp endpoints key = Ok (geoms, ends)
  <-> exists kd ed,
        index_rows2 key endpoints ∅ ∅ (df_rows shp) = Ok (kd, ed)
        /\ Forall2 (resolved g key kd) (edges g) geoms
        /\ Forall2 (resolved g key ed) (edges g) ends.
Proof.
  unfold edges_geoms_endpoints. rewrite bind_Ok. split.
  - intros ([kd ed] & Hi & (keys & Hkeys & (gs & Hg & (es & He & [= <- <-])%bind_Ok)
                             %bind_Ok)%bind_Ok).
    exists kd, ed. split; [exact Hi|]. apply edge_keys_Ok in Hkeys.
    split; eapply resolve_keys_Ok; eassumption.
  - intros (kd & ed & Hi & Hg & He). exists (kd, ed). split; [exact Hi|].
    destruct (edge_keys_spec g key) as (keys & Hkeys & HF').
    { eapply Forall2_Forall_l; [exact Hg|]. apply Forall_forall.
      intros v _ e (k1 & k2 & H1 & H2 & _). eauto. }
    rewrite Hkeys; simpl.
    apply (resolve_keys_Ok g key kd keys geoms HF') in Hg.
    apply (resolve_keys_Ok g key ed keys ends HF') in He.
    rewrite Hg; simpl. rewrite He. reflexivity.
Qed.

Lemma edges_geoms_endpoints_fst g shp endpoints key geoms ends :
  edges_geoms_endpoints g shp endpoints key = Ok (geoms, ends) ->
  edges_geoms g shp key = Ok geoms
  /\ length geoms = length (edges g) /\ length ends = length (edges g).
Proof.
  intros (kd & ed & Hi & Hg & He)%edges_geoms_endpoints_Ok.
  split; [apply edges_geoms_Ok; exists kd; split;
            [eapply index_rows2_key_dict; exact Hi | exact Hg]|].
  split; symmetry; eapply Forall2_length; eassumption.
Qed.

Lemma edges_geoms_endpoints_total g shp endpoints key geoms :
  has_column shp endpoints ->
  edges_geoms g shp key = Ok geoms ->
  exists ends, edges_geoms_endpoints g shp endpoints key = Ok (geoms, ends).
Proof.
  intros Hc (kd & Hkd & Hg)%edges_geoms_Ok.
  destruct (index_rows_total key endpoints ∅ (df_rows shp)) as [ed Hed].
  { unfold key_dict_of in Hkd. apply index_rows_Ok in Hkd as [Hall _].
    apply Forall_and. split; [eapply Forall_impl; [exact Hall|]; simpl; tauto|].
    exact Hc. }
  assert (index_rows2 key endpoints ∅ ∅ (df_rows shp) = Ok (kd, ed)) as Hi.
  { rewrite index_rows2_split. unfold key_dict_of in Hkd. rewrite Hkd; simpl.
    rewrite Hed. reflexivity. }
  assert (forall k, is_Some (kd !! k) -> is_Some (ed !! k)) as Hdom.
  { eapply index_rows2_dom; [exact Hi|].
    intros k [? Hk]. rewrite lookup_empty in Hk. discriminate. }
  assert (exists ends, Forall2 (resolved g key ed) (edges g) ends) as [ends He].
  { clear -Hg Hdom.
    induction Hg as [|e v es vs (k1 & k2 & H1 & H2 & H3 & H4) _ [ends IH]].
    - exists []. constructor.
    - destruct (Hdom k1 (mk_is_Some _ _ H3)) as [l1 Hl1].
      destruct (Hdom k2 (mk_is_Some _ _ H4)) as [l2 Hl2].
      exists ((l1, l2) :: ends). constructor; [|exact IH].
      exists k1, k2. auto. }
  exists ends. apply edges_geoms_endpoints_Ok. eauto.
Qed.

(** X11.  The geometries that [edges_geoms_endpoints] returns are the ones
    [edges_geoms] returns, one pair of geometries and one pair of labels
    per edge; and when every row of the feature table has a cell in the
    label column, [edges_geoms_endpoints] returns whenever [edges_geoms]
    does. *)
Theorem edges_geoms_endpoints_geoms g shp endpoints key :
  (forall geoms ends,
     edges_geoms_endpoints g shp endpoints key = Ok (geoms, ends) ->
     edges_geoms g shp key = Ok geoms
     /\ length geoms = length (edges g) /\ length ends = length (edges g))
  /\ (forall geoms,
        has_column shp endpoints ->
        edges_geoms g shp key = Ok geoms ->
        exists ends, edges_geoms_endpoints g shp endpoints key = Ok (geoms, ends)).
Proof.
  split.
  - intros geoms ends. apply edges_geoms_endpoints_fst.
  - intros geoms. apply edges_geoms_endpoints_total.
Qed.
End builder_more.


Section exporter_more.
Context {geom : Type} `{Countable geom}.
Variable centroid : geom -> geom.
Variable LineString : list geom -> geom.
Implicit Types (g : Graph geom) (shp : DataFrame geom) (key endpoints : string).
Implicit Types (kd ed : gmap (pyval geom) (pyval geom)).
Implicit Types (e : pyval geom * pyval geom).

Lemma centroid_of_Ok (v : pyval geom) c :
  centroid_of centroid v = Ok c <-> exists p, v = VGeom p /\ c = centroid p.
Proof.
  destruct v; simpl; split; try (intros [=]; subst; eauto);
    intros (p & [=] & ->); subst; reflexivity.
Qed.

Lemma centroid_of_err (v : pyval geom) err :
  centroid_of centroid v = Err err <-> err = AttributeError /\ ~ is_geometry v.
Proof.
  destruct v; simpl; split; try (intros [=]; subst; tauto); try tauto;
    intros [-> _]; reflexivity.
Qed.

Lemma centerlines_Ok geoms lines :
  centerlines centroid LineString geoms = Ok lines
  <-> Forall2 (λ gs line, exists p1 p2,
                  gs = (VGeom p1, VGeom p2)
                  /\ line = VGeom (LineString [centroid p1; centroid p2]))
        geoms lines.
Proof.
  unfold centerlines. rewrite mapM_Ok.
  split; intros HF; (eapply Forall2_impl; [exact HF|]); intros [a b] line; simpl.
  - intros (c1 & (p1 & -> & ->)%centroid_of_Ok
            & (c2 & (p2 & -> & ->)%centroid_of_Ok & [= <-])%bind_Ok)%bind_Ok.
    eauto.
  - intros (p1 & p2 & [= -> ->] & ->). reflexivity.
Qed.

Lemma centerlines_err geoms err :
  centerlines centroid LineString geoms = Err err
  <-> err = AttributeError
      /\ Exists (λ gs, ~ is_geometry gs.1 \/ ~ is_geometry gs.2) geoms.
Proof.
  split.
  - intros (gs & Hin & He)%mapM_Err_elem.
    assert (err = AttributeError /\ (~ is_geometry gs.1 \/ ~ is_geometry gs.2))
      as [-> Hgs].
    { destruct (centroid_of centroid gs.1) as [c1|e1] eqn:H1; simpl in He.
      - destruct (centroid_of centroid gs.2) as [c2|e2] eqn:H2; simpl in He;
          [discriminate|]. injection He as <-.
        apply centroid_of_err in H2 as [-> H2]. auto.
      - injection He as <-. apply centroid_of_err in H1 as [-> H1]. auto. }
    split; [reflexivity|]. apply Exists_exists. eauto.
  - intros [-> Hex].
    destruct (centerlines centroid LineString geoms) as [lines|e'] eqn:Hl.
    + exfalso. apply centerlines_Ok in Hl. apply Exists_exists in Hex as (gs & Hin & Hgs).
      apply list_elem_of_lookup in Hin as [i Hi].
      destruct (Forall2_lookup_l _ _ _ _ _ Hl Hi) as (line & _ & p1 & p2 & -> & _).
      simpl in Hgs. tauto.
    + apply mapM_Err_elem in Hl as (gs & _ & He). f_equal.
      destruct (centroid_of centroid gs.1) as [c1|e1] eqn:H1; simpl in He.
      * destruct (centroid_of centroid gs.2) as [c2|e2] eqn:H2; simpl in He;
          [discriminate|]. injection He as <-. apply centroid_of_err in H2. tauto.
      * injection He as <-. apply centroid_of_err in H1. tauto.
Qed.

(** X12.  [edges_to_gdf] raises [KeyError] exactly when [edges_geoms]
    does, and [AttributeError] exactly when [edges_geoms] returns and one
    of the values it returns is not a geometry; it raises nothing else. *)
Theorem edges_to_gdf_raises g shp key err :
  edges_to_gdf centroid LineString g shp key = Err err
  <-> (err = KeyError /\ edges_geoms g shp key = Err KeyError)
      \/ (err = AttributeError
          /\ exists geoms, edges_geoms g shp key = Ok geoms
                           /\ Exists (λ gs, ~ is_geometry gs.1 \/ ~ is_geometry gs.2)
                                geoms).
Proof.
  unfold edges_to_gdf.
  destruct (edges_geoms g shp key) as [geoms|e'] eqn:Hg; simpl.
  - destruct (centerlines centroid LineString geoms) as [lines|e''] eqn:Hl; simpl.
    + split; [intros [=]|]. intros [[_ [=]]|(-> & geoms' & [= <-] & Hex)].
      assert (centerlines centroid LineString geoms = Err AttributeError) as Habs
        by (apply centerlines_err; auto).
      congruence.
    + apply centerlines_err in Hl as [-> Hex]. split.
      * intros [= <-]. right. eauto.
      * intros [[_ [=]]|[-> _]]. reflexivity.
  - apply edges_geoms_err in Hg as ->. split.
    + intros [= <-]. left. auto.
    + intros [[-> _]|(_ & geoms & [=] & _)]. reflexivity.
Qed.

Lemma zip3_rows_geometry (us vs lines : list (pyval geom)) :
  length us = length lines -> length vs = length lines ->
  Forall2 (λ row line, exists u v, row = endpoint_row u v line)
    (zip3_rows us vs lines) lines.
Proof.
  revert us vs. induction lines as [|l lines IH]; intros [|u us] [|v vs];
    simpl; try discriminate; intros Hu Hv; constructor; eauto.
Qed.

(** X13.  A table returned by [edges_to_gdf_endpoints] comes from a graph
    with an edge; [edges_to_gdf] returns on the same arguments, with the
    same reference system and, row by row, the same geometry, and every
    row of the first table also holds its two labels.  Conversely, on a
    graph with an edge and a feature table with a cell in the label column
    of every row, [edges_to_gdf_endpoints] returns whenever [edges_to_gdf]
    does. *)
Theorem edges_to_gdf_endpoints_geometry g shp endpoints key :
  (forall t,
     edges_to_gdf_endpoints centroid LineString g shp endpoints key = Ok t ->
     edges g ≠ []
     /\ exists t0,
          edges_to_gdf centroid LineString g shp key = Ok t0
          /\ df_crs t = df_crs t0
          /\ length (df_rows t) = length (edges g)
          /\ Forall2 (λ r r0 : gmap string (pyval geom),
                        r !! "geometry" = r0 !! "geometry"
                        /\ is_Some (r !! "endpoint_u") /\ is_Some (r !! "endpoint_v"))
               (df_rows t) (df_rows t0))
  /\ (forall t0,
        edges g ≠ [] -> has_column shp endpoints ->
        edges_to_gdf centroid LineString g shp key = Ok t0 ->
        exists t, edges_to_gdf_endpoints centroid LineString g shp endpoints key = Ok t).
Proof.
  split.
  - intros t Ht. unfold edges_to_gdf_endpoints in Ht.
    apply bind_Ok in Ht as ([geos ends] & Hge & Ht).
    apply bind_Ok in Ht as ([us vs] & Hunzip & Ht).
    apply bind_Ok in Ht as (lines & Hlines & [= <-]).
    destruct (edges_geoms_endpoints_fst g shp endpoints key geos ends Hge)
      as (Hg & Hlg & Hle).
    assert (ends ≠ [] /\ us = ends.*1 /\ vs = ends.*2) as (Hne & -> & ->).
    { destruct ends; [discriminate|]. injection Hunzip as <- <-. auto. }
    split; [intros He; rewrite He in Hle; destruct ends; [congruence | discriminate]|].
    unfold edges_to_gdf. rewrite Hg; simpl. rewrite Hlines; simpl.
    eexists. split; [reflexivity|]. simpl.
    apply mapM_Ok, Forall2_length in Hlines.
    assert (length (ends.*1) = length lines /\ length (ends.*2) = length lines)
      as [Hu Hv] by (rewrite !length_fmap; split; congruence).
    pose proof (zip3_rows_geometry _ _ _ Hu Hv) as HZ.
    split; [reflexivity|].
    split; [rewrite (Forall2_length _ _ _ HZ); congruence|].
    apply Forall2_fmap_r. eapply Forall2_impl; [exact HZ|].
    intros row line (u & v & ->). unfold endpoint_row. cbn beta.
    split; [rewrite lookup_insert_eq, lookup_singleton_eq; reflexivity|].
    rewrite !(lookup_insert_ne _ "geometry") by discriminate.
    rewrite lookup_insert_eq.
    rewrite lookup_insert_ne by discriminate. rewrite lookup_singleton_eq. eauto.
  - intros t0 Hne Hc Ht0. unfold edges_to_gdf in Ht0.
    apply bind_Ok in Ht0 as (geoms & Hg & Ht0).
    apply bind_Ok in Ht0 as (lines & Hlines & _).
    destruct (edges_geoms_endpoints_total g shp endpoints key geoms Hc Hg)
      as [ends He].
    destruct (edges_geoms_endpoints_fst g shp endpoints key geoms ends He)
      as (_ & _ & Hle).
    unfold edges_to_gdf_endpoints. rewrite He; simpl.
    destruct ends as [|p ends]; [destruct (edges g); [congruence | discriminate]|].
    simpl. rewrite Hlines; simpl. eauto.
Qed.
End exporter_more.


(** ** SharedBoundaryResolver: from the graph to its shared boundaries *)

Section boundaries_more.
Context {geom : Type} `{Countable geom}.
Variable centroid : geom -> geom.
Variable LineString : list geom -> geom.
Variable intersection : geom -> geom -> geom.
Implicit Types (g : Graph geom) (g_shp shp : DataFrame geom) (key : string).
Implicit Types (kd ed : gmap (pyval geom) (pyval geom)).

Lemma shared_boundaries_gdf_crs g g_shp shp key out :
  shared_boundaries_gdf intersection g g_shp shp key = Ok out ->
  df_crs out = df_crs shp.
Proof.
  unfold shared_boundaries_gdf. intros Ho.
  repeat (apply bind_Ok in Ho as (? & _ & Ho)).
  injection Ho as <-. reflexivity.
Qed.

Lemma column_err (df : DataFrame geom) c err : column df c = Err err -> err = KeyError.
Proof.
  unfold column. case_decide; [|intros [= <-]; reflexivity].
  intros (r & _ & He)%mapM_Err_elem. eapply subscript_err; exact He.
Qed.

Lemma column_Ok (df : DataFrame geom) c vs :
  column df c = Ok vs -> Forall2 (λ r x, r !! c = Some x) (df_rows df) vs.
Proof.
  unfold column. case_decide; [|intros [=]].
  intros HF%mapM_Ok. eapply Forall2_impl; [exact HF|].
  intros r x Hx. apply subscript_Ok in Hx. exact Hx.
Qed.

Lemma covers_keyed g shp key : covers g shp key -> keyed g key.
Proof.
  unfold covers, keyed. intros Hc. eapply Forall_impl; [exact Hc|].
  intros n (k & Hk & _). eauto.
Qed.

(** X14.  From the graph to its shared boundaries.  On a graph that
    satisfies the networkx invariant and has an edge, with a feature table
    that covers the key values of the nodes, [edges_to_gdf_endpoints] with
    the key column as label column returns an edge table on which
    [shared_boundaries_gdf] returns; the result has the reference system of
    the feature table, and its rows follow [list(graph.edges)] one for one:
    the row of an edge holds the key values of its two endpoints and the
    intersection of the two geometries indexed by them. *)
Theorem shared_boundaries_of_graph g shp key :
  wf_graph g -> feature_table shp key -> covers g shp key -> edges g ≠ [] ->
  exists kd t out,
    key_dict_of shp key = Ok kd
    /\ edges_to_gdf_endpoints centroid LineString g shp key key = Ok t
    /\ shared_boundaries_gdf intersection g t shp key = Ok out
    /\ df_crs out = df_crs shp
    /\ Forall2 (λ e o, exists k1 k2 p1 p2,
                   key_of g key e.1 = Some k1 /\ key_of g key e.2 = Some k2
                   /\ kd !! k1 = Some (VGeom p1) /\ kd !! k2 = Some (VGeom p2)
                   /\ o = <["endpoint_v" := k2]>
                            (<["endpoint_u" := k1]>
                               {["geometry" := VGeom (intersection p1 p2)]}))
         (edges g) (df_rows out).
Proof.
  intros Hwf Hft Hcov Hne.
  destruct (covered_edges g shp key Hwf Hft Hcov) as (kd & Hkd & Hg).
  destruct (index_rows_total key key ∅ (df_rows shp)) as [ed Hed].
  { eapply Forall_impl; [exact Hft|]. simpl. tauto. }
  assert (index_rows2 key key ∅ ∅ (df_rows shp) = Ok (kd, ed)) as Hi.
  { rewrite index_rows2_split. unfold key_dict_of in Hkd. rewrite Hkd; simpl.
    rewrite Hed. reflexivity. }
  assert (forall k v, ed !! k = Some v -> v = k) as Hself.
  { eapply index_rows_key_self; [exact Hed|]. intros k v Hk.
    rewrite lookup_empty in Hk. discriminate. }
  destruct (edges_to_gdf_endpoints_spec centroid LineString g shp key key kd ed
              Hi Hg Hne) as (t & Ht & Hcols & _ & HT).
  destruct (edge_table_labels_resolve centroid LineString g shp key kd ed Hi Hg Hne)
    as (t' & Ht' & _ & Hcu & Hcv & Hrows).
  assert (t' = t) as -> by congruence.
  destruct (shared_boundaries_gdf_spec intersection g t shp key kd
              Hkd (covers_keyed _ _ _ Hcov) Hcu Hcv Hrows) as (out & Hout & _ & HO).
  exists kd, t, out. split; [exact Hkd|]. split; [exact Ht|]. split; [exact Hout|].
  split; [eapply shared_boundaries_gdf_crs; exact Hout|].
  eapply Forall2_impl; [exact (Forall2_compose _ _ _ _ _ HT HO)|].
  intros e o (row & (lu & lv & pu & pv & Hlu & Hlv & Hpu & Hpv & ->)
              & (u & v & qu & qv & Hu & Hv & Hqu & Hqv & ->)).
  unfold endpoint_row in Hu, Hv.
  rewrite !lookup_insert_ne in Hu by discriminate. rewrite lookup_singleton_eq in Hu.
  rewrite lookup_insert_ne in Hv by discriminate. rewrite lookup_insert_eq in Hv.
  injection Hu as <-. injection Hv as <-.
  apply endpoint_geom_Some in Hpu as (k1 & Hk1 & Hd1).
  apply endpoint_geom_Some in Hpv as (k2 & Hk2 & Hd2).
  unfold endpoint_label in Hlu, Hlv. rewrite Hk1 in Hlu. rewrite Hk2 in Hlv.
  apply Hself in Hlu as ->. apply Hself in Hlv as ->.
  apply label_geom_Some in Hqu as [_ Hqu]. apply label_geom_Some in Hqv as [_ Hqv].
  assert (qu = pu) as -> by congruence. assert (qv = pv) as -> by congruence.
  exists k1, k2, pu, pv. auto.
Qed.

(** X15.  When every node carries the key attribute and [-1] is not a
    node, an edge table with a label that is the key value of no node
    makes [shared_boundaries_gdf] raise [KeyError]: the lookup returns
    [-1], and [graph.nodes[-1]] fails. *)
Theorem shared_boundaries_gdf_unknown_label g g_shp shp key r u :
  keyed g key -> NotFound ∉ nodes g ->
  r ∈ df_rows g_shp ->
  r !! "endpoint_u" = Some u \/ r !! "endpoint_v" = Some u ->
  matching g key u = [] ->
  shared_boundaries_gdf intersection g g_shp shp key = Err KeyError.
Proof.
  intros Hk Hs Hr Hu Hm. unfold shared_boundaries_gdf, key_dict_of.
  destruct (index_rows key "geometry" ∅ (df_rows shp)) as [kd|e'] eqn:Hkd; simpl;
    [|apply index_rows_err in Hkd as ->; reflexivity].
  destruct (column g_shp "endpoint_u") as [eu|e'] eqn:Heu; simpl;
    [|apply column_err in Heu as ->; reflexivity].
  destruct (column g_shp "endpoint_v") as [ev|e'] eqn:Hev; simpl;
    [|apply column_err in Hev as ->; reflexivity].
  destruct (pair_mapM (λ u0, find_node_by_key u0 g key) (zip eu ev)) as [ns|e'] eqn:Hns;
    simpl.
  2:{ apply pair_mapM_Err in Hns as (p & _ & [He|He]);
        apply scan_nodes_Err in He as [-> _]; reflexivity. }
  destruct (pair_mapM (λ n, a ← node_attrs g n; subscript a key) ns) as [ks|e'] eqn:Hks;
    simpl.
  2:{ assert (forall n e0, (a ← node_attrs g n; subscript a key) = Err e0 -> e0 = KeyError)
        as Herr.
      { intros n e0. destruct (node_attrs g n) as [a|e1] eqn:Ha; simpl.
        - apply subscript_err.
        - intros [= <-]. eapply node_attrs_err; exact Ha. }
      apply pair_mapM_Err in Hks as (p & _ & [He|He]); apply Herr in He as ->;
        reflexivity. }
  exfalso.
  apply column_Ok in Heu, Hev. apply pair_mapM_Ok in Hns, Hks.
  apply list_elem_of_lookup in Hr as [i Hi].
  destruct (Forall2_lookup_l _ _ _ _ _ Heu Hi) as (x & Hx & Hrx).
  destruct (Forall2_lookup_l _ _ _ _ _ Hev Hi) as (y & Hy & Hry).
  assert (zip eu ev !! i = Some (x, y)) as Hz.
  { rewrite lookup_zip_with. rewrite Hx; simpl. rewrite Hy. reflexivity. }
  destruct (Forall2_lookup_l _ _ _ _ _ Hns Hz) as (n & Hn & Hn1 & Hn2).
  destruct (Forall2_lookup_l _ _ _ _ _ Hks Hn) as (k & _ & Hk1 & Hk2).
  simpl in Hn1, Hn2.
  assert (find_node_by_key u g key = Ok NotFound) as Hfind
    by (rewrite (find_keyed g key u Hk), Hm; reflexivity).
  assert (node_attrs g NotFound = Err KeyError) as Hbare.
  { unfold node_attrs. apply (get_None (V := gmap string (pyval geom))) in Hs.
    rewrite Hs. reflexivity. }
  destruct Hu as [Hu|Hu].
  - assert (x = u) as -> by congruence. rewrite Hfind in Hn1.
    injection Hn1 as Hn1. rewrite <- Hn1, Hbare in Hk1. discriminate.
  - assert (y = u) as -> by congruence. rewrite Hfind in Hn2.
    injection Hn2 as Hn2. rewrite <- Hn2, Hbare in Hk2. discriminate.
Qed.
End boundaries_more.


(** ** EdgeAnnotator: what the loop does to the table *)

Section annotator_more.
Context {geom : Type} `{Countable geom}.
Implicit Types (df t : DataFrame geom) (col c : string) (val u v : pyval geom).
Implicit Types (r : gmap string (pyval geom)) (uv : pyval geom * pyval geom).
Implicit Types (marks : list (pyval geom * pyval geom)).
Implicit Types (items : list ((pyval geom * pyval geom) * pyval geom)).

Lemma mark_pair_columns col val df uv df' :
  mark_pair col val df uv = Ok df' -> df_columns df' = df_columns df.
Proof.
  destruct uv as [u v]. unfold mark_pair. intros Hm.
  repeat (apply bind_Ok in Hm as (? & _ & Hm)).
  injection Hm as <-. reflexivity.
Qed.

Lemma mark_loop_columns col df items t :
  mark_loop col df items = Ok t -> df_columns t = df_columns df.
Proof.
  revert df. induction items as [|[uv val] items IH]; intros df; simpl.
  - intros [= <-]. reflexivity.
  - intros (df' & Hp & Hl)%bind_Ok. rewrite (IH _ Hl).
    eapply mark_pair_columns, Hp.
Qed.

Lemma mark_loop_app col df items1 items2 :
  mark_loop col df (items1 ++ items2)
  = (t ← mark_loop col df items1; mark_loop col t items2).
Proof.
  revert df. induction items1 as [|[uv val] items1 IH]; intros df; simpl;
    [reflexivity|].
  destruct (mark_pair col val df uv) as [df'|e]; simpl; [apply IH | reflexivity].
Qed.

Lemma init_column_id col df : col ∈ df_columns df -> init_column col df = df.
Proof. intros Hc. unfold init_column. rewrite decide_True by exact Hc. reflexivity. Qed.

Lemma init_column_col col df : col ∈ df_columns (init_column col df).
Proof.
  unfold init_column. case_decide as Hc; [exact Hc|]. simpl.
  rewrite decide_False by exact Hc. apply elem_of_app. right. left.
Qed.

Lemma mark_loop_init_app col df items1 items2 :
  mark_loop col (init_column col df) (items1 ++ items2)
  = (t ← mark_loop col (init_column col df) items1;
     mark_loop col (init_column col t) items2).
Proof.
  rewrite mark_loop_app.
  destruct (mark_loop col (init_column col df) items1) as [t|e] eqn:Ht; simpl;
    [|reflexivity].
  rewrite (init_column_id col t); [reflexivity|].
  rewrite (mark_loop_columns _ _ _ _ Ht). apply init_column_col.
Qed.

(** X16.  Marking with a list of pairs, or with the items of a
    dictionary, is marking with a first part and then with the rest: the
    second call finds the column there and the rows as the first call left
    them, and an error of the first call is the error of the whole. *)
Theorem mark_edges_app df col :
  (forall marks1 marks2 val,
     mark_edges df (marks1 ++ marks2) col val
     = (t ← mark_edges df marks1 col val; mark_edges t marks2 col val))
  /\ (forall items1 items2,
        mark_edges_dict df (items1 ++ items2) col
        = (t ← mark_edges_dict df items1 col; mark_edges_dict t items2 col)).
Proof.
  split.
  - intros marks1 marks2 val. unfold mark_edges. rewrite fmap_app.
    apply mark_loop_init_app.
  - intros items1 items2. unfold mark_edges_dict. apply mark_loop_init_app.
Qed.

(** The items in order, on one row. *)
Lemma foldl_mark_row_items col items r :
  col ≠ "endpoint_u" -> col ≠ "endpoint_v" ->
  (forall c, c ≠ col -> foldl (λ r m, mark_row col m.2 r m.1) r items !! c = r !! c)
  /\ foldl (λ r m, mark_row col m.2 r m.1) r items !! col
     = match last (filter (λ m, marked_by r m.1) items) with
       | Some m => Some m.2
       | None => r !! col
       end.
Proof.
  intros Hu Hv. induction items as [|m items [IHo IHc]] using rev_ind.
  - split; reflexivity.
  - rewrite foldl_app. cbn [foldl]. split.
    + intros c Hc. rewrite mark_row_other by exact Hc. apply IHo, Hc.
    + rewrite mark_row_col by assumption. rewrite filter_app, filter_cons, filter_nil.
      assert (marked_by (foldl (λ r m, mark_row col m.2 r m.1) r items) m.1
              <-> marked_by r m.1) as Hext
        by (apply marked_by_ext; apply IHo; congruence).
      destruct (decide (marked_by r m.1)) as [Hm|Hm].
      * rewrite decide_True by (apply Hext, Hm). rewrite last_snoc. reflexivity.
      * rewrite decide_False by (rewrite Hext; exact Hm).
        rewrite app_nil_r. exact IHc.
Qed.

Lemma init_row_other df col r c : c ≠ col -> init_row df col r !! c = r !! c.
Proof.
  intros Hne. unfold init_row.
  destruct (decide (col ∈ df_columns df)); [reflexivity|].
  apply lookup_insert_ne. congruence.
Qed.

Lemma init_row_col df col r :
  init_row df col r !! col
  = if decide (col ∈ df_columns df) then r !! col else Some (VInt 0).
Proof.
  unfold init_row.
  destruct (decide (col ∈ df_columns df)); [reflexivity | apply lookup_insert_eq].
Qed.

Lemma init_column_endpoints df col :
  "endpoint_u" ∈ df_columns df -> "endpoint_v" ∈ df_columns df ->
  has_column df "endpoint_u" -> has_column df "endpoint_v" ->
  "endpoint_u" ∈ df_columns (init_column col df)
  /\ "endpoint_v" ∈ df_columns (init_column col df)
  /\ has_column (init_column col df) "endpoint_u"
  /\ has_column (init_column col df) "endpoint_v".
Proof.
  intros Hcu Hcv Hu Hv.
  split; [apply init_column_columns, Hcu|]. split; [apply init_column_columns, Hcv|].
  unfold has_column. rewrite init_column_rows.
  split; apply Forall_fmap;
    [eapply Forall_impl; [exact Hu|] | eapply Forall_impl; [exact Hv|]];
    intros r; simpl; apply init_row_has_column.
Qed.

Lemma init_column_crs col df : df_crs (init_column col df) = df_crs df.
Proof. unfold init_column. case_decide; reflexivity. Qed.

Lemma init_column_columns_eq col df :
  df_columns (init_column col df)
  = if decide (col ∈ df_columns df) then df_columns df else df_columns df ++ [col].
Proof.
  unfold init_column. case_decide as Hc; [reflexivity|]. simpl.
  rewrite decide_False by exact Hc. reflexivity.
Qed.

(** [mark_edges_dict] on a table with both endpoint columns, as a table. *)
Lemma mark_edges_dict_table df items col :
  "endpoint_u" ∈ df_columns df -> "endpoint_v" ∈ df_columns df ->
  has_column df "endpoint_u" -> has_column df "endpoint_v" ->
  mark_edges_dict df items col
  = Ok {| df_columns := if decide (col ∈ df_columns df) then df_columns df
                        else df_columns df ++ [col];
          df_rows := (λ r, foldl (λ r m, mark_row col m.2 r m.1)
                             (init_row df col r) items) <$> df_rows df;
          df_crs := df_crs df |}.
Proof.
  intros Hcu Hcv Hu Hv.
  destruct (init_column_endpoints df col Hcu Hcv Hu Hv) as (H1 & H2 & H3 & H4).
  unfold mark_edges_dict. rewrite mark_loop_spec by assumption.
  rewrite init_column_columns_eq, init_column_crs, init_column_rows.
  rewrite <- list_fmap_compose. reflexivity.
Qed.

(** X17.  [mark_edges_dict] on a table with both endpoint columns, when
    [col] is not one of them: it returns; [col] is appended as the last
    column when it is new; the reference system and every cell outside
    [col] are what they were; and the cell of a row in [col] is the value
    of the last item whose pair selects the row, or else what it was, [0]
    in a new column.  A pair selects the rows that hold it in the given
    order and the rows that hold its first member twice. *)
Theorem mark_edges_dict_last_item_wins df items col :
  col ≠ "endpoint_u" -> col ≠ "endpoint_v" ->
  "endpoint_u" ∈ df_columns df -> "endpoint_v" ∈ df_columns df ->
  has_column df "endpoint_u" -> has_column df "endpoint_v" ->
  exists t,
    mark_edges_dict df items col = Ok t
    /\ df_columns t = (if decide (col ∈ df_columns df) then df_columns df
                       else df_columns df ++ [col])
    /\ df_crs t = df_crs df
    /\ Forall2 (λ r r',
                  (forall c, c ≠ col -> r' !! c = r !! c)
                  /\ r' !! col
                     = match last (filter (λ m, marked_by r m.1) items) with
                       | Some m => Some m.2
                       | None => if decide (col ∈ df_columns df) then r !! col
                                 else Some (VInt 0)
                       end)
         (df_rows df) (df_rows t).
Proof.
  intros Hu Hv Hcu Hcv Hru Hrv.
  rewrite (mark_edges_dict_table df items col Hcu Hcv Hru Hrv).
  eexists. split; [reflexivity|]. simpl. split; [reflexivity|]. split; [reflexivity|].
  apply Forall2_fmap_r, Forall_Forall2_diag, Forall_forall. intros r _.
  destruct (foldl_mark_row_items col items (init_row df col r) Hu Hv) as [Ho Hc].
  split.
  - intros c Hne. rewrite Ho by exact Hne. apply init_row_other, Hne.
  - rewrite Hc.
    assert (filter (λ m, marked_by (init_row df col r) m.1) items
            = filter (λ m, marked_by r m.1) items) as ->.
    { apply list_filter_iff. intros m.
      apply marked_by_ext; apply init_row_other; congruence. }
    rewrite init_row_col. reflexivity.
Qed.

(** X18.  [mark_edges] on a table with both endpoint columns, when [col]
    is not one of them: it returns; [col] is appended as the last column
    when it is new; the reference system and every cell outside [col] are
    what they were; and the cell of a row in [col] is [val] when some pair
    selects the row, and otherwise what it was, [0] in a new column. *)
Theorem mark_edges_effect df marks col val :
  col ≠ "endpoint_u" -> col ≠ "endpoint_v" ->
  "endpoint_u" ∈ df_columns df -> "endpoint_v" ∈ df_columns df ->
  has_column df "endpoint_u" -> has_column df "endpoint_v" ->
  exists t,
    mark_edges df marks col val = Ok t
    /\ df_columns t = (if decide (col ∈ df_columns df) then df_columns df
                       else df_columns df ++ [col])
    /\ df_crs t = df_crs df
    /\ Forall2 (λ r r',
                  (forall c, c ≠ col -> r' !! c = r !! c)
                  /\ r' !! col
                     = if decide (Exists (marked_by r) marks) then Some val
                       else if decide (col ∈ df_columns df) then r !! col
                       else Some (VInt 0))
         (df_rows df) (df_rows t).
Proof.
  intros Hu Hv Hcu Hcv Hru Hrv.
  destruct (mark_edges_cells df marks col val Hu Hv Hcu Hcv Hru Hrv)
    as (t & Ht & Hcols & _ & HT).
  exists t. split; [exact Ht|].
  split; [rewrite Hcols; apply init_column_columns_eq|]. split; [|exact HT].
  change (mark_edges_dict df ((λ uv, (uv, val)) <$> marks) col = Ok t) in Ht.
  rewrite (mark_edges_dict_table df _ col Hcu Hcv Hru Hrv) in Ht.
  injection Ht as <-. reflexivity.
Qed.

(** X19.  On a table that lacks an endpoint column, [mark_edges] and
    [mark_edges_dict] raise [KeyError] as soon as there is a pair to mark,
    and with nothing to mark they return the table with the column [col]
    created. *)
Theorem mark_edges_missing_endpoint_column df col :
  "endpoint_u" ∉ df_columns df \/ "endpoint_v" ∉ df_columns df ->
  col ≠ "endpoint_u" -> col ≠ "endpoint_v" ->
  (forall marks val,
     mark_edges df marks col val
     = match marks with [] => Ok (init_column col df) | _ :: _ => Err KeyError end)
  /\ (forall items,
        mark_edges_dict df items col
        = match items with [] => Ok (init_column col df) | _ :: _ => Err KeyError end).
Proof.
  intros Hmiss Hu Hv.
  assert (forall uv val, mark_pair col val (init_column col df) uv = Err KeyError)
    as Hpair.
  { intros [u v] val. unfold mark_pair.
    assert (forall c', c' ≠ col -> c' ∉ df_columns df ->
                      column (init_column col df) c' = Err KeyError) as Hcol.
    { intros c' Hne Hc'. unfold column. rewrite decide_False; [reflexivity|].
      rewrite init_column_columns_eq. case_decide; [exact Hc'|].
      rewrite elem_of_app, list_elem_of_singleton. tauto. }
    destruct Hmiss as [Hm|Hm].
    - rewrite (Hcol "endpoint_u") by (congruence || exact Hm). reflexivity.
    - destruct (column (init_column col df) "endpoint_u") as [eu|e] eqn:Heu; simpl.
      + rewrite (Hcol "endpoint_v") by (congruence || exact Hm). reflexivity.
      + apply column_err in Heu as ->. reflexivity. }
  split.
  - intros [|uv marks] val; [reflexivity|]. unfold mark_edges. simpl.
    rewrite Hpair. reflexivity.
  - intros [|[uv val] items]; [reflexivity|]. unfold mark_edges_dict. simpl.
    rewrite Hpair. reflexivity.
Qed.

(** X20.  Marking the same pairs with the same value a second time changes
    nothing: the second call returns the table the first call returned. *)
Theorem mark_edges_idempotent df marks col val :
  col ≠ "endpoint_u" -> col ≠ "endpoint_v" ->
  "endpoint_u" ∈ df_columns df -> "endpoint_v" ∈ df_columns df ->
  has_column df "endpoint_u" -> has_column df "endpoint_v" ->
  exists t, mark_edges df marks col val = Ok t
            /\ mark_edges t marks col val = Ok t.
Proof.
  intros Hu Hv Hcu Hcv Hru Hrv.
  assert (forall df0, mark_edges df0 marks col val
                      = mark_edges_dict df0 ((λ uv, (uv, val)) <$> marks) col)
    as Hdict by reflexivity.
  rewrite Hdict, (mark_edges_dict_table df _ col Hcu Hcv Hru Hrv).
  eexists. split; [reflexivity|].
  set (step := λ r (m : pyval geom * pyval geom * pyval geom), mark_row col m.2 r m.1).
  set (items := (λ uv, (uv, val)) <$> marks).
  assert (forall r c, c ≠ col -> foldl step r items !! c = r !! c) as Hother.
  { intros r c Hc. apply (foldl_mark_row_items col items r Hu Hv), Hc. }
  assert (col ∈ (if decide (col ∈ df_columns df) then df_columns df
                 else df_columns df ++ [col])) as Hcol.
  { case_decide as Hc; [exact Hc|]. apply elem_of_app. right. left. }
  rewrite Hdict, mark_edges_dict_table; simpl.
  - rewrite (decide_True (P := col ∈ _)) by exact Hcol.
    f_equal. f_equal. rewrite <- list_fmap_compose. apply list_fmap_ext.
    intros _ r _. simpl. unfold init_row at 1. simpl.
    rewrite (decide_True (P := col ∈ _)) by exact Hcol.
    fold step. fold items.
    set (r0 := init_row df col r). set (r1 := foldl step r0 items).
    apply map_eq. intros c. destruct (decide (c = col)) as [->|Hne].
    + destruct (foldl_mark_row_items col items r1 Hu Hv) as [_ Hr2].
      destruct (foldl_mark_row_items col items r0 Hu Hv) as [_ Hr1].
      assert (filter (λ m, marked_by r1 m.1) items
              = filter (λ m, marked_by r0 m.1) items) as Hf.
      { apply list_filter_iff. intros m.
        apply marked_by_ext; apply Hother; congruence. }
      rewrite Hf in Hr2.
      change (foldl step r1 items !! col
              = match last (filter (λ m, marked_by r0 m.1) items) with
                | Some m => Some m.2
                | None => r1 !! col
                end) in Hr2.
      change (r1 !! col
              = match last (filter (λ m, marked_by r0 m.1) items) with
                | Some m => Some m.2
                | None => r0 !! col
                end) in Hr1.
      rewrite Hr2.
      destruct (last (filter (λ m, marked_by r0 m.1) items));
        [symmetry; exact Hr1 | reflexivity].
    + apply Hother, Hne.
  - case_decide; [exact Hcu | apply elem_of_app; left; exact Hcu].
  - case_decide; [exact Hcv | apply elem_of_app; left; exact Hcv].
  - unfold has_column; simpl. apply Forall_fmap. eapply Forall_impl; [exact Hru|].
    intros r Hr; simpl. fold step. fold items. rewrite Hother by congruence.
    apply init_row_has_column, Hr.
  - unfold has_column; simpl. apply Forall_fmap. eapply Forall_impl; [exact Hrv|].
    intros r Hr; simpl. fold step. fold items. rewrite Hother by congruence.
    apply init_row_has_column, Hr.
Qed.
End annotator_more.


(** ** The functions that write a shapefile *)

Section writers_more.
Context {geom : Type} `{Countable geom}.
Variable centroid : geom -> geom.
Variable LineString : list geom -> geom.
Variable FS : Type.
Variable to_file : DataFrame geom -> string -> FS -> FS * result unit.
Implicit Types (g : Graph geom) (shp : DataFrame geom).
Implicit Types (key endpoints outfile : string) (fs : FS).

Lemma edges_to_shapefile_gdf g shp key outfile fs :
  edges_to_shapefile centroid LineString FS to_file g shp key outfile fs
  = match edges_to_gdf centroid LineString g shp key with
    | Ok t => to_file t outfile fs
    | Err e => (fs, Err e)
    end.
Proof.
  unfold edges_to_shapefile, edges_to_gdf.
  destruct (edges_geoms g shp key) as [geoms|e]; simpl; [|reflexivity].
  destruct (centerlines centroid LineString geoms); reflexivity.
Qed.

Lemma edges_to_shapefile_endpoints_gdf g shp endpoints key outfile fs :
  edges_to_shapefile_endpoints centroid LineString FS to_file g shp endpoints key
    outfile fs
  = match edges_to_gdf_endpoints centroid LineString g shp endpoints key with
    | Ok t => to_file t outfile fs
    | Err e => (fs, Err e)
    end.
Proof.
  unfold edges_to_shapefile_endpoints, edges_to_gdf_endpoints.
  destruct (edges_geoms_endpoints g shp endpoints key) as [[geos ends]|e]; simpl;
    [|reflexivity].
  destruct (unzip_pairs ends) as [[us vs]|e]; simpl; [|reflexivity].
  destruct (centerlines centroid LineString geos); reflexivity.
Qed.

(** X21.  Each of the two functions that write a shapefile hands to
    [to_file] exactly the table that the corresponding [edges_to_gdf]
    function returns, with the given path, and when that function raises,
    it raises the same exception and writes nothing. *)
Theorem shapefile_writers_write_the_table g shp endpoints key outfile fs :
  edges_to_shapefile centroid LineString FS to_file g shp key outfile fs
  = match edges_to_gdf centroid LineString g shp key with
    | Ok t => to_file t outfile fs
    | Err e => (fs, Err e)
    end
  /\ edges_to_shapefile_endpoints centroid LineString FS to_file g shp endpoints key
       outfile fs
     = match edges_to_gdf_endpoints centroid LineString g shp endpoints key with
       | Ok t => to_file t outfile fs
       | Err e => (fs, Err e)
       end.
Proof.
  split; [apply edges_to_shapefile_gdf | apply edges_to_shapefile_endpoints_gdf].
Qed.

(** X22.  On a graph without edges, and a feature table with a cell in the
    key, geometry and label columns of every row,
    [edges_to_shapefile_endpoints] raises [ValueError] and writes nothing,
    while [edges_to_shapefile] writes the table without rows. *)
Theorem edges_to_shapefile_endpoints_no_edge g shp endpoints key outfile fs :
  has_column shp key -> has_column shp "geometry" -> has_column shp endpoints ->
  edges g = [] ->
  edges_to_shapefile_endpoints centroid LineString FS to_file g shp endpoints key
    outfile fs
  = (fs, Err ValueError)
  /\ edges_to_shapefile centroid LineString FS to_file g shp key outfile fs
     = to_file {| df_columns := ["geometry"]; df_rows := []; df_crs := df_crs shp |}
         outfile fs.
Proof.
  intros Hk Hg He Hedges.
  destruct (index_rows_total key "geometry" ∅ (df_rows shp)) as [kd Hkd];
    [apply Forall_and; split; assumption|].
  destruct (index_rows_total key endpoints ∅ (df_rows shp)) as [ed Hed];
    [apply Forall_and; split; assumption|].
  assert (index_rows2 key endpoints ∅ ∅ (df_rows shp) = Ok (kd, ed)) as Hi.
  { rewrite index_rows2_split, Hkd; simpl. rewrite Hed. reflexivity. }
  split.
  - rewrite edges_to_shapefile_endpoints_gdf.
    rewrite (edges_to_gdf_endpoints_edgeless centroid LineString g shp endpoints key
               kd ed Hi Hedges). reflexivity.
  - unfold edges_to_shapefile, edges_geoms, key_dict_of, edge_keys.
    rewrite Hkd, Hedges. reflexivity.
Qed.
End writers_more.

(** ** ComponentVisualizer *)

Section plots_more.
Context {geom : Type} `{Countable geom}.
Variable connected_components : Graph geom -> list (list (pyval geom)).
Implicit Types (g : Graph geom) (shp : DataFrame geom) (key : string).

Lemma foldl_max_le (x : nat) l : (x <= foldl Nat.max x l)%nat.
Proof.
  revert x. induction l as [|y l IH]; intros x; simpl; [lia|].
  etrans; [|apply IH]. lia.
Qed.

Lemma foldl_max_ub (x : nat) l : Forall (λ y, (y <= foldl Nat.max x l)%nat) l.
Proof.
  revert x. induction l as [|y l IH]; intros x; simpl; constructor.
  - etrans; [|apply foldl_max_le]. lia.
  - apply IH.
Qed.

Lemma foldl_max_elem (x : nat) l : foldl Nat.max x l ∈ x :: l.
Proof.
  revert x. induction l as [|y l IH]; intros x; simpl; [left|].
  pose proof (IH (Nat.max x y)) as Hm. apply elem_of_cons in Hm as [Hm|Hm].
  - rewrite Hm. destruct (Nat.max_spec x y) as [[_ ->]|[_ ->]]; [right; left | left].
  - right. right. exact Hm.
Qed.

Lemma py_max_Ok l m :
  py_max l = Ok m -> m ∈ l /\ Forall (λ y, (y <= m)%nat) l.
Proof.
  destruct l as [|x l]; simpl; [intros [=]|]. intros [= <-].
  split; [apply foldl_max_elem|].
  constructor; [apply foldl_max_le | apply foldl_max_ub].
Qed.

Lemma filter_Forall_iff {A} (P Q : A -> Prop) `{!forall x, Decision (P x)}
    `{!forall x, Decision (Q x)} (l : list A) :
  Forall (λ x, P x <-> Q x) l -> filter P l = filter Q l.
Proof.
  induction 1 as [|x l Hx _ IH]; [reflexivity|].
  rewrite !filter_cons, IH.
  destruct (decide (P x)), (decide (Q x)); tauto.
Qed.

Lemma node_key_Ok g key n k : node_key g key n = Ok k <-> key_of g key n = Some k.
Proof.
  unfold node_key. rewrite bind_Ok, key_of_Some.
  split; intros (a & Ha & Hk); exists a; split; try exact Ha; apply subscript_Ok, Hk.
Qed.

Lemma node_key_err g key n err : node_key g key n = Err err -> err = KeyError.
Proof.
  unfold node_key. destruct (node_attrs g n) as [a|e] eqn:Ha; simpl.
  - apply subscript_err.
  - intros [= <-]. eapply node_attrs_err, Ha.
Qed.

(** X23.  When the graph has no component (a graph without nodes),
    [plot_problems] raises [ValueError]: [max] is given an empty
    sequence. *)
Theorem plot_problems_no_component g shp key :
  connected_components g = [] ->
  plot_problems connected_components g shp key = Err ValueError.
Proof. intros Hc. unfold plot_problems. rewrite Hc. reflexivity. Qed.

(** X24.  When [plot_problems] returns, the list it returns holds the key
    values of the nodes of the components that are strictly smaller than
    a largest one, component by component, and nothing else; a row of the
    feature table is flagged exactly when its key value is in that list;
    and when all components have the same size the list is empty, however
    many components there are. *)
Theorem plot_problems_reports_smaller_components g shp key flags ids :
  plot_problems connected_components g shp key = Ok (flags, ids) ->
  exists biggest,
    biggest ∈ length <$> connected_components g
    /\ Forall (λ c, (length c <= biggest)%nat) (connected_components g)
    /\ Forall2 (λ n k, key_of g key n = Some k)
         (concat (filter (λ c, (length c < biggest)%nat) (connected_components g)))
         ids
    /\ Forall2 (λ (r : gmap string (pyval geom)) (b : bool),
                  exists k, r !! key = Some k /\ (b = true <-> k ∈ ids))
         (df_rows shp) flags
    /\ (forall n, Forall (λ c, length c = n) (connected_components g) -> ids = []).
Proof.
  unfold plot_problems. intros Hp.
  apply bind_Ok in Hp as (biggest & Hmax & Hp).
  apply bind_Ok in Hp as (geoids & Hg & Hp).
  apply bind_Ok in Hp as (keys & Hkeys & [= <- <-]).
  apply py_max_Ok in Hmax as [Hin Hub]. rewrite Forall_fmap in Hub.
  assert (filter (λ c, length c ≠ biggest) (connected_components g)
          = filter (λ c, (length c < biggest)%nat) (connected_components g)) as Hf.
  { apply filter_Forall_iff. eapply Forall_impl; [exact Hub|]. simpl. lia. }
  rewrite Hf in Hg.
  exists biggest. split; [exact Hin|]. split; [exact Hub|]. split; [|split].
  - apply mapM_Ok in Hg. eapply Forall2_impl; [exact Hg|].
    intros n k. apply node_key_Ok.
  - apply column_Ok in Hkeys. apply Forall2_fmap_r.
    eapply Forall2_impl; [exact Hkeys|]. intros r k Hk. exists k.
    split; [exact Hk|]. simpl. apply bool_decide_eq_true.
  - intros n Hn.
    assert (filter (λ c, (length c < biggest)%nat) (connected_components g) = [])
      as Hnil.
    { apply list_elem_of_fmap in Hin as (c & -> & Hc).
      eapply Forall_forall in Hc as Hcn; [|exact Hn]. simpl in Hcn.
      clear -Hn Hcn. induction Hn as [|c' cs Hc' _ IH]; [reflexivity|].
      rewrite filter_cons, IH. rewrite decide_False; [reflexivity|]. lia. }
    rewrite Hnil in Hg. simpl in Hg. injection Hg as <-. reflexivity.
Qed.

Lemma omap_length_le {A B} (f : A -> option B) (l : list A) :
  (length (omap f l) <= length l)%nat
  /\ (length (omap f l) = length l <-> Forall (λ x, is_Some (f x)) l).
Proof.
  unfold omap. induction l as [|x l [IHle IHeq]]; simpl.
  - split; [lia|]. split; [constructor | reflexivity].
  - destruct (f x) as [y|] eqn:Hx; simpl.
    + split; [lia|]. rewrite Forall_cons, <- IHeq. rewrite Hx.
      split; [intros [= ?]; split; [eauto | assumption] | intros [_ ->]; reflexivity].
    + split; [lia|]. rewrite Forall_cons, Hx.
      split; [lia | intros [[? [=]] _]].
Qed.

Lemma first_component_Some (keys_comps : list (list (pyval geom))) k :
  (forall i, first_component keys_comps k = Some i -> (i < length keys_comps)%nat)
  /\ (is_Some (first_component keys_comps k) <-> Exists (λ kc, k ∈ kc) keys_comps).
Proof.
  unfold first_component. split.
  - intros i. destruct (list_find _ keys_comps) as [[j kc]|] eqn:Hf; [|intros [=]].
    intros [= <-]. apply list_find_Some in Hf as (Hj & _).
    eapply lookup_lt_Some, Hj.
  - rewrite fmap_is_Some. split.
    + intros [[j kc] (Hj & Hk & _)%list_find_Some]. apply Exists_exists.
      exists kc. split; [eapply list_elem_of_lookup_2, Hj | exact Hk].
    + intros (kc & Hin & Hk)%Exists_exists.
      eapply list_find_elem_of; eassumption.
Qed.

(** X25.  [plot_components] reads the node attribute "VTD" whatever [key]
    is: a node of a component without that attribute makes it raise
    [KeyError], on every feature table and for every [key]. *)
Theorem plot_components_reads_VTD g shp key c n :
  c ∈ connected_components g -> n ∈ c -> key_of g "VTD" n = None ->
  plot_components connected_components g shp key = Err KeyError.
Proof.
  intros Hc Hn Hbare. unfold plot_components.
  destruct (mapM (λ c0, mapM (node_key g "VTD") c0) (connected_components g))
    as [kcs|e] eqn:Hm; simpl.
  - exfalso. apply mapM_Ok in Hm.
    apply list_elem_of_lookup in Hc as [i Hi].
    destruct (Forall2_lookup_l _ _ _ _ _ Hm Hi) as (kc & _ & Hkc).
    apply mapM_Ok in Hkc. apply list_elem_of_lookup in Hn as [j Hj].
    destruct (Forall2_lookup_l _ _ _ _ _ Hkc Hj) as (k & _ & Hk).
    apply node_key_Ok in Hk. congruence.
  - apply mapM_Err_elem in Hm as (c' & _ & (n' & _ & He)%mapM_Err_elem).
    apply node_key_err in He as ->. reflexivity.
Qed.

(** X26.  When [plot_components] returns, the series it hands to the plot
    holds, for the rows of the feature table in order, the index of the
    first component that has a node whose "VTD" is the key value of the
    row; rows whose key value is the "VTD" of no node are skipped, so the
    series has at most one entry per row, and one per row exactly when
    every key value of the table is the "VTD" of some node. *)
Theorem plot_components_series g shp key nums :
  plot_components connected_components g shp key = Ok nums ->
  exists keys_comps keys,
    Forall2 (Forall2 (λ n k, key_of g "VTD" n = Some k))
      (connected_components g) keys_comps
    /\ Forall2 (λ (r : gmap string (pyval geom)) k, r !! key = Some k)
         (df_rows shp) keys
    /\ nums = omap (first_component keys_comps) keys
    /\ Forall (λ i, (i < length (connected_components g))%nat) nums
    /\ (length nums <= length (df_rows shp))%nat
    /\ (length nums = length (df_rows shp)
        <-> Forall (λ k, Exists (λ kc, k ∈ kc) keys_comps) keys).
Proof.
  unfold plot_components. intros Hp.
  apply bind_Ok in Hp as (kcs & Hk & Hp).
  apply bind_Ok in Hp as (keys & Hkeys & [= <-]).
  apply mapM_Ok in Hk. apply column_Ok in Hkeys.
  exists kcs, keys.
  split.
  { eapply Forall2_impl; [exact Hk|]. intros c kc Hc%mapM_Ok.
    eapply Forall2_impl; [exact Hc|]. intros n k. apply node_key_Ok. }
  split; [exact Hkeys|]. split; [reflexivity|].
  pose proof (Forall2_length _ _ _ Hk) as Hlk.
  pose proof (Forall2_length _ _ _ Hkeys) as Hlen.
  destruct (omap_length_le (first_component kcs) keys) as [Hle Heq].
  split; [|split].
  - apply Forall_forall. intros i (k & _ & Hi)%list_elem_of_omap.
    rewrite Hlk. eapply first_component_Some, Hi.
  - lia.
  - rewrite Hlen, Heq. apply Forall_iff. intros k. apply first_component_Some.
Qed.
End plots_more.

(** ** The further properties at the examples *)

Lemma squares_feature_table : feature_table squares "GEOID10".
Proof. repeat constructor; eexists; vm_compute; reflexivity. Defined.

Lemma path_graph_covered : covers path_graph squares "GEOID10".
Proof.
  repeat constructor.
  - exists (str "1"). split; [reflexivity|].
    apply (bool_decide_unpack _). vm_compute. exact I.
  - exists (str "2"). split; [reflexivity|].
    apply (bool_decide_unpack _). vm_compute. exact I.
  - exists (str "3"). split; [reflexivity|].
    apply (bool_decide_unpack _). vm_compute. exact I.
Defined.

Lemma edges_geoms_endpoints_geoms_witness :
  exists ends,
    edges_geoms_endpoints path_graph squares "GEOID10" "GEOID10"
    = Ok ([(VGeom (unit_square 0 0), VGeom (unit_square 1 0));
           (VGeom (unit_square 1 0), VGeom (unit_square 2 0))], ends).
Proof.
  apply (proj2 (edges_geoms_endpoints_geoms path_graph squares "GEOID10" "GEOID10")).
  - apply (bool_decide_unpack _). vm_compute. exact I.
  - vm_compute. reflexivity.
Defined.

Lemma edges_to_gdf_endpoints_geometry_witness :
  edges path_graph ≠ []
  /\ exists t0,
       edges_to_gdf shape_centroid shape_line path_graph squares "GEOID10" = Ok t0
       /\ df_crs path_edges = df_crs t0
       /\ length (df_rows path_edges) = length (edges path_graph)
       /\ Forall2 (λ r r0 : gmap string (pyval shape),
                     r !! "geometry" = r0 !! "geometry"
                     /\ is_Some (r !! "endpoint_u") /\ is_Some (r !! "endpoint_v"))
            (df_rows path_edges) (df_rows t0).
Proof.
  apply (proj1 (edges_to_gdf_endpoints_geometry shape_centroid shape_line
                  path_graph squares "GEOID10" "GEOID10") path_edges).
  vm_compute. reflexivity.
Defined.

Lemma shared_boundaries_of_graph_witness :
  exists kd t out,
    key_dict_of squares "GEOID10" = Ok kd
    /\ edges_to_gdf_endpoints shape_centroid shape_line path_graph squares
         "GEOID10" "GEOID10" = Ok t
    /\ shared_boundaries_gdf shape_inter path_graph t squares "GEOID10" = Ok out
    /\ df_crs out = df_crs squares
    /\ Forall2 (λ e o, exists k1 k2 p1 p2,
                   key_of path_graph "GEOID10" e.1 = Some k1
                   /\ key_of path_graph "GEOID10" e.2 = Some k2
                   /\ kd !! k1 = Some (VGeom p1) /\ kd !! k2 = Some (VGeom p2)
                   /\ o = <["endpoint_v" := k2]>
                            (<["endpoint_u" := k1]>
                               {["geometry" := VGeom (shape_inter p1 p2)]}))
         (edges path_graph) (df_rows out).
Proof.
  apply (shared_boundaries_of_graph shape_centroid shape_line shape_inter
           path_graph squares "GEOID10").
  - apply (bool_decide_unpack _). vm_compute. exact I.
  - exact squares_feature_table.
  - exact path_graph_covered.
  - apply (bool_decide_unpack _). vm_compute. exact I.
Defined.

Lemma shared_boundaries_gdf_unknown_label_witness :
  shared_boundaries_gdf shape_inter path_graph (county_edges 0 0) squares "GEOID10"
  = Err KeyError.
Proof.
  apply (shared_boundaries_gdf_unknown_label shape_inter path_graph (county_edges 0 0)
           squares "GEOID10"
           (<["marked" := int 0]> (endpoint_row (str "X") (str "X") (segment 1 1 3 1)))
           (str "X")).
  - apply (bool_decide_unpack _). vm_compute. exact I.
  - apply (bool_decide_unpack _). vm_compute. exact I.
  - apply (bool_decide_unpack _). vm_compute. exact I.
  - left. vm_compute. reflexivity.
  - vm_compute. reflexivity.
Defined.

Lemma mark_edges_dict_last_item_wins_witness :
  exists t,
    mark_edges_dict path_edges
      [((str "1", str "2"), int 1); ((str "2", str "3"), int 5);
       ((str "1", str "2"), int 2)] "marked" = Ok t
    /\ df_columns t = (if decide ("marked" ∈ df_columns path_edges)
                       then df_columns path_edges
                       else df_columns path_edges ++ ["marked"])
    /\ df_crs t = df_crs path_edges
    /\ Forall2 (λ r r',
                  (forall c, c ≠ "marked" -> r' !! c = r !! c)
                  /\ r' !! "marked"
                     = match last (filter (λ m, marked_by r m.1)
                                     [((str "1", str "2"), int 1);
                                      ((str "2", str "3"), int 5);
                                      ((str "1", str "2"), int 2)]) with
                       | Some m => Some m.2
                       | None => if decide ("marked" ∈ df_columns path_edges)
                                 then r !! "marked" else Some (VInt 0)
                       end)
         (df_rows path_edges) (df_rows t).
Proof.
  apply (mark_edges_dict_last_item_wins path_edges
           [((str "1", str "2"), int 1); ((str "2", str "3"), int 5);
            ((str "1", str "2"), int 2)] "marked").
  - apply (bool_decide_unpack _). vm_compute. exact I.
  - apply (bool_decide_unpack _). vm_compute. exact I.
  - apply (bool_decide_unpack _). vm_compute. exact I.
  - apply (bool_decide_unpack _). vm_compute. exact I.
  - apply (bool_decide_unpack _). vm_compute. exact I.
  - apply (bool_decide_unpack _). vm_compute. exact I.
Defined.

Lemma mark_edges_effect_witness :
  exists t,
    mark_edges path_edges [(str "1", str "2")] "marked" (int 1) = Ok t
    /\ df_columns t = (if decide ("marked" ∈ df_columns path_edges)
                       then df_columns path_edges
                       else df_columns path_edges ++ ["marked"])
    /\ df_crs t = df_crs path_edges
    /\ Forall2 (λ r r',
                  (forall c, c ≠ "marked" -> r' !! c = r !! c)
                  /\ r' !! "marked"
                     = if decide (Exists (marked_by r) [(str "1", str "2")])
                       then Some (int 1)
                       else if decide ("marked" ∈ df_columns path_edges)
                            then r !! "marked" else Some (VInt 0))
         (df_rows path_edges) (df_rows t).
Proof.
  apply (mark_edges_effect path_edges [(str "1", str "2")] "marked" (int 1)).
  - apply (bool_decide_unpack _). vm_compute. exact I.
  - apply (bool_decide_unpack _). vm_compute. exact I.
  - apply (bool_decide_unpack _). vm_compute. exact I.
  - apply (bool_decide_unpack _). vm_compute. exact I.
  - apply (bool_decide_unpack _). vm_compute. exact I.
  - apply (bool_decide_unpack _). vm_compute. exact I.
Defined.

Lemma mark_edges_missing_endpoint_column_witness :
  (forall marks val,
     mark_edges squares marks "marked" val
     = match marks with
       | [] => Ok (init_column "marked" squares)
       | _ :: _ => Err KeyError
       end)
  /\ (forall items,
        mark_edges_dict squares items "marked"
        = match items with
          | [] => Ok (init_column "marked" squares)
          | _ :: _ => Err KeyError
          end).
Proof.
  apply (mark_edges_missing_endpoint_column squares "marked").
  - left. apply (bool_decide_unpack _). vm_compute. exact I.
  - apply (bool_decide_unpack _). vm_compute. exact I.
  - apply (bool_decide_unpack _). vm_compute. exact I.
Defined.

Lemma mark_edges_idempotent_witness :
  exists t, mark_edges path_edges [(str "1", str "2")] "marked" (int 1) = Ok t
            /\ mark_edges t [(str "1", str "2")] "marked" (int 1) = Ok t.
Proof.
  apply (mark_edges_idempotent path_edges [(str "1", str "2")] "marked" (int 1)).
  - apply (bool_decide_unpack _). vm_compute. exact I.
  - apply (bool_decide_unpack _). vm_compute. exact I.
  - apply (bool_decide_unpack _). vm_compute. exact I.
  - apply (bool_decide_unpack _). vm_compute. exact I.
  - apply (bool_decide_unpack _). vm_compute. exact I.
  - apply (bool_decide_unpack _). vm_compute. exact I.
Defined.

Lemma edges_to_shapefile_endpoints_no_edge_witness :
  edges_to_shapefile_endpoints shape_centroid shape_line write_log log_to_file
    lonely squares "GEOID10" "GEOID10" "edges.shp" []
  = ([], Err ValueError)
  /\ edges_to_shapefile shape_centroid shape_line write_log log_to_file
       lonely squares "GEOID10" "edges.shp" []
     = log_to_file {| df_columns := ["geometry"]; df_rows := [];
                      df_crs := df_crs squares |} "edges.shp" [].
Proof.
  apply (edges_to_shapefile_endpoints_no_edge shape_centroid shape_line
           write_log log_to_file lonely squares "GEOID10" "GEOID10" "edges.shp" []).
  - apply (bool_decide_unpack _). vm_compute. exact I.
  - apply (bool_decide_unpack _). vm_compute. exact I.
  - apply (bool_decide_unpack _). vm_compute. exact I.
  - vm_compute. reflexivity.
Defined.

Lemma plot_problems_no_component_witness :
  plot_problems list_components empty_graph squares "GEOID10" = Err ValueError.
Proof.
  apply (plot_problems_no_component list_components empty_graph squares "GEOID10").
  vm_compute. reflexivity.
Defined.

Lemma plot_problems_reports_smaller_components_witness :
  exists biggest,
    biggest ∈ length <$> list_components split_path
    /\ Forall (λ c, (length c <= biggest)%nat) (list_components split_path)
    /\ Forall2 (λ n k, key_of split_path "GEOID10" n = Some k)
         (concat (filter (λ c, (length c < biggest)%nat)
                    (list_components split_path)))
         [str "3"]
    /\ Forall2 (λ (r : gmap string (pyval shape)) (b : bool),
                  exists k, r !! "GEOID10" = Some k /\ (b = true <-> k ∈ [str "3"]))
         (df_rows squares) [false; false; true]
    /\ (forall n, Forall (λ c, length c = n) (list_components split_path) ->
                  [str "3"] = []).
Proof.
  apply (plot_problems_reports_smaller_components list_components split_path squares
           "GEOID10" [false; false; true] [str "3"]).
  vm_compute. reflexivity.
Defined.

Lemma plot_components_reads_VTD_witness :
  plot_components list_components path_graph squares "GEOID10" = Err KeyError.
Proof.
  apply (plot_components_reads_VTD list_components path_graph squares "GEOID10"
           [int 0; int 1; int 2] (int 0)).
  - apply (bool_decide_unpack _). vm_compute. exact I.
  - apply (bool_decide_unpack _). vm_compute. exact I.
  - vm_compute. reflexivity.
Defined.

Lemma plot_components_series_witness :
  exists keys_comps keys,
    Forall2 (Forall2 (λ n k, key_of split_path "VTD" n = Some k))
      (list_components split_path) keys_comps
    /\ Forall2 (λ (r : gmap string (pyval shape)) k, r !! "GEOID10" = Some k)
         (df_rows squares) keys
    /\ [0; 0; 1]%nat = omap (first_component keys_comps) keys
    /\ Forall (λ i, (i < length (list_components split_path))%nat) [0; 0; 1]%nat
    /\ (length [0; 0; 1]%nat <= length (df_rows squares))%nat
    /\ (length [0; 0; 1]%nat = length (df_rows squares)
        <-> Forall (λ k, Exists (λ kc, k ∈ kc) keys_comps) keys).
Proof.
  apply (plot_components_series list_components split_path squares "GEOID10"
           [0; 0; 1]%nat).
  vm_compute. reflexivity.
Defined.

(** With two components of the same size, neither is reported. *)
Example plot_problems_tie :
  list_components apart = [[int 0]; [int 1]]
  /\ plot_problems list_components apart squares "GEOID10"
     = Ok ([false; false; false], []).
Proof. split; vm_compute; reflexivity. Qed.

(** The lone node of [split_path] is reported, and its row is flagged. *)
Example plot_problems_split_path :
  list_components split_path = [[int 0; int 1]; [int 2]]
  /\ plot_problems list_components split_path squares "GEOID10"
     = Ok ([false; false; true], [str "3"]).
Proof. split; vm_compute; reflexivity. Qed.

(** A table whose key values are county names: no value is the "VTD" of a
    node, every row is skipped, and the series handed to the plot is empty. *)
Example plot_components_skips_rows :
  plot_components list_components split_path county_squares "COUNTY" = Ok []
  /\ length (df_rows county_squares) = 3%nat.
Proof. split; vm_compute; reflexivity. Qed.
